(** * PlayableEnvironments: dataset utilities, evaluation driver and AdaIn layer

    A shallow embedding of three source files of the repository

    - [dataset/acquisition/utils/remove_camera_folder.py],
    - [evaluation/reconstructed_camera_manipulation_dataset_creator.py],
    - [model/layers/adain.py],

    together with the parts of the Python standard library they call
    ([posixpath], [glob], [os.rename], [shutil.rmtree], [argparse]).
    Definitions come first, grouped in one module per source unit; the
    theorems follow in a second group of modules. *)

From Stdlib Require Import Ascii String ZArith Reals Lra Lia.
From stdpp Require Import base option list gmap strings sorting.

Local Open Scope string_scope.
Local Open Scope list_scope.

(** * Part I: definitions *)

(** ** [posixpath]: the pure path functions of the Python standard library

    These are transcriptions of [Lib/posixpath.py] for [str] arguments:
    [os.sep] is ["/"], [join] is [posixpath.join], [normpath] is
    [posixpath.normpath], [basename] is [posixpath.basename]. *)
Module PosixPath.

Definition sep : ascii := "/"%char.

Definition is_sep (c : ascii) : bool := Ascii.eqb c sep.

(** [s.startswith("/")] *)
Definition startswith_sep (s : string) : bool :=
  match s with
  | String c _ => is_sep c
  | EmptyString => false
  end.

(** [s.endswith("/")] *)
Fixpoint endswith_sep (s : string) : bool :=
  match s with
  | EmptyString => false
  | String c EmptyString => is_sep c
  | String _ s' => endswith_sep s'
  end.

Definition is_empty (s : string) : bool :=
  match s with
  | EmptyString => true
  | String _ _ => false
  end.

(** One round of the loop of [posixpath.join]:
<<
    if b.startswith(sep):            path = b
    elif not path or path.endswith(sep): path += b
    else:                            path += sep + b
>> *)
Definition join2 (path b : string) : string :=
  if startswith_sep b then b
  else if is_empty path || endswith_sep path then path +:+ b
  else path +:+ String sep b.

(** [posixpath.join(a, *p)] *)
Definition join (a : string) (p : list string) : string :=
  fold_left join2 p a.

(** [s.split("/")]: never empty, [split_sep "" = [""]]. *)
Fixpoint split_sep (s : string) : list string :=
  match s with
  | EmptyString => [EmptyString]
  | String c s' =>
      if is_sep c then EmptyString :: split_sep s'
      else match split_sep s' with
           | h :: t => String c h :: t
           | [] => [String c EmptyString]
           end
  end.

(** ["/".join(comps)] *)
Fixpoint sep_join (comps : list string) : string :=
  match comps with
  | [] => EmptyString
  | [c] => c
  | c :: rest => c +:+ String sep (sep_join rest)
  end.

(** The number of leading slashes [normpath] keeps: POSIX allows one or
    two, three or more count as one. *)
Definition initial_slashes (path : string) : nat :=
  match path with
  | String c1 rest =>
      if is_sep c1 then
        match rest with
        | String c2 rest' =>
            if is_sep c2 then
              (if startswith_sep rest' then 1 else 2)
            else 1
        | EmptyString => 1
        end
      else 0
  | EmptyString => 0
  end.

Definition last_is_dotdot (comps : list string) : bool :=
  match last comps with
  | Some c => String.eqb c ".."
  | None => false
  end.

Definition is_nil {A} (l : list A) : bool :=
  match l with [] => true | _ => false end.

(** The body of the loop of [normpath] over the split components. *)
Definition normpath_step (slashes : nat) (new_comps : list string)
    (comp : string) : list string :=
  if String.eqb comp "" || String.eqb comp "." then new_comps
  else if negb (String.eqb comp "..")
          || (Nat.eqb slashes 0 && is_nil new_comps)
          || (negb (is_nil new_comps) && last_is_dotdot new_comps)
       then new_comps ++ [comp]
       else removelast new_comps.

Fixpoint sep_repeat (n : nat) (s : string) : string :=
  match n with
  | O => s
  | S n' => String sep (sep_repeat n' s)
  end.

Definition normpath (path : string) : string :=
  if is_empty path then "."
  else
    let slashes := initial_slashes path in
    let comps := fold_left (normpath_step slashes) (split_sep path) [] in
    let path' := sep_repeat slashes (sep_join comps) in
    if is_empty path' then "." else path'.

(** No slash in [s]: what a component of a split path looks like. *)
Fixpoint sep_free (s : string) : bool :=
  match s with
  | EmptyString => true
  | String c s' => negb (is_sep c) && sep_free s'
  end.

(** [l[-3:]] *)
Definition last_three {A} (l : list A) : list A :=
  drop (length l - 3) l.

(** [posixpath.basename]: what follows the last slash. *)
Definition basename (p : string) : string :=
  match last (split_sep p) with
  | Some b => b
  | None => EmptyString
  end.

(** [p[:p.rfind("/") + 1]]: [p] up to its last slash, that slash
    included; empty when [p] has no slash. *)
Fixpoint upto_last_sep (p : string) : string :=
  match p with
  | EmptyString => EmptyString
  | String c p' =>
      if is_sep c then String c (upto_last_sep p')
      else if is_empty (upto_last_sep p') then EmptyString
      else String c (upto_last_sep p')
  end.

(** [s.rstrip("/")] *)
Fixpoint rstrip_sep (s : string) : string :=
  match s with
  | EmptyString => EmptyString
  | String c s' =>
      if is_sep c && is_empty (rstrip_sep s') then EmptyString
      else String c (rstrip_sep s')
  end.

(** [posixpath.split(p)[0]]:
<<
    head = p[:p.rfind(sep) + 1]
    if head and head != sep*len(head): head = head.rstrip(sep)
>> *)
Definition dirname (p : string) : string :=
  let head := upto_last_sep p in
  if is_empty (rstrip_sep head) then head else rstrip_sep head.

End PosixPath.

(** ** Python values, exceptions and the state-and-exception monad

    Effectful source code is embedded in [M S A]: a computation reads a
    state [S], and gives back the state it leaves behind together with
    either a value or the exception it raised.  A raised exception stops
    the computation; the state reached so far is kept (nothing is rolled
    back), which is what an uncaught Python exception does. *)
Module Py.

Inductive exn : Type :=
  | TypeError
  | KeyError
  | IndexError
  | FileNotFoundError
  | NotADirectoryError
  | IsADirectoryError
  | DirectoryNotEmpty          (* OSError, errno ENOTEMPTY *)
  | InvalidArgument            (* OSError, errno EINVAL *)
  | ValueError
  | SystemExit (status : nat).

Inductive result (A : Type) : Type :=
  | Return (a : A)
  | Raise (e : exn).
Arguments Return {A} a.
Arguments Raise {A} e.

#[global] Instance result_ret : MRet result := @Return.
#[global] Instance result_bind : MBind result := fun A B k r =>
  match r with
  | Return a => k a
  | Raise e => Raise e
  end.

Definition M (S A : Type) : Type := S -> S * result A.

Definition ret {S A} (a : A) : M S A := fun s => (s, Return a).

Definition raise {S A} (e : exn) : M S A := fun s => (s, Raise e).

Definition bind {S A B} (k : A -> M S B) (m : M S A) : M S B :=
  fun s =>
    match m s with
    | (s', Return a) => k a s'
    | (s', Raise e) => (s', Raise e)
    end.

#[global] Instance M_ret {S} : MRet (M S) := @ret S.
#[global] Instance M_bind {S} : MBind (M S) := @bind S.

Definition get {S} : M S S := fun s => (s, Return s).

Definition put {S} (s : S) : M S unit := fun _ => (s, Return tt).

Definition modify {S} (f : S -> S) : M S unit := fun s => (f s, Return tt).

(** A pure fallible step inside a stateful computation. *)
Definition lift {S A} (r : result A) : M S A := fun s => (s, r).

(** [for x in xs: body(x)] *)
Fixpoint for_each {S A} (xs : list A) (body : A -> M S unit) : M S unit :=
  match xs with
  | [] => ret tt
  | x :: rest => body x;; for_each rest body
  end.

(** The values an object array of paths holds: a [str] or [None]. *)
Inductive pyobj : Type :=
  | PyStr (s : string)
  | PyNone.

End Py.


(** ** [evaluation/reconstructed_camera_manipulation_dataset_creator.py] *)
Module Evaluation.
Import Py PosixPath.

(** *** numpy object arrays on a heap

    A numpy array is a mutable object: the embedding keeps arrays in a
    heap and passes references around, so that a caller's array and a copy
    of it are different cells.  An array is its shape and its elements in
    C order, the order in which [np.nditer] visits them. *)
Record ndarray : Type := Ndarray {
  shape : list nat;
  data : list pyobj
}.

Abbreviation loc := nat (only parsing).

Abbreviation heap := (gmap nat ndarray).

(** [arr.copy()]: a fresh array with the same shape and elements. *)
Definition array_copy (l : loc) : M heap loc :=
  fun h =>
    match h !! l with
    | Some a => let l' := fresh (dom h) in (<[l' := a]> h, Return l')
    | None => (h, Raise KeyError)
    end.

Definition array_size (l : loc) : M heap nat :=
  fun h =>
    match h !! l with
    | Some a => (h, Return (length (data a)))
    | None => (h, Raise KeyError)
    end.

(** [current_path.item()] at flat position [i] *)
Definition item (l : loc) (i : nat) : M heap pyobj :=
  fun h =>
    match h !! l with
    | Some a =>
        match data a !! i with
        | Some x => (h, Return x)
        | None => (h, Raise IndexError)
        end
    | None => (h, Raise KeyError)
    end.

(** [current_path[...] = v] at flat position [i] *)
Definition set_item (l : loc) (i : nat) (v : pyobj) : M heap unit :=
  fun h =>
    match h !! l with
    | Some a =>
        if decide (i < length (data a))
        then (<[l := Ndarray (shape a) (<[i := v]> (data a))]> h, Return tt)
        else (h, Raise IndexError)
    | None => (h, Raise KeyError)
    end.

(** The configuration and fields of
    [ReconstructedCameraManipulationDatasetCreator] that the methods below
    read: [config["logging"][...]], [config["evaluation"][...]] and
    [name]. *)
Record creator : Type := Creator {
  reconstructed_dataset_directory : string;
  reconstructed_dataset_path : string;
  name : string
}.

(** [self.output_root], as [__init__] sets it. *)
Definition output_root (self : creator) : string :=
  join (reconstructed_dataset_directory self) [name self].

(** [os.path.join] applied to the unpacked list [path] *)
Definition join_star (path : list string) : result string :=
  match path with
  | a :: p => Return (join a p)
  | [] => Raise TypeError
  end.

(** The body of the loop of [output_paths_from_observations_paths] on one
    element.  [os.path.normpath(None)] raises [TypeError]. *)
Definition translate_path (root : string) (current : pyobj) : result pyobj :=
  match current with
  | PyStr p =>
      let path := last_three (split_sep (normpath p)) in
      match join_star path with
      | Return rel => Return (PyStr (join root [rel]))
      | Raise e => Raise e
      end
  | PyNone => Raise TypeError
  end.

(** One round of the [nditer] loop, at flat position [i] of the array. *)
Definition rewrite_path (root : string) (observations_paths : loc) (i : nat)
    : M heap unit :=
  current_path ← item observations_paths i;
  translated_path ← lift (translate_path root current_path);
  set_item observations_paths i translated_path.

(** [np.nditer(arr, flags=["refs_ok"], ...)]: the flat positions of the
    array, in C order.  Without the flag [zerosize_ok] the iterator
    refuses an array that has no element. *)
Definition nditer (arr : loc) : M heap (list nat) :=
  n ← array_size arr;
  if Nat.eqb n 0 then raise ValueError else mret (seq 0 n).

Definition output_paths_from_observations_paths (self : creator)
    (observations_paths : loc) : M heap loc :=
  observations_paths ← array_copy observations_paths;
  iterator ← nditer observations_paths;
  for_each iterator (rewrite_path (output_root self) observations_paths);;
  mret observations_paths.

(** *** What the derived paths are said to be

    The output root joined with the last three components of the
    normalized path, in one [os.path.join]; and the array of these. *)
Definition derived_path (root p : string) : string :=
  join root (last_three (split_sep (normpath p))).

Definition is_str (o : pyobj) : Prop :=
  match o with
  | PyStr _ => True
  | PyNone => False
  end.

Definition derived (root : string) (o : pyobj) : pyobj :=
  match o with
  | PyStr p => PyStr (derived_path root p)
  | PyNone => PyNone
  end.

(** The loop as a function of the elements: the first element that is
    not a path stops it. *)
Fixpoint translate_all (root : string) (d : list pyobj) : result (list pyobj) :=
  match d with
  | [] => Return []
  | o :: d' =>
      v ← translate_path root o;
      vs ← translate_all root d';
      Return (v :: vs)
  end.

(** *** [make_folders_for_output]

    The method reads the file system through [os.path.isdir] and changes
    it through [Path.mkdir(exist_ok=True, parents=True)].  Both are kept
    abstract: the file system is any state [FS] with these two calls, and
    what is embedded is which directory the method asks for, for each
    element of the array, and where it stops. *)
Section FileSystem.
Context {FS : Type}.

(** [os.path.isdir(p)] in a state of the file system. *)
Variable isdir : string -> FS -> bool.

(** [Path(p).mkdir(exist_ok=True, parents=True)] *)
Variable mkdir : string -> M FS unit.

(** [os.path.normpath(p).split(os.sep)[:-1]] *)
Definition parent_components (p : string) : list string :=
  removelast (split_sep (normpath p)).

(** The directory asked for: the path itself when it is a directory,
    and otherwise the join of the components of its normal form, the
    last one left out. *)
Definition directory_of (current_path : string) : M FS string :=
  fun fs =>
    let directory_path := current_path in
    if isdir directory_path fs then (fs, Return directory_path)
    else (fs, join_star (parent_components current_path)).

(** The body of the loop; [os.path.isdir(None)] raises [TypeError]. *)
Definition make_folder (current_path : pyobj) : M FS unit :=
  match current_path with
  | PyStr p =>
      directory_path ← directory_of p;
      mkdir directory_path
  | PyNone => raise TypeError
  end.

(** [np.nditer] without the flag [zerosize_ok] refuses an array that has
    no element. *)
Definition make_folders_for_output (paths : ndarray) : M FS unit :=
  if is_nil (data paths) then raise ValueError
  else for_each (data paths) make_folder.

End FileSystem.

(** *** Tensors with a batch and an observation dimension

    A tensor of shape [(bs, observations_count, ...)]: [items] has [bs]
    rows of [observations_count] cells each, a cell standing for the
    remaining dimensions. *)
Record tensor (A : Type) : Type := Tensor {
  size0 : nat;
  size1 : nat;
  items : list (list A)
}.
Arguments Tensor {A} size0 size1 items.
Arguments size0 {A} t.
Arguments size1 {A} t.
Arguments items {A} t.

Definition tensor_wf {A} (t : tensor A) : Prop :=
  length (items t) = size0 t /\ Forall (fun row => length row = size1 t) (items t).

(** [tensor[:, :1]] *)
Definition first_slice {A} (t : tensor A) : tensor A :=
  Tensor (size0 t) (Nat.min 1 (size1 t)) (map (take 1) (items t)).

(** [tensor.repeat([1, n, 1, ...])] *)
Definition repeat_dim1 {A} (n : nat) (t : tensor A) : tensor A :=
  Tensor (size0 t) (size1 t * n)
         (map (fun row => concat (replicate n row)) (items t)).

Definition use_first_observation {A} (t : tensor A) : tensor A :=
  let observations_count := size1 t in
  let t := first_slice t in
  repeat_dim1 observations_count t.

(** *** The reconstruction driver

    What the driver does to the outside world (logger, model, image
    helper, subprocess) is recorded as a trace of events, in the order of
    the calls; the call of [make_folders_for_output] is recorded too, and
    the method then runs on the file system, the third component of the
    world, with [os.path.isdir] and [Path.mkdir] abstract as above.  The
    model, the tuple a batch unpacks to and the rendered frames are
    opaque; the model may raise, the logger, the image helper and
    [subprocess.run] are taken to return. *)
Section Driver.
Context {inputs rendered cell FS : Type}.

Variable isdir : string -> FS -> bool.

Variable mkdir : string -> M FS unit.

(** A batch of the dataloader: [batch.to_tuple()] and
    [batch.observations_paths]. *)
Record batch : Type := Batch {
  to_tuple : inputs;
  observations_paths : loc
}.

(** The model: calling it in mode ["observations_scene_encoding_only"]
    gives the scene encoding, a [dict] of tensors;
    [render_full_frame_from_scene_encoding] is the method of
    [model.module].  Either may raise. *)
Record model_t : Type := Model {
  call : inputs -> result (gmap string (tensor cell));
  render_full_frame_from_scene_encoding :
    inputs -> tensor cell -> tensor cell -> tensor cell -> tensor cell ->
    tensor cell -> result rendered
}.

Inductive event : Type :=
  | LogReconstructing (name : string)
  | LogBatch (batch_idx batches_count : nat)
  | Inference (batch_idx : nat)
  | RenderFullFrame (batch_idx : nat)
  | MakeFolders (paths : ndarray)
  | SaveReconstructedImages (render_results : rendered) (paths : ndarray)
  | LogSyncing (name : string)
  | SubprocessRun (args : list string)
  | LogDone (name : string).

Record world : Type := World {
  w_heap : heap;
  w_trace : list event;
  w_disk : FS
}.

Definition emit (e : event) : M world unit :=
  modify (fun w => World (w_heap w) (w_trace w ++ [e]) (w_disk w)).

(** A computation on arrays run inside the world. *)
Definition on_heap {A} (m : M heap A) : M world A :=
  fun w =>
    match m (w_heap w) with
    | (h', r) => (World h' (w_trace w) (w_disk w), r)
    end.

(** A computation on the file system run inside the world. *)
Definition on_disk {A} (m : M FS A) : M world A :=
  fun w =>
    match m (w_disk w) with
    | (fs', r) => (World (w_heap w) (w_trace w) fs', r)
    end.

Definition array_value (l : loc) : M heap ndarray :=
  fun h =>
    match h !! l with
    | Some a => (h, Return a)
    | None => (h, Raise KeyError)
    end.

(** [d[key]] *)
Definition getitem (d : gmap string (tensor cell)) (key : string)
    : result (tensor cell) :=
  match d !! key with
  | Some t => Return t
  | None => Raise KeyError
  end.

Definition repeat_keys : list string :=
  ["object_rotation_parameters"; "object_translation_parameters";
   "object_style"; "object_deformation"].

(** [for key in repeat_keys:
       scene_encoding[key] = self.use_first_observation(scene_encoding[key])] *)
Fixpoint use_first_observation_keys (keys : list string)
    (scene_encoding : gmap string (tensor cell))
    : result (gmap string (tensor cell)) :=
  match keys with
  | [] => Return scene_encoding
  | key :: keys' =>
      t ← getitem scene_encoding key;
      use_first_observation_keys keys'
        (<[key := use_first_observation t]> scene_encoding)
  end.

(** The body of the loop over the dataloader. *)
Definition reconstruct_batch (self : creator) (model : model_t)
    (batches_count batch_idx : nat) (b : batch) : M world unit :=
  emit (LogBatch batch_idx batches_count);;
  emit (Inference batch_idx);;
  scene_encoding ← lift (call model (to_tuple b));
  scene_encoding ← lift (use_first_observation_keys repeat_keys scene_encoding);
  object_rotation_parameters ←
    lift (getitem scene_encoding "object_rotation_parameters");
  object_translation_parameters ←
    lift (getitem scene_encoding "object_translation_parameters");
  object_style ← lift (getitem scene_encoding "object_style");
  object_deformation ← lift (getitem scene_encoding "object_deformation");
  object_in_scene ← lift (getitem scene_encoding "object_in_scene");
  emit (RenderFullFrame batch_idx);;
  render_results ←
    lift (render_full_frame_from_scene_encoding model (to_tuple b)
            object_rotation_parameters object_translation_parameters
            object_style object_deformation object_in_scene);
  output_paths ←
    on_heap (output_paths_from_observations_paths self (observations_paths b));
  paths ← on_heap (array_value output_paths);
  emit (MakeFolders paths);;
  on_disk (make_folders_for_output isdir mkdir paths);;
  emit (SaveReconstructedImages render_results paths).

(** [enumerate(self.dataloader)] *)
Definition enumerate {A} (l : list A) : list (nat * A) :=
  zip (seq 0 (length l)) l.

Definition rsync_args (self : creator) : list string :=
  let original_dataset_directory :=
    join (reconstructed_dataset_path self) [name self] +:+ "/" in
  ["rsync"; "-a"; "--ignore-times"; "--exclude"; "*.png";
   original_dataset_directory; output_root self].

Definition reconstruct_dataset (self : creator) (dataloader : list batch)
    (model : model_t) : M world unit :=
  emit (LogReconstructing (name self));;
  let batches_count := length dataloader in
  for_each (enumerate dataloader) (fun '(batch_idx, b) =>
    reconstruct_batch self model batches_count batch_idx b);;
  emit (LogSyncing (name self));;
  emit (SubprocessRun (rsync_args self));;
  emit (LogDone (name self)).

(** *** What a normal run is said to leave in the trace *)

(** The events of one batch, given what was rendered and the output
    paths computed for it. *)
Definition batch_events (batches_count batch_idx : nat)
    (out : rendered * ndarray) : list event :=
  [LogBatch batch_idx batches_count;
   Inference batch_idx;
   RenderFullFrame batch_idx;
   MakeFolders (snd out);
   SaveReconstructedImages (fst out) (snd out)].

Definition is_subprocess_run (e : event) : bool :=
  match e with
  | SubprocessRun _ => true
  | _ => false
  end.

(** The model does not raise on a batch: inference gives a scene
    encoding with the keys the driver reads, and rendering succeeds. *)
Definition model_succeeds (model : model_t) (b : batch) : Prop :=
  exists enc : gmap string (tensor cell),
    call model (to_tuple b) = Return enc
    /\ Forall (fun key => is_Some (enc !! key))
              ("object_in_scene" :: repeat_keys)
    /\ forall t1 t2 t3 t4 t5 : tensor cell,
         exists r : rendered,
           render_full_frame_from_scene_encoding model (to_tuple b)
             t1 t2 t3 t4 t5 = Return r.

(** The paths of a batch are an array in the heap that has an element,
    and whose elements are strings. *)
Definition paths_stored (h : heap) (b : batch) : Prop :=
  exists a : ndarray,
    h !! observations_paths b = Some a
    /\ data a <> [] /\ Forall is_str (data a).

(** There is a folder to make for every output path of a batch: the
    normal form of the path has a directory part. *)
Definition paths_in_folders (self : creator) (h : heap) (b : batch) : Prop :=
  forall (a : ndarray) (p : string),
    h !! observations_paths b = Some a -> PyStr p ∈ data a ->
    parent_components (derived_path (output_root self) p) <> [].

(** The file system refuses no [mkdir]. *)
Definition mkdir_returns : Prop :=
  forall (p : string) (fs : FS), snd (mkdir p fs) = Return tt.

End Driver.

Arguments batch : clear implicits.
Arguments model_t : clear implicits.
Arguments event : clear implicits.
Arguments world : clear implicits.

End Evaluation.

(** ** [dataset/acquisition/utils/remove_camera_folder.py]: the function *)
Module CameraFolder.
Import Py PosixPath.

(** *** The file system under [path]

    The state is the content of the directory that the argument [path]
    names: a finite map from entry names to nodes, a node being a file or
    a directory with its own entries.  How the operating system resolves
    the string [path] itself is not modelled, nor are links and
    permissions; the strings the function builds from [path] are resolved
    by [locate] below.  The content of [path] is all the state there is:
    what [glob] finds is given for a [path] that [glob] reads literally,
    one in which [has_magic] below finds no wildcard character. *)
#[warnings="-register-all"]
Inductive node : Type :=
  | File (content : string)
  | Dir (children : gmap string node).

Abbreviation listing := (gmap string node).

Definition camera_folder_name : string := "00000".

(** Where a path string built by the function points: an entry of
    [path], or an entry of its camera folder. *)
Inductive location : Type :=
  | InPath (entry : string)
  | InCameraFolder (entry : string).

#[global] Instance location_eq_dec : EqDecision location.
Proof. solve_decision. Defined.

(** A name a directory entry can have. *)
Definition is_entry_name (n : string) : bool :=
  negb (is_empty n) && negb (String.eqb n ".") && negb (String.eqb n "..")
  && sep_free n.

(** A string of the form [join(camera_folder_path, n)] names entry [n] of
    the camera folder; one of the form [join(path, n)] names entry [n] of
    [path]. *)
Definition locate (path s : string) : option location :=
  let n := basename s in
  if negb (is_entry_name n) then None
  else if String.eqb s (join (join path [camera_folder_name]) [n])
  then Some (InCameraFolder n)
  else if String.eqb s (join path [n]) then Some (InPath n)
  else None.

Definition camera_children (fs : listing) : option (gmap string node) :=
  match fs !! camera_folder_name with
  | Some (Dir children) => Some children
  | _ => None
  end.

Definition lookup_location (fs : listing) (l : location) : option node :=
  match l with
  | InPath n => fs !! n
  | InCameraFolder n => camera_children fs ≫= (fun ch => ch !! n)
  end.

(** Puts a node at a location, and removes what is at a location; a
    location in a camera folder that is not there is left alone. *)
Definition put_location (l : location) (n : node) (fs : listing) : listing :=
  match l with
  | InPath e => <[e := n]> fs
  | InCameraFolder e =>
      match camera_children fs with
      | Some ch => <[camera_folder_name := Dir (<[e := n]> ch)]> fs
      | None => fs
      end
  end.

Definition remove_location (l : location) (fs : listing) : listing :=
  match l with
  | InPath e => delete e fs
  | InCameraFolder e =>
      match camera_children fs with
      | Some ch => <[camera_folder_name := Dir (delete e ch)]> fs
      | None => fs
      end
  end.

(** [glob._ishidden] *)
Definition ishidden (n : string) : bool :=
  match n with
  | String c _ => Ascii.eqb c "."
  | EmptyString => false
  end.

(** [glob.has_magic]: [magic_check = re.compile('([*?[])')] finds one of
    the three characters in the string. *)
Definition is_magic (c : ascii) : bool :=
  Ascii.eqb c "*" || Ascii.eqb c "?" || Ascii.eqb c "[".

Fixpoint has_magic (s : string) : bool :=
  match s with
  | EmptyString => false
  | String c s' => is_magic c || has_magic s'
  end.

(** The names [glob] keeps for the pattern ["*"]: those that do not
    start with a dot.  The order is the one the directory is listed
    in. *)
Definition visible_names (ch : gmap string node) : list string :=
  filter (fun n => ishidden n = false) (map fst (map_to_list ch)).

(** The paths [glob.glob(os.path.join(directory, "*"))] gives for a
    [directory] without wildcard characters whose entries are [names]:
    [glob] splits the pattern into [dirname] and ["*"], and joins
    [dirname] with every name that matches. *)
Definition glob_paths (directory : string) (names : list string)
    : list string :=
  let pathname := join directory ["*"] in
  let dirname := dirname pathname in
  map (fun name => join dirname [name]) names.

(** [glob.glob(os.path.join(camera_folder_path, "*"))]: the entries of the
    camera folder whose name does not start with a dot; no result when
    the folder is not a directory. *)
Definition glob_star (camera_folder_path : string) : M listing (list string) :=
  fun fs =>
    match camera_children fs with
    | Some ch => (fs, Return (glob_paths camera_folder_path (visible_names ch)))
    | None => (fs, Return [])
    end.

(** What [rename(2)] does when the destination exists. *)
Definition replace_check (src : node) (dst : option node) : result unit :=
  match src, dst with
  | _, None => Return tt
  | File _, Some (File _) => Return tt
  | File _, Some (Dir _) => Raise IsADirectoryError
  | Dir _, Some (File _) => Raise NotADirectoryError
  | Dir _, Some (Dir ch) =>
      if decide (ch = ∅) then Return tt else Raise DirectoryNotEmpty
  end.

(** A path through the camera folder needs that folder to be a
    directory: [ENOENT] when it is missing, [ENOTDIR] when it is a file. *)
Definition parent_check (fs : listing) (l : location) : result unit :=
  match l with
  | InPath _ => Return tt
  | InCameraFolder _ =>
      match fs !! camera_folder_name with
      | Some (Dir _) => Return tt
      | Some (File _) => Raise NotADirectoryError
      | None => Raise FileNotFoundError
      end
  end.

(** The outcome of [rename(2)] from [s] to [d], before anything moves.
    A directory cannot be moved into itself ([EINVAL]), and nothing can
    replace the directory it is in ([ENOTEMPTY]). *)
Definition rename_check (fs : listing) (s d : location) : result node :=
  parent_check fs s;;
  parent_check fs d;;
  match lookup_location fs s with
  | None => Raise FileNotFoundError
  | Some n =>
      match s, d with
      | InPath _, InCameraFolder _ =>
          if decide (s = InPath camera_folder_name) then Raise InvalidArgument
          else replace_check n (lookup_location fs d);; Return n
      | InCameraFolder _, InPath _ =>
          if decide (d = InPath camera_folder_name) then Raise DirectoryNotEmpty
          else replace_check n (lookup_location fs d);; Return n
      | _, _ => replace_check n (lookup_location fs d);; Return n
      end
  end.

(** [os.rename(src, dst)] on POSIX. *)
Definition os_rename (path src dst : string) : M listing unit :=
  fun fs =>
    match locate path src, locate path dst with
    | Some s, Some d =>
        if decide (s = d) then
          (* the same file: nothing to do once it is known to exist *)
          match parent_check fs s, lookup_location fs s with
          | Return _, Some _ => (fs, Return tt)
          | Return _, None => (fs, Raise FileNotFoundError)
          | Raise e, _ => (fs, Raise e)
          end
        else
          match rename_check fs s d with
          | Return n =>
              (put_location d n (remove_location s fs), Return tt)
          | Raise e => (fs, Raise e)
          end
    | _, _ => (fs, Raise FileNotFoundError)
    end.

(** [shutil.rmtree(p)] *)
Definition shutil_rmtree (path p : string) : M listing unit :=
  fun fs =>
    match locate path p with
    | Some l =>
        match lookup_location fs l with
        | Some (Dir _) => (remove_location l fs, Return tt)
        | Some (File _) => (fs, Raise NotADirectoryError)
        | None => (fs, Raise FileNotFoundError)
        end
    | None => (fs, Raise FileNotFoundError)
    end.

(** The body of the loop over the files found. *)
Definition move_out (path current_file : string) : M listing unit :=
  let basename := basename current_file in
  let new_location := join path [basename] in
  os_rename path current_file new_location.

Definition remove_camera_folder (path : string) : M listing unit :=
  let camera_folder_path := join path [camera_folder_name] in
  all_files ← glob_star camera_folder_path;
  for_each all_files (move_out path);;
  shutil_rmtree path camera_folder_path.

(** *** What the flattening is said to do

    Every entry of the camera folder is found in [path] under its own
    name after the call, and the camera folder is gone. *)
Definition flattened (path : string) (fs : listing) : Prop :=
  forall (children : gmap string node) (n : string) (f : node),
    camera_children fs = Some children ->
    children !! n = Some f ->
    fst (remove_camera_folder path fs) !! n = Some f
    /\ fst (remove_camera_folder path fs) !! camera_folder_name = None.

(** The entries of the camera folder have names a file system allows. *)
Definition camera_names_valid (fs : listing) : Prop :=
  forall (children : gmap string node) (n : string),
    camera_children fs = Some children ->
    is_Some (children !! n) -> is_entry_name n = true.

(** No entry of the camera folder that [glob] finds is in the way of an
    entry of [path]: for each, [rename] may replace what is there. *)
Definition no_conflict (fs : listing) : Prop :=
  forall (children : gmap string node) (n : string) (f : node),
    camera_children fs = Some children ->
    children !! n = Some f -> ishidden n = false ->
    replace_check f (fs !! n) = Return tt.

End CameraFolder.

(** ** [remove_camera_folder.py]: the command line of the script

    [argparse] as the script configures it:
<<
    parser = argparse.ArgumentParser()
    parser.add_argument("--directory", type=str, required=True)
    arguments = parser.parse_args()
>>
    The definitions transcribe [ArgumentParser._parse_optional],
    [_get_option_tuples], [_parse_known_args], [_get_values] and
    [parse_args] of CPython 3.11 for a parser without positional
    arguments.  An argument string is a [str] of characters below U+0100,
    each [ascii] standing for the character with that code point;
    [parser.error] and the help action leave through [SystemExit], with
    status 2 and 0. *)
Module ArgParse.
Import Py.

(** The actions registered in the parser: the help action that
    [ArgumentParser()] adds by itself ([add_help=True]), and the store
    action of [--directory]. *)
Inductive action : Type :=
  | Help
  | StoreDirectory.

(** [parser._option_string_actions] *)
Definition option_string_actions : list (string * action) :=
  [("-h", Help); ("--help", Help); ("--directory", StoreDirectory)].

Definition find_option (s : string) : option action :=
  snd <$> List.find (fun p => String.eqb (fst p) s) option_string_actions.

(** [action.nargs]: [0] for help, [None] (exactly one) for a store. *)
Definition nargs (a : action) : nat :=
  match a with
  | Help => 0
  | StoreDirectory => 1
  end.

Definition required (a : action) : bool :=
  match a with
  | Help => false
  | StoreDirectory => true
  end.

Definition is_prefix_char (c : ascii) : bool := Ascii.eqb c "-".

(** [s.split("=", 1)], [None] when ["="] is not in [s]. *)
Fixpoint split_eq (s : string) : option (string * string) :=
  match s with
  | EmptyString => None
  | String c s' =>
      if Ascii.eqb c "=" then Some (EmptyString, s')
      else match split_eq s' with
           | Some (a, b) => Some (String c a, b)
           | None => None
           end
  end.

(** An option tuple: the action ([None] for an unknown option), the
    option string and the explicit argument. *)
Definition option_tuple : Type := option action * string * option string.

Definition get_option_tuples (option_string : string)
    : result (list option_tuple) :=
  match option_string with
  | String c0 (String c1 tail) =>
      if is_prefix_char c0 && is_prefix_char c1 then
        let '(option_prefix, explicit_arg) :=
          match split_eq option_string with
          | Some (p, e) => (p, Some e)
          | None => (option_string, None)
          end in
        Return (flat_map (fun '(os, a) =>
                  if String.prefix option_prefix os
                  then [(Some a, os, explicit_arg)] else [])
                option_string_actions)
      else if is_prefix_char c0 then
        let short_option_prefix := String c0 (String c1 EmptyString) in
        let short_explicit_arg := tail in
        Return (flat_map (fun '(os, a) =>
                  if String.eqb os short_option_prefix
                  then [(Some a, os, Some short_explicit_arg)]
                  else if String.prefix option_string os
                  then [(Some a, os, None)] else [])
                option_string_actions)
      else Raise (SystemExit 2)
  | _ => Raise IndexError
  end.

Definition is_digit (c : ascii) : bool :=
  (Nat.leb 48 (nat_of_ascii c) && Nat.leb (nat_of_ascii c) 57)%bool.

Fixpoint all_digits (s : string) : bool :=
  match s with
  | EmptyString => true
  | String c s' => is_digit c && all_digits s'
  end.

(** Does [s] match [\d*\.\d+]? *)
Fixpoint fraction (s : string) : bool :=
  match s with
  | EmptyString => false
  | String c s' =>
      if Ascii.eqb c "." then negb (String.eqb s' "") && all_digits s'
      else is_digit c && fraction s'
  end.

(** Drops a final newline, before which [$] also matches. *)
Fixpoint chomp (s : string) : string :=
  match s with
  | EmptyString => EmptyString
  | String c EmptyString => if Ascii.eqb c "010" then EmptyString else s
  | String c s' => String c (chomp s')
  end.

(** [parser._negative_number_matcher.match(s)]:
    [^-\d+$|^-\d*\.\d+$]; of the characters below U+0100, [\d] matches
    the ten digits of ASCII. *)
Definition negative_number (s : string) : bool :=
  match s with
  | String c body =>
      is_prefix_char c &&
      let number b := (negb (String.eqb b "") && all_digits b) || fraction b in
      (number body || number (chomp body))
  | EmptyString => false
  end.

Fixpoint has_space (s : string) : bool :=
  match s with
  | EmptyString => false
  | String c s' => Ascii.eqb c " " || has_space s'
  end.

(** [parser._parse_optional(arg_string)]: [None] for a positional
    argument, an option tuple otherwise; an ambiguous abbreviation is a
    parser error. *)
Definition parse_optional (arg_string : string) : result (option option_tuple) :=
  match arg_string with
  | EmptyString => Return None
  | String c0 rest =>
      if negb (is_prefix_char c0) then Return None
      else match find_option arg_string with
      | Some a => Return (Some (Some a, arg_string, None))
      | None =>
          if String.eqb rest "" then Return None
          else
            let by_equals :=
              match split_eq arg_string with
              | Some (option_string, explicit_arg) =>
                  match find_option option_string with
                  | Some a => Some (Some a, option_string, Some explicit_arg)
                  | None => None
                  end
              | None => None
              end in
            match by_equals with
            | Some t => Return (Some t)
            | None =>
                option_tuples ← get_option_tuples arg_string;
                match option_tuples with
                | _ :: _ :: _ => Raise (SystemExit 2)
                | [t] => Return (Some t)
                | [] =>
                    if negative_number arg_string then Return None
                    else if has_space arg_string then Return None
                    else Return (Some (None, arg_string, None))
                end
            end
      end
  end.

(** One letter of [arg_strings_pattern], with the option tuple found. *)
Inductive pattern : Type :=
  | A
  | O (t : option_tuple)
  | Dashes.

(** The first loop of [_parse_known_args]: everything after ["--"] is an
    argument. *)
Fixpoint scan (arg_strings : list string) : result (list (string * pattern)) :=
  match arg_strings with
  | [] => Return []
  | arg_string :: rest =>
      if String.eqb arg_string "--"
      then Return ((arg_string, Dashes) :: map (fun a => (a, A)) rest)
      else
        t ← parse_optional arg_string;
        r ← scan rest;
        Return ((arg_string, match t with Some t => O t | None => A end) :: r)
  end.

(** The [while True] loop of [consume_optional] as long as an explicit
    argument is left: the tuples collected, and the action that is still
    to match the following arguments, if any. *)
Fixpoint explicit_chain (a : action) (option_string explicit_arg : string)
    (action_tuples : list (action * list string))
    : result (list (action * list string) * option action) :=
  let single_dash :=
    match option_string with
    | String _ (String c1 _) => negb (is_prefix_char c1)
    | _ => false
    end in
  match nargs a with
  | 0 =>
      if single_dash then
        match explicit_arg with
        | String c new_explicit_arg =>
            let action_tuples := action_tuples ++ [(a, [])] in
            let option_string' := String "-" (String c EmptyString) in
            match find_option option_string' with
            | Some a' =>
                match new_explicit_arg with
                | EmptyString => Return (action_tuples, Some a')
                | _ => explicit_chain a' option_string' new_explicit_arg
                         action_tuples
                end
            | None => Raise (SystemExit 2)
            end
        | EmptyString => Raise (SystemExit 2)
        end
      else Raise (SystemExit 2)
  | 1 => Return (action_tuples ++ [(a, [explicit_arg])], None)
  | _ => Raise (SystemExit 2)
  end.

(** What the store action puts into [arguments.directory]: the argument
    string, or a list when [_get_values] is left with another number of
    argument strings than one. *)
Inductive value : Type :=
  | Str (s : string)
  | Strs (l : list string).

(** [arg_strings.remove('--')], when ['--'] is among them. *)
Fixpoint remove_dashes (arg_strings : list string) : list string :=
  match arg_strings with
  | [] => []
  | arg_string :: rest =>
      if String.eqb arg_string "--" then rest
      else arg_string :: remove_dashes rest
  end.

(** [parser._get_values(action, arg_strings)] for the store action of
    [--directory], whose [nargs] is [None] and whose [type] is [str]: the
    first ['--'] is stripped, a single argument string is the value, and
    anything else is given as a list. *)
Definition get_values (arg_strings : list string) : value :=
  match remove_dashes arg_strings with
  | [arg_string] => Str arg_string
  | arg_strings => Strs arg_strings
  end.

(** [take_action] on the tuples in order; the namespace is the value of
    [directory], [None] while the store action has not been seen. *)
Fixpoint take_actions (action_tuples : list (action * list string))
    (namespace : option value) : result (option value) :=
  match action_tuples with
  | [] => Return namespace
  | (Help, _) :: _ => Raise (SystemExit 0)
  | (StoreDirectory, arg_strings) :: rest =>
      take_actions rest (Some (get_values arg_strings))
  end.

(** The main loop of [_parse_known_args]: options are consumed in order,
    every other string goes to [extras].  An option that takes a value
    and has no explicit argument needs the next string to be an argument
    (the pattern of an optional action is [(A)], without the ['--']). *)
Fixpoint consume (tokens : list (string * pattern)) (namespace : option value)
    (extras : list string) : result (option value * list string) :=
  match tokens with
  | [] => Return (namespace, extras)
  | (arg_string, A) :: rest | (arg_string, Dashes) :: rest
  | (arg_string, O (None, _, _)) :: rest =>
      consume rest namespace (extras ++ [arg_string])
  | (_, O (Some a, option_string, explicit_arg)) :: rest =>
      let chain :=
        match explicit_arg with
        | Some e => explicit_chain a option_string e []
        | None => Return ([], Some a)
        end in
      match chain with
      | Raise e => Raise e
      | Return (action_tuples, None) =>
          match take_actions action_tuples namespace with
          | Return namespace' => consume rest namespace' extras
          | Raise e => Raise e
          end
      | Return (action_tuples, Some last) =>
          match nargs last with
          | 0 =>
              match take_actions (action_tuples ++ [(last, [])]) namespace with
              | Return namespace' => consume rest namespace' extras
              | Raise e => Raise e
              end
          | _ =>
              match rest with
              | (v, A) :: rest' =>
                  match take_actions (action_tuples ++ [(last, [v])]) namespace with
                  | Return namespace' => consume rest' namespace' extras
                  | Raise e => Raise e
                  end
              | _ => Raise (SystemExit 2)
              end
          end
      end
  end.

(** [parser.parse_args(args)], giving the value of [arguments.directory]. *)
Definition parse_args (args : list string) : result value :=
  tokens ← scan args;
  '(namespace, extras) ← consume tokens None [];
  match namespace with
  | None => Raise (SystemExit 2)       (* the following arguments are required *)
  | Some directory =>
      match extras with
      | [] => Return directory
      | _ :: _ => Raise (SystemExit 2) (* unrecognized arguments *)
      end
  end.

(** [root_directory], as the script computes it from [sys.argv[1:]]. *)
Definition root_directory (argv : list string) : result value :=
  parse_args argv.

(** *** What is said of the command line *)

Definition action_eqb (a b : action) : bool :=
  match a, b with
  | Help, Help | StoreDirectory, StoreDirectory => true
  | _, _ => false
  end.

(** [arg_string] is read as the option of action [a]: in full,
    abbreviated, or with an explicit [=value]. *)
Definition selects (a : action) (arg_string : string) : bool :=
  match parse_optional arg_string with
  | Return (Some (Some a', _, _)) => action_eqb a a'
  | _ => false
  end.

(** The command line gives no [--directory]. *)
Definition without_directory (argv : list string) : Prop :=
  Forall (fun arg => selects StoreDirectory arg = false) argv.

(** The claim at one command line: without [--directory], parsing fails,
    that is, ends in a parser error (exit status 2). *)
Definition fails_without_directory (argv : list string) : Prop :=
  without_directory argv -> parse_args argv = Raise (SystemExit 2).

End ArgParse.

(** ** [model/layers/adain.py]

    Tensors of shape [(batch_size, features)] are lists of rows.  The
    scalars are any type with the ring operations the layers use, so that
    the same definitions run on integers and are reasoned about on real
    numbers.  On tensors of the documented shapes the elementwise
    operations are pointwise; broadcasting is not modelled. *)
Module AdaInLayer.
Import Py.

Class Scalar (A : Type) : Type := {
  s_zero : A;
  s_one : A;
  s_add : A -> A -> A;
  s_mul : A -> A -> A
}.

Section Layers.
Context {A : Type} `{Scalar A}.

Definition has_shape (rows cols : nat) (m : list (list A)) : Prop :=
  length m = rows /\ Forall (fun row => length row = cols) m.

(** The entry at row [i] and column [j]. *)
Definition cell (m : list (list A)) (i j : nat) : option A :=
  m !! i ≫= (fun row => row !! j).

(** [nn.Linear]: [weight] has [out_features] rows of [in_features]
    entries, [bias] has [out_features] entries. *)
Record linear : Type := Linear {
  weight : list (list A);
  bias : list A
}.

Definition out_features (l : linear) : nat := length (bias l).

Definition dot (u v : list A) : A := foldr s_add s_zero (zip_with s_mul u v).

(** [F.linear(x, weight, bias)]: every row [r] of [x] becomes
    [r @ weight.T + bias]. *)
Definition linear_forward (l : linear) (x : list (list A)) : list (list A) :=
  map (fun row => zip_with s_add (map (dot row) (weight l)) (bias l)) x.

(** [t[:n] = v] on a vector *)
Definition fill_to (n : nat) (v : A) (t : list A) : list A :=
  replicate (Nat.min n (length t)) v ++ drop n t.

(** [t[n:] = v] on a vector *)
Definition fill_from (n : nat) (v : A) (t : list A) : list A :=
  take n t ++ replicate (length t - n) v.

(** [AdaIn]: its [nn.BatchNorm1d(in_features, affine=False)], a function
    of the batch that may raise. *)
Record AdaIn : Type := MkAdaIn {
  normalization : list (list A) -> result (list (list A))
}.

Record AffineTransformAdaIn : Type := MkAffineTransformAdaIn {
  style_features_count : nat;
  affine_transform : linear;
  ada_in : AdaIn
}.

(** [AffineTransformAdaIn.__init__]; [fresh] is
    [nn.Linear(style_features_count, 2 * in_features)] as torch
    initialises it, [batch_norm] the normalization of the new [AdaIn]. *)
Definition AffineTransformAdaIn_init (in_features style_features : nat)
    (fresh : linear)
    (batch_norm : list (list A) -> result (list (list A)))
    : AffineTransformAdaIn :=
  let b := fill_to in_features s_one (bias fresh) in
  let b := fill_from in_features s_zero b in
  MkAffineTransformAdaIn style_features (Linear (weight fresh) b)
    (MkAdaIn batch_norm).

(** [a * b] and [a + b] on two tensors of one shape *)
Definition pointwise (op : A -> A -> A) (a b : list (list A))
    : list (list A) :=
  zip_with (zip_with op) a b.

(** [t.chunk(chunks, 1)] for a tensor with [dim_size] columns, as ATen
    computes it: pieces of [ceil(dim_size / chunks)] columns, and
    [chunks] empty pieces when there is no column. *)
Definition chunk (chunks dim_size : nat) (t : list (list A))
    : list (list (list A)) :=
  let split_size := (dim_size + chunks - 1) / chunks in
  if Nat.eqb split_size 0 && Nat.eqb dim_size 0
  then replicate chunks (map (fun _ => []) t)
  else
    let pieces := Nat.max ((dim_size + split_size - 1) / split_size) 1 in
    map (fun k => map (fun row => take split_size (drop (k * split_size) row)) t)
        (seq 0 pieces).

(** [scale, bias = ...]: unpacking needs exactly two values. *)
Definition unpack2 {X} (l : list X) : result (X * X) :=
  match l with
  | [a; b] => Return (a, b)
  | _ => Raise ValueError
  end.

Definition AdaIn_forward (self : AdaIn) (input scale bias : list (list A))
    : result (list (list A)) :=
  result ← normalization self input;
  let result := pointwise s_add (pointwise s_mul result scale) bias in
  Return result.

Definition AffineTransformAdaIn_forward (self : AffineTransformAdaIn)
    (input style : list (list A)) : result (list (list A)) :=
  let encoded_style := linear_forward (affine_transform self) style in
  '(scale, bias) ←
    unpack2 (chunk 2 (out_features (affine_transform self)) encoded_style);
  AdaIn_forward (ada_in self) input scale bias.

(** The reading of the layer in which the normalization comes last:
    batch normalization applied to the activations after their
    style-conditioned affine transformation. *)
Definition normalization_after_affine (self : AffineTransformAdaIn)
    (input style : list (list A)) : result (list (list A)) :=
  let encoded_style := linear_forward (affine_transform self) style in
  '(scale, bias) ←
    unpack2 (chunk 2 (out_features (affine_transform self)) encoded_style);
  normalization (ada_in self) (pointwise s_add (pointwise s_mul input scale) bias).

End Layers.

Arguments linear : clear implicits.
Arguments AdaIn : clear implicits.
Arguments AffineTransformAdaIn : clear implicits.

#[global] Instance Z_scalar : Scalar Z :=
  {| s_zero := 0%Z; s_one := 1%Z; s_add := Z.add; s_mul := Z.mul |}.

#[global] Instance R_scalar : Scalar R :=
  {| s_zero := 0%R; s_one := 1%R; s_add := Rplus; s_mul := Rmult |}.

(** *** [nn.BatchNorm1d(affine=False)] in training mode, on real numbers

    Every feature is centred on its batch mean and divided by the square
    root of its biased batch variance plus [eps]; a batch of fewer than
    two rows is refused. *)
Section BatchNorm.
Local Open Scope R_scope.

Definition eps : R := 1 / 100000.

Definition column (j : nat) (x : list (list R)) : list R :=
  map (fun row => nth j row 0) x.

Definition rsum (l : list R) : R := foldr Rplus 0 l.

Definition mean (l : list R) : R := rsum l / INR (length l).

Definition variance (l : list R) : R :=
  mean (map (fun v => (v - mean l) * (v - mean l)) l).

Definition batch_norm1d (x : list (list R)) : result (list (list R)) :=
  if Nat.leb (length x) 1 then Raise ValueError
  else
    Return (map (fun row =>
              imap (fun j v =>
                (v - mean (column j x)) / sqrt (variance (column j x) + eps))
                row) x).

End BatchNorm.

End AdaInLayer.

(** ** Paths in normal form

    What [os.path.normpath] gives for the paths the evaluation code works
    on: some slashes followed by names. *)
Module Folders.
Import Py PosixPath Evaluation.

(** A path in normal form: components that are names, joined by single
    slashes. *)
Definition is_name (c : string) : bool :=
  negb (is_empty c) && negb (String.eqb c ".") && negb (String.eqb c "..")
  && sep_free c.

Definition names (comps : list string) : Prop :=
  Forall (fun c => is_name c = true) comps.

(** [k] slashes followed by the components. *)
Definition normal_path (k : nat) (comps : list string) : string :=
  sep_repeat k (sep_join comps).

(** An element of an array of paths whose normal form ends in three
    names: the sequence, the camera and the file. *)
Definition ends_in_names (o : pyobj) : Prop :=
  exists (p : string) (pre : list string) (s c f : string),
    o = PyStr p /\ split_sep (normpath p) = pre ++ [s; c; f]
    /\ names [s; c; f].

End Folders.

(** ** What a run of [reconstruct_dataset] may leave in the trace *)
Module Outcome.
Import Py PosixPath Evaluation.

(** Every element of an array of paths is a string that starts with
    [root]. *)
Definition paths_under (root : string) (paths : ndarray) : Prop :=
  Forall (fun o => exists q : string,
            o = PyStr q /\ String.prefix root q = true) (data paths).

(** An event of the loop over the batches: it is not a subprocess, and
    folders and images go to paths under [root]. *)
Definition batch_event_ok {rendered : Type} (root : string)
    (e : event rendered) : Prop :=
  match e with
  | SubprocessRun _ => False
  | MakeFolders paths => paths_under root paths
  | SaveReconstructedImages _ paths => paths_under root paths
  | _ => True
  end.

(** The world [w'] is reached from [w] by events of this kind: the trace
    of [w] is continued by them, and every array of [w] is in [w'] as it
    was. *)
Definition extends {rendered FS : Type} (root : string)
    (w w' : world rendered FS) : Prop :=
  exists evs : list (event rendered),
    w_trace w' = w_trace w ++ evs
    /\ Forall (batch_event_ok root) evs
    /\ w_heap w ⊆ w_heap w'.

(** A computation that, whatever it returns or raises, only leads to
    such worlds. *)
Definition keeps {rendered FS X : Type} (root : string)
    (m : M (world rendered FS) X) : Prop :=
  forall w : world rendered FS, extends root w (fst (m w)).

End Outcome.

(** ** [remove_camera_folder.py]: the script

    The state is the content of [root_directory], a tree of [node]s:
    top-level directories hold video directories, and a video directory
    is what [remove_camera_folder] works on.  A path string of the form
    [join(d, n)] names entry [n] of the directory [d]; as for the
    function, links and permissions are not modelled, and what [glob]
    finds is given for paths that it reads literally: [root_directory]
    and the names of the directories hold no wildcard character
    ([tree_literal] below). *)
Module Script.
Import Py PosixPath CameraFolder ArgParse.

(** [os.path.isdir] of what a path names. *)
Definition isdir (entry : option node) : bool :=
  match entry with
  | Some (Dir _) => true
  | _ => false
  end.

(** [glob.glob(os.path.join(directory, "*"))], for a directory with the
    given content. *)
Definition glob_entries (directory : string) (content : listing)
    : list string :=
  glob_paths directory (visible_names content).

(** The directory part of the pattern [os.path.join(directory, "*")],
    which the paths that [glob] gives start with: [directory] without
    its trailing slashes. *)
Definition glob_dirname (directory : string) : string :=
  dirname (join directory ["*"]).

(** [sorted] on a list of [str]: strings compare character by
    character. *)
Definition path_le (a b : string) : Prop := String.leb a b = true.

#[global] Instance path_le_dec : RelDecision path_le.
Proof. intros a b. unfold path_le. apply _. Defined.

Definition sorted (l : list string) : list string := merge_sort path_le l.

(** A computation on the content of the directory [video] of the
    top-level directory [top], run in the tree. *)
Definition in_video (top video : string) (m : M listing unit)
    : M listing unit :=
  fun root =>
    match root !! top with
    | Some (Dir videos) =>
        match videos !! video with
        | Some (Dir content) =>
            match m content with
            | (content', r) =>
                (<[top := Dir (<[video := Dir content']> videos)]> root, r)
            end
        | Some (File _) => (root, Raise NotADirectoryError)
        | None => (root, Raise FileNotFoundError)
        end
    | Some (File _) => (root, Raise NotADirectoryError)
    | None => (root, Raise FileNotFoundError)
    end.

(** The body of the loop over the top-level directories. *)
Definition elaborate (current_top_level_directory : string)
    : M listing unit :=
  fun root =>
    let top := basename current_top_level_directory in
    match root !! top with
    | Some (Dir videos) =>
        let video_paths_list :=
          sorted (glob_entries current_top_level_directory videos) in
        let video_paths_list :=
          filter (fun current_path =>
                    isdir (videos !! basename current_path) = true)
                 video_paths_list in
        for_each video_paths_list (fun current_video_path =>
          in_video top (basename current_video_path)
            (remove_camera_folder current_video_path)) root
    | _ => (root, Return tt)
    end.

(** The script after the command line is read. *)
Definition flatten_videos (root_directory : string) : M listing unit :=
  fun root =>
    let top_level_directories := glob_entries root_directory root in
    for_each top_level_directories elaborate root.

(** The script, from [sys.argv[1:]].  [os.path.join] raises [TypeError]
    on a [root_directory] that is a list. *)
Definition main (argv : list string) : M listing unit :=
  root_directory ← lift (parse_args argv);
  match root_directory with
  | Str root_directory => flatten_videos root_directory
  | Strs _ => raise TypeError
  end.

(** *** The directories the script works on *)

(** [content] is the content of the video directory [video] of the
    top-level directory [top], neither name starting with a dot. *)
Definition video_directory (root : listing) (top video : string)
    (content : listing) : Prop :=
  ishidden top = false /\ ishidden video = false
  /\ exists videos : listing,
       root !! top = Some (Dir videos) /\ videos !! video = Some (Dir content).

(** The names of a directory are names a file system allows. *)
Definition names_valid (content : listing) : Prop :=
  forall n : string, is_Some (content !! n) -> is_entry_name n = true.

(** The same for the root and its top-level directories. *)
Definition tree_names_valid (root : listing) : Prop :=
  names_valid root
  /\ forall (top : string) (videos : listing),
       root !! top = Some (Dir videos) -> names_valid videos.

(** No name in the directory has a wildcard character. *)
Definition names_literal (content : listing) : Prop :=
  forall n : string, is_Some (content !! n) -> has_magic n = false.

(** [glob] reads every path of the script literally: there is no
    wildcard character in [root_directory], in the names of the root and
    in the names of its top-level directories. *)
Definition tree_literal (root_directory : string) (root : listing) : Prop :=
  has_magic root_directory = false
  /\ names_literal root
  /\ forall (top : string) (videos : listing),
       root !! top = Some (Dir videos) -> names_literal videos.

(** [remove_camera_folder] returns normally on a video directory: it has
    a camera folder, and no [rename] is refused. *)
Definition flattenable (content : listing) : Prop :=
  is_Some (camera_children content)
  /\ camera_names_valid content /\ no_conflict content.

(** *** What a run may have done to the tree

    In a top-level directory whose path is [top_path], only the video
    directories, the directories whose name does not start with a dot,
    can differ after a run: each is as it was, or as
    [remove_camera_folder] leaves it. *)
Definition videos_touched (top_path : string) (videos videos' : listing)
    : Prop :=
  forall v : string,
    match videos !! v with
    | Some (Dir content) =>
        if ishidden v then videos' !! v = videos !! v
        else videos' !! v = Some (Dir content)
             \/ videos' !! v =
                  Some (Dir (fst (remove_camera_folder (join top_path [v])
                                    content)))
    | _ => videos' !! v = videos !! v
    end.

(** After a run that went through, each video directory is as a call of
    [remove_camera_folder] that returned leaves it. *)
Definition videos_flattened (top_path : string) (videos videos' : listing)
    : Prop :=
  forall v : string,
    match videos !! v with
    | Some (Dir content) =>
        if ishidden v then videos' !! v = videos !! v
        else remove_camera_folder (join top_path [v]) content =
               (fst (remove_camera_folder (join top_path [v]) content),
                Return tt)
             /\ videos' !! v =
                  Some (Dir (fst (remove_camera_folder (join top_path [v])
                                    content)))
    | _ => videos' !! v = videos !! v
    end.

(** The same for the tree: only the top-level directories whose name
    does not start with a dot can differ, and only in this way. *)
Definition tree_touched (root_directory : string) (root root' : listing)
    : Prop :=
  forall top : string,
    match root !! top with
    | Some (Dir videos) =>
        if ishidden top then root' !! top = root !! top
        else exists videos' : listing,
               root' !! top = Some (Dir videos')
               /\ videos_touched (join (glob_dirname root_directory) [top])
                    videos videos'
    | _ => root' !! top = root !! top
    end.

Definition tree_flattened (root_directory : string) (root root' : listing)
    : Prop :=
  forall top : string,
    match root !! top with
    | Some (Dir videos) =>
        if ishidden top then root' !! top = root !! top
        else exists videos' : listing,
               root' !! top = Some (Dir videos')
               /\ videos_flattened (join (glob_dirname root_directory) [top])
                    videos videos'
    | _ => root' !! top = root !! top
    end.

End Script.
(** * Part II: properties *)

(** ** The library functions on concrete inputs

    Each value below is the one CPython 3.11 gives. *)
Module LibraryExamples.
Import Py PosixPath CameraFolder ArgParse.

Example normpath_collapses :
  normpath "data//seq1/./cam0/../cam1/0001.png" = "data/seq1/cam1/0001.png".
Proof. reflexivity. Qed.

Example normpath_two_slashes : normpath "//a/b" = "//a/b".
Proof. reflexivity. Qed.

Example normpath_three_slashes : normpath "///a/b/" = "/a/b".
Proof. reflexivity. Qed.

Example normpath_dotdot_relative : normpath "../../a" = "../../a".
Proof. reflexivity. Qed.

Example normpath_dotdot_root : normpath "/../a" = "/a".
Proof. reflexivity. Qed.

Example normpath_empty : normpath "" = ".".
Proof. reflexivity. Qed.

Example split_absolute : split_sep "/a/b" = [""; "a"; "b"].
Proof. reflexivity. Qed.

Example join_absolute_component : join "out" ["a"; "/b"; "c"] = "/b/c".
Proof. reflexivity. Qed.

Example join_trailing_slash : join "out/" [""; "a"] = "out/a".
Proof. reflexivity. Qed.

Example basename_file : basename "v/00000/img.png" = "img.png".
Proof. reflexivity. Qed.

Example last_three_short : last_three ["a"; "b"] = ["a"; "b"].
Proof. reflexivity. Qed.

Example dirname_trailing_slashes : dirname "data//*" = "data".
Proof. reflexivity. Qed.

Example dirname_root : dirname "//*" = "//".
Proof. reflexivity. Qed.

Example glob_paths_trailing_slashes :
  glob_paths "data//" ["train"; "test"] = ["data/train"; "data/test"].
Proof. reflexivity. Qed.

Example glob_paths_current_directory : glob_paths "" ["train"] = ["train"].
Proof. reflexivity. Qed.

Example has_magic_bracket : has_magic "videos/v[1]" = true.
Proof. reflexivity. Qed.

Example parse_full : parse_args ["--directory"; "data"] = Return (Str "data").
Proof. reflexivity. Qed.

Example parse_equals : parse_args ["--directory=data"] = Return (Str "data").
Proof. reflexivity. Qed.

Example parse_abbreviation : parse_args ["--dir"; "data"] = Return (Str "data").
Proof. reflexivity. Qed.

Example parse_last_wins :
  parse_args ["--directory"; "a"; "--directory"; "b"] = Return (Str "b").
Proof. reflexivity. Qed.

Example parse_nothing : parse_args [] = Raise (SystemExit 2).
Proof. reflexivity. Qed.

Example parse_missing_value : parse_args ["--directory"] = Raise (SystemExit 2).
Proof. reflexivity. Qed.

Example parse_option_as_value :
  parse_args ["--directory"; "-x"] = Raise (SystemExit 2).
Proof. reflexivity. Qed.

Example parse_negative_number_value :
  parse_args ["--directory"; "-1"] = Return (Str "-1").
Proof. reflexivity. Qed.

Example parse_explicit_dashes :
  parse_args ["--directory=--"] = Return (Strs []).
Proof. reflexivity. Qed.

Example parse_dashes_as_value :
  parse_args ["--directory"; "--"; "a"] = Raise (SystemExit 2).
Proof. reflexivity. Qed.

Example parse_positional : parse_args ["--directory"; "a"; "b"] = Raise (SystemExit 2).
Proof. reflexivity. Qed.

Example parse_after_dashes :
  parse_args ["--"; "--directory"; "a"] = Raise (SystemExit 2).
Proof. reflexivity. Qed.

Example parse_ambiguous : parse_args ["--=x"] = Raise (SystemExit 2).
Proof. reflexivity. Qed.

Example parse_help : parse_args ["--help"] = Raise (SystemExit 0).
Proof. reflexivity. Qed.

Example parse_help_after_directory :
  parse_args ["--directory"; "a"; "-h"] = Raise (SystemExit 0).
Proof. reflexivity. Qed.

Example parse_help_flags : parse_args ["-hh"] = Raise (SystemExit 0).
Proof. reflexivity. Qed.

Example parse_help_argument : parse_args ["-hx"] = Raise (SystemExit 2).
Proof. reflexivity. Qed.

Example selects_abbreviation : selects StoreDirectory "--d=x" = true.
Proof. reflexivity. Qed.

End LibraryExamples.

(** ** Path functions *)
Module PosixPathFacts.
Import PosixPath.

Lemma append_cons (c : ascii) (a b : string) :
  String c a +:+ b = String c (a +:+ b).
Proof. reflexivity. Qed.

Lemma append_empty_l (s : string) : "" +:+ s = s.
Proof. reflexivity. Qed.

Lemma append_empty_r (s : string) : s +:+ "" = s.
Proof.
  induction s as [|c t IH]; [reflexivity |].
  now rewrite append_cons, IH.
Qed.

Lemma append_assoc (a b c : string) : (a +:+ b) +:+ c = a +:+ (b +:+ c).
Proof.
  induction a as [|x t IH]; [reflexivity |].
  now rewrite !append_cons, IH.
Qed.

Lemma is_empty_true (s : string) : is_empty s = true -> s = "".
Proof. destruct s; [reflexivity | discriminate]. Qed.

Lemma is_empty_append (a b : string) :
  is_empty (a +:+ b) = is_empty a && is_empty b.
Proof. destruct a; reflexivity. Qed.

Lemma endswith_sep_cons (c : ascii) (s : string) :
  is_empty s = false -> endswith_sep (String c s) = endswith_sep s.
Proof. destruct s; [discriminate | reflexivity]. Qed.

Lemma endswith_sep_append (a b : string) :
  is_empty b = false -> endswith_sep (a +:+ b) = endswith_sep b.
Proof.
  intros Hb. induction a as [|c t IH]; [reflexivity |].
  rewrite append_cons, endswith_sep_cons; [exact IH |].
  rewrite is_empty_append, Hb. apply andb_false_r.
Qed.

Lemma endswith_sep_snoc (a : string) : endswith_sep (a +:+ String sep "") = true.
Proof. rewrite endswith_sep_append; reflexivity. Qed.

Lemma startswith_sep_append (a b : string) :
  is_empty a = false -> startswith_sep (a +:+ b) = startswith_sep a.
Proof. destruct a; [discriminate | reflexivity]. Qed.

Lemma sep_free_startswith (s : string) :
  sep_free s = true -> startswith_sep s = false.
Proof.
  destruct s as [|c s]; simpl; [reflexivity |].
  intros [Hc _]%andb_prop. now apply negb_true_iff in Hc.
Qed.

Lemma sep_free_endswith (s : string) :
  sep_free s = true -> endswith_sep s = false.
Proof.
  induction s as [|c t IH]; simpl; [reflexivity |].
  intros [Hc Hs]%andb_prop. apply negb_true_iff in Hc.
  destruct t; [exact Hc | now apply IH].
Qed.

(** [join2] on a component that does not start with a slash. *)
Lemma join2_relative (a b : string) :
  startswith_sep b = false ->
  join2 a b = if is_empty a || endswith_sep a then a +:+ b
              else a +:+ String sep b.
Proof. intros Hb. unfold join2. now rewrite Hb. Qed.

Lemma join2_relative_startswith (a b : string) :
  startswith_sep a = false -> startswith_sep b = false ->
  startswith_sep (join2 a b) = false.
Proof.
  intros Ha Hb. rewrite join2_relative by exact Hb.
  destruct a as [|c a]; [exact Hb |].
  change (is_empty (String c a)) with false. rewrite orb_false_l.
  destruct (endswith_sep (String c a)); rewrite append_cons; exact Ha.
Qed.

Lemma join2_empty_l (b : string) : startswith_sep b = false -> join2 "" b = b.
Proof. intros Hb. unfold join2. now rewrite Hb. Qed.

Lemma join2_slash (a b : string) :
  startswith_sep b = false -> endswith_sep a = true -> join2 a b = a +:+ b.
Proof.
  intros Hb Ha. rewrite join2_relative by exact Hb.
  now rewrite Ha, orb_true_r.
Qed.

Lemma join2_plain (a b : string) :
  startswith_sep b = false -> is_empty a = false -> endswith_sep a = false ->
  join2 a b = a +:+ String sep b.
Proof.
  intros Hb Ha Ha'. rewrite join2_relative by exact Hb.
  now rewrite Ha, Ha'.
Qed.

(** The three shapes of [join2 a b] for a relative [b]. *)
Lemma join2_cases (a b : string) :
  startswith_sep b = false ->
  (a = "" /\ join2 a b = b)
  \/ (is_empty a = false /\ endswith_sep a = true /\ join2 a b = a +:+ b)
  \/ (is_empty a = false /\ endswith_sep a = false
      /\ join2 a b = a +:+ String sep b).
Proof.
  intros Hb. destruct (is_empty a) eqn:Ea.
  - left. apply is_empty_true in Ea. subst a. split; [reflexivity |].
    now apply join2_empty_l.
  - destruct (endswith_sep a) eqn:Ee.
    + right; left. now rewrite join2_slash.
    + right; right. now rewrite join2_plain.
Qed.

(** Joining is associative on relative components. *)
Lemma join2_assoc (a x c : string) :
  startswith_sep x = false -> startswith_sep c = false ->
  join2 a (join2 x c) = join2 (join2 a x) c.
Proof.
  intros Hx Hc.
  assert (Hxc : startswith_sep (join2 x c) = false)
    by (apply join2_relative_startswith; assumption).
  destruct (join2_cases x c Hc) as [[-> Exc] | [(Ex & Eex & Exc) | (Ex & Eex & Exc)]];
    rewrite Exc in *.
  - (* x is empty *)
    destruct (join2_cases a "" Hx) as [[-> Eax] | [(Ea & Eea & Eax) | (Ea & Eea & Eax)]];
      rewrite Eax.
    + reflexivity.
    + rewrite append_empty_r. reflexivity.
    + rewrite join2_plain by assumption.
      rewrite (join2_slash (a +:+ String sep "") c Hc (endswith_sep_snoc a)).
      now rewrite append_assoc.
  - (* x ends with a slash *)
    destruct (join2_cases a x Hx) as [[-> Eax] | [(Ea & Eea & Eax) | (Ea & Eea & Eax)]];
      rewrite Eax.
    + rewrite join2_empty_l by exact Hxc. now rewrite join2_slash.
    + rewrite (join2_slash a) by assumption.
      rewrite join2_slash; [now rewrite append_assoc | exact Hc |].
      now rewrite endswith_sep_append.
    + rewrite (join2_plain a) by assumption.
      rewrite join2_slash; [now rewrite append_assoc | exact Hc |].
      rewrite endswith_sep_append by reflexivity.
      now rewrite endswith_sep_cons.
  - (* x is a plain name *)
    destruct (join2_cases a x Hx) as [[-> Eax] | [(Ea & Eea & Eax) | (Ea & Eea & Eax)]];
      rewrite Eax.
    + rewrite join2_empty_l by exact Hxc. now rewrite join2_plain.
    + rewrite (join2_slash a) by assumption.
      rewrite join2_plain; [now rewrite append_assoc | exact Hc | |].
      * now rewrite is_empty_append, Ex, andb_false_r.
      * now rewrite endswith_sep_append.
    + rewrite (join2_plain a) by assumption.
      rewrite join2_plain; [now rewrite append_assoc | exact Hc | |].
      * now rewrite is_empty_append, Ea.
      * rewrite endswith_sep_append by reflexivity.
        now rewrite endswith_sep_cons.
Qed.

(** [os.path.join(a, os.path.join(b, *cs))] is [os.path.join(a, b, *cs)]
    when no component starts with a slash. *)
Lemma join_flatten (cs : list string) : forall (root a : string),
  startswith_sep a = false ->
  Forall (fun c => startswith_sep c = false) cs ->
  join root [join a cs] = join root (a :: cs).
Proof.
  unfold join. induction cs as [|c cs IH]; intros root a Ha Hcs; [reflexivity |].
  inversion Hcs as [|? ? Hc Hcs']; subst.
  cbn [fold_left] in *.
  rewrite (IH root (join2 a c)) by (auto using join2_relative_startswith).
  now rewrite join2_assoc.
Qed.

Lemma split_sep_nonempty (s : string) : split_sep s <> [].
Proof.
  destruct s as [|c t]; cbn [split_sep]; [discriminate |].
  destruct (is_sep c); [discriminate |].
  destruct (split_sep t); discriminate.
Qed.

Lemma split_sep_components (s : string) :
  Forall (fun c => sep_free c = true) (split_sep s).
Proof.
  induction s as [|c t IH]; cbn [split_sep].
  - repeat constructor.
  - destruct (is_sep c) eqn:Ec.
    + constructor; [reflexivity | exact IH].
    + destruct (split_sep t) as [|h tl]; [repeat constructor; cbn; now rewrite Ec |].
      inversion IH; subst. constructor; [| assumption].
      cbn [sep_free]. rewrite Ec. assumption.
Qed.

Lemma split_sep_sep_free (n : string) : sep_free n = true -> split_sep n = [n].
Proof.
  induction n as [|c t IH]; [reflexivity |].
  cbn [sep_free split_sep]. intros [Hc Ht]%andb_prop.
  apply negb_true_iff in Hc. rewrite Hc, (IH Ht). reflexivity.
Qed.

Lemma split_sep_append (a b : string) :
  split_sep (a +:+ String sep b) = split_sep a ++ split_sep b.
Proof.
  induction a as [|c t IH].
  - reflexivity.
  - rewrite append_cons. cbn [split_sep]. rewrite IH.
    destruct (is_sep c); [reflexivity |].
    destruct (split_sep t) as [|h tl] eqn:E; [| reflexivity].
    now apply split_sep_nonempty in E.
Qed.

Lemma endswith_sep_inv (d : string) :
  endswith_sep d = true -> exists d', d = d' +:+ String sep "".
Proof.
  induction d as [|c t IH]; [discriminate |].
  destruct t as [|c' t'].
  - cbn. intros Hc. exists "". apply Ascii.eqb_eq in Hc. now subst c.
  - intros Ht. rewrite endswith_sep_cons in Ht by reflexivity.
    destruct (IH Ht) as [d' Hd']. exists (String c d').
    now rewrite append_cons, <- Hd'.
Qed.

(** The last component of a path joined with a plain name is that name. *)
Lemma split_sep_join2 (d n : string) :
  sep_free n = true -> last (split_sep (join2 d n)) = Some n.
Proof.
  intros Hn. pose proof (sep_free_startswith n Hn) as Hs.
  destruct (join2_cases d n Hs) as [[-> E] | [(Ed & Ee & E) | (Ed & Ee & E)]];
    rewrite E.
  - now rewrite split_sep_sep_free.
  - destruct (endswith_sep_inv d Ee) as [d' ->].
    rewrite append_assoc, append_cons, append_empty_l, split_sep_append.
    rewrite (split_sep_sep_free n Hn). apply last_snoc.
  - rewrite split_sep_append, (split_sep_sep_free n Hn). apply last_snoc.
Qed.

Lemma basename_join (d n : string) :
  sep_free n = true -> basename (join d [n]) = n.
Proof.
  intros Hn. unfold basename, join. cbn [fold_left].
  now rewrite split_sep_join2.
Qed.

(** Three plain names joined: [s/c/f]. *)
Lemma join_three (s c f : string) :
  sep_free s = true -> sep_free c = true -> startswith_sep f = false ->
  is_empty s = false -> is_empty c = false ->
  join s [c; f] = s +:+ String sep (c +:+ String sep f).
Proof.
  intros Hs Hc Hf Es Ec. unfold join. cbn [fold_left].
  rewrite (join2_plain s c)
    by (auto using sep_free_startswith, sep_free_endswith).
  rewrite join2_plain; [now rewrite append_assoc | exact Hf | |].
  - now rewrite is_empty_append, Es.
  - rewrite endswith_sep_append by reflexivity.
    rewrite endswith_sep_cons by exact Ec.
    now apply sep_free_endswith.
Qed.

(** *** The directory part of a pattern *)

Lemma upto_last_sep_sep_free (b : string) :
  sep_free b = true -> upto_last_sep b = "".
Proof.
  induction b as [|c t IH]; [reflexivity |].
  cbn [sep_free upto_last_sep]. intros [Hc Ht]%andb_prop.
  apply negb_true_iff in Hc. now rewrite Hc, (IH Ht).
Qed.

Lemma upto_last_sep_append (a b : string) :
  sep_free b = true ->
  upto_last_sep (a +:+ String sep b) = a +:+ String sep "".
Proof.
  intros Hb. induction a as [|c t IH].
  - rewrite !append_empty_l. cbn [upto_last_sep].
    now rewrite (upto_last_sep_sep_free b Hb).
  - rewrite !append_cons. cbn [upto_last_sep]. rewrite IH.
    destruct (is_sep c); [reflexivity |].
    rewrite is_empty_append. cbn [is_empty]. now rewrite andb_false_r.
Qed.

Lemma rstrip_sep_cons (c : ascii) (s : string) :
  rstrip_sep (String c s) =
    if is_sep c && is_empty (rstrip_sep s) then "" else String c (rstrip_sep s).
Proof. reflexivity. Qed.

Lemma rstrip_sep_snoc (d : string) :
  rstrip_sep (d +:+ String sep "") = rstrip_sep d.
Proof.
  induction d as [|c t IH]; [reflexivity |].
  now rewrite append_cons, !rstrip_sep_cons, IH.
Qed.

Lemma rstrip_sep_plain (d : string) :
  endswith_sep d = false -> rstrip_sep d = d.
Proof.
  induction d as [|c t IH]; [reflexivity |].
  destruct t as [|c' t'].
  - cbn. now intros ->.
  - intros Hd. rewrite endswith_sep_cons in Hd by reflexivity.
    rewrite rstrip_sep_cons, (IH Hd). cbn [is_empty].
    now rewrite andb_false_r.
Qed.

(** [glob] joins what it finds in a directory to the path it was given,
    when that path does not end with a slash. *)
Lemma dirname_join_star (d : string) :
  is_empty d = false -> endswith_sep d = false ->
  dirname (join d ["*"]) = d.
Proof.
  intros Hd Hend. unfold join. cbn [fold_left].
  rewrite join2_plain by (reflexivity || assumption).
  unfold dirname. rewrite upto_last_sep_append by reflexivity.
  rewrite rstrip_sep_snoc, (rstrip_sep_plain d Hend), Hd. reflexivity.
Qed.

End PosixPathFacts.

(** ** Output paths: the element, the loop, the array *)
Module OutputPathsFacts.
Import Py PosixPath PosixPathFacts Evaluation.

Lemma last_three_nonempty {A} (l : list A) : l <> [] -> last_three l <> [].
Proof.
  unfold last_three. intros Hl E.
  apply (f_equal length) in E. rewrite length_drop in E. cbn in E.
  destruct l; [congruence | cbn in *; lia].
Qed.

Lemma last_three_components (s : string) :
  Forall (fun c => sep_free c = true) (last_three (split_sep s)).
Proof. apply Forall_drop, split_sep_components. Qed.

(** On a path, the loop body computes the derived path: the nested
    [join] of the source is the flat one. *)
Lemma translate_path_str (root p : string) :
  translate_path root (PyStr p) = Return (PyStr (derived_path root p)).
Proof.
  unfold translate_path, derived_path.
  pose proof (last_three_components (normpath p)) as Hc.
  pose proof (last_three_nonempty _ (split_sep_nonempty (normpath p))) as Hne.
  destruct (last_three (split_sep (normpath p))) as [|a rest]; [congruence |].
  cbn [join_star]. inversion Hc; subst.
  rewrite join_flatten; [reflexivity | now apply sep_free_startswith |].
  eapply Forall_impl; [eassumption |]. intros c. apply sep_free_startswith.
Qed.

Lemma translate_path_derived (root : string) (o : pyobj) :
  is_str o -> translate_path root o = Return (derived root o).
Proof. destruct o; [intros _; apply translate_path_str | intros []]. Qed.

Lemma translate_path_none (root : string) :
  translate_path root PyNone = Raise TypeError.
Proof. reflexivity. Qed.

Lemma translate_all_derived (root : string) (d : list pyobj) :
  Forall is_str d -> translate_all root d = Return (map (derived root) d).
Proof.
  induction 1 as [|o d Ho _ IH]; [reflexivity |].
  cbn [translate_all map]. rewrite (translate_path_derived _ _ Ho), IH.
  reflexivity.
Qed.

Lemma translate_all_length (root : string) (d ds : list pyobj) :
  translate_all root d = Return ds -> length ds = length d.
Proof.
  revert ds. induction d as [|o d IH]; intros ds; cbn [translate_all].
  - intros [= <-]. reflexivity.
  - destruct (translate_path root o); [| discriminate].
    destruct (translate_all root d) as [vs|]; [| discriminate].
    intros [= <-]. cbn. now rewrite (IH vs).
Qed.

(** Running the monad: one equation per combinator. *)
Lemma bind_run {S X Y} (m : M S X) (k : X -> M S Y) (s : S) :
  (m ≫= k) s = match m s with
               | (s', Return a) => k a s'
               | (s', Raise e) => (s', Raise e)
               end.
Proof. reflexivity. Qed.

Lemma for_each_nil_run {S X} (body : X -> M S unit) (s : S) :
  for_each [] body s = (s, Return tt).
Proof. reflexivity. Qed.

Lemma for_each_cons_run {S X} (x : X) (xs : list X) (body : X -> M S unit)
    (s : S) :
  for_each (x :: xs) body s =
  match body x s with
  | (s', Return _) => for_each xs body s'
  | (s', Raise e) => (s', Raise e)
  end.
Proof. reflexivity. Qed.

Lemma rewrite_path_run (root : string) (l : loc) (i : nat) (h : heap)
    (sh : list nat) (cur : list pyobj) (x : pyobj) :
  h !! l = Some (Ndarray sh cur) -> cur !! i = Some x ->
  rewrite_path root l i h =
  match translate_path root x with
  | Return v => (<[l := Ndarray sh (<[i := v]> cur)]> h, Return tt)
  | Raise e => (h, Raise e)
  end.
Proof.
  intros Hl Hx. unfold rewrite_path. rewrite bind_run.
  unfold item at 1. rewrite Hl. cbn [data]. rewrite Hx.
  rewrite bind_run. unfold lift at 1.
  destruct (translate_path root x) as [v|e]; [| reflexivity].
  unfold set_item. rewrite Hl. cbn [data shape].
  apply lookup_lt_Some in Hx. now rewrite decide_True.
Qed.

(** The loop over the positions [k, k+1, ...] of the array at [l]: it
    raises exactly when [translate_all] does on the elements left, it
    touches no other array, and when it ends normally the elements left
    have been replaced by their translations. *)
Lemma rewrite_loop_run (root : string) (l : loc) (sh : list nat) (m : nat) :
  forall (k : nat) (cur : list pyobj) (h : heap),
  h !! l = Some (Ndarray sh cur) -> k + m = length cur ->
  exists h' : heap,
    for_each (seq k m) (rewrite_path root l) h =
      (h', match translate_all root (drop k cur) with
           | Return _ => Return tt
           | Raise e => Raise e
           end)
    /\ (forall l0 : loc, l0 <> l -> h' !! l0 = h !! l0)
    /\ (forall ds, translate_all root (drop k cur) = Return ds ->
        h' = <[l := Ndarray sh (take k cur ++ ds)]> h).
Proof.
  induction m as [|m IH]; intros k cur h Hl Hlen.
  - exists h. cbn [seq]. rewrite for_each_nil_run.
    rewrite drop_ge by lia. cbn [translate_all].
    split; [reflexivity |]. split; [reflexivity |].
    intros ds [= <-]. rewrite app_nil_r, take_ge by lia.
    symmetry. now apply insert_id.
  - destruct (lookup_lt_is_Some_2 cur k ltac:(lia)) as [x Hx].
    cbn [seq]. rewrite for_each_cons_run.
    rewrite (rewrite_path_run root l k h sh cur x Hl Hx).
    rewrite (drop_S cur x k Hx). cbn [translate_all].
    destruct (translate_path root x) as [v|e].
    + destruct (IH (S k) (<[k := v]> cur) (<[l := Ndarray sh (<[k := v]> cur)]> h))
        as (h' & Hrun & Hframe & Hok).
      { apply lookup_insert_eq. }
      { rewrite length_insert. lia. }
      rewrite drop_insert_lt in Hrun, Hok by lia.
      exists h'. split; [| split].
      * rewrite Hrun.
        destruct (translate_all root (drop (S k) cur)); reflexivity.
      * intros l0 Hl0. rewrite (Hframe l0 Hl0). now apply lookup_insert_ne.
      * intros ds Hds.
        destruct (translate_all root (drop (S k) cur)) as [vs|] eqn:Evs;
          [| discriminate].
        injection Hds as <-. rewrite (Hok vs eq_refl), insert_insert_eq.
        f_equal. f_equal.
        rewrite (take_S_r (<[k := v]> cur) k v)
          by (apply list_lookup_insert_eq; now apply lookup_lt_Some in Hx).
        rewrite take_insert_ge by lia. now rewrite <- app_assoc.
    + exists h. split; [reflexivity |]. split; [reflexivity |]. discriminate.
Qed.

Lemma translate_all_inv (root : string) (d ds : list pyobj) :
  translate_all root d = Return ds ->
  Forall is_str d /\ ds = map (derived root) d.
Proof.
  revert ds. induction d as [|o d IH]; intros ds; cbn [translate_all].
  - intros [= <-]. split; [constructor | reflexivity].
  - destruct o as [p|]; [| discriminate].
    rewrite translate_path_str. cbn.
    destruct (translate_all root d) as [vs|]; [| discriminate].
    intros [= <-]. destruct (IH vs eq_refl) as [Hd ->].
    split; [constructor; [exact I | exact Hd] | reflexivity].
Qed.

(** The iterator over the array at [l]: refused when the array has no
    element. *)
Lemma nditer_run (l : loc) (h : heap) (a : ndarray) :
  h !! l = Some a ->
  nditer l h =
    (h, if is_nil (data a) then Raise ValueError
        else Return (seq 0 (length (data a)))).
Proof.
  intros Hl. unfold nditer. rewrite bind_run. unfold array_size at 1.
  rewrite Hl. now destruct (data a).
Qed.

(** The whole method, run on a heap in which [l] holds the array [a]. *)
Lemma output_paths_run (self : creator) (l : loc) (h : heap) (a : ndarray) :
  h !! l = Some a ->
  exists h' : heap,
    output_paths_from_observations_paths self l h =
      (h', if is_nil (data a) then Raise ValueError
           else match translate_all (output_root self) (data a) with
                | Return _ => Return (fresh (dom h))
                | Raise e => Raise e
                end)
    /\ h !! fresh (dom h) = None
    /\ (forall l0 : loc, l0 <> fresh (dom h) -> h' !! l0 = h !! l0)
    /\ (forall ds, data a <> [] ->
        translate_all (output_root self) (data a) = Return ds ->
        h' = <[fresh (dom h) := Ndarray (shape a) ds]> h).
Proof.
  intros Hl. set (l' := fresh (dom h)).
  assert (Hfresh : h !! l' = None)
    by (apply not_elem_of_dom, is_fresh).
  destruct a as [sh d]. cbn [data shape].
  assert (Hcopy : forall k : loc -> M heap loc,
            (array_copy l ≫= k) h = k l' (<[l' := Ndarray sh d]> h)).
  { intros k. rewrite bind_run. unfold array_copy at 1. now rewrite Hl. }
  assert (Hl' : <[l' := Ndarray sh d]> h !! l' = Some (Ndarray sh d))
    by apply lookup_insert_eq.
  unfold output_paths_from_observations_paths. rewrite Hcopy.
  rewrite bind_run, (nditer_run l' _ _ Hl'). cbn [data].
  destruct (is_nil d) eqn:Hnil.
  - exists (<[l' := Ndarray sh d]> h).
    split; [reflexivity |]. split; [exact Hfresh |]. split.
    + intros l0 Hl0. now apply lookup_insert_ne.
    + intros ds Hne. destruct d; [congruence | discriminate].
  - destruct (rewrite_loop_run (output_root self) l' sh (length d) 0 d
                (<[l' := Ndarray sh d]> h)) as (h' & Hrun & Hframe & Hok).
    { exact Hl'. }
    { reflexivity. }
    rewrite drop_0 in Hrun, Hok.
    exists h'. split; [| split; [exact Hfresh | split]].
    + rewrite bind_run, Hrun.
      destruct (translate_all (output_root self) d); reflexivity.
    + intros l0 Hl0. rewrite (Hframe l0 Hl0). now apply lookup_insert_ne.
    + intros ds _ Hds. rewrite (Hok ds Hds). cbn [take app].
      apply insert_insert_eq.
Qed.

Lemma is_nil_false {X} (l : list X) : l <> [] -> is_nil l = false.
Proof. destruct l; [congruence | reflexivity]. Qed.

(** C2. For every array of observation paths that has an element, the
    method returns a new array of the same shape in which every entry is
    the output root joined with the last three components of the
    normalized input path; when these components are [s], [c] and [f]
    (sequence, camera and file name) the entry is [output_root/s/c/f]. *)
Theorem output_paths_derived_from_observations_paths
    (self : creator) (h : heap) (l : loc) (a : ndarray) :
  h !! l = Some a ->
  data a <> [] ->
  Forall is_str (data a) ->
  exists (l' : loc) (h' : heap),
    output_paths_from_observations_paths self l h = (h', Return l')
    /\ h' !! l' =
         Some (Ndarray (shape a) (map (derived (output_root self)) (data a)))
    /\ forall (i : nat) (p : string) (pre : list string) (s c f : string),
         data a !! i = Some (PyStr p) ->
         split_sep (normpath p) = pre ++ [s; c; f] ->
         map (derived (output_root self)) (data a) !! i =
           Some (PyStr (join (output_root self) [s; c; f]))
         /\ (is_empty s = false -> is_empty c = false ->
             is_empty (output_root self) = false ->
             endswith_sep (output_root self) = false ->
             join (output_root self) [s; c; f] =
               output_root self +:+ "/" +:+ s +:+ "/" +:+ c +:+ "/" +:+ f).
Proof.
  intros Hl Hne Hstr.
  destruct (output_paths_run self l h a Hl) as (h' & Hrun & _ & _ & Hok).
  pose proof (translate_all_derived (output_root self) _ Hstr) as Hall.
  rewrite (is_nil_false _ Hne), Hall in Hrun. specialize (Hok _ Hne Hall).
  exists (fresh (dom h)), h'. split; [exact Hrun |]. split.
  { rewrite Hok. apply lookup_insert_eq. }
  intros i p pre s c f Hi Hsplit. split.
  - rewrite list_lookup_fmap, Hi. cbn. unfold derived_path.
    rewrite Hsplit. unfold last_three.
    rewrite length_app. cbn [length].
    replace (length pre + 3 - 3) with (length pre) by lia.
    now rewrite drop_app_length.
  - intros Es Ec Er Eer.
    pose proof (split_sep_components (normpath p)) as Hc.
    rewrite Hsplit in Hc. apply Forall_app in Hc as [_ Hc].
    inversion Hc as [|? ? Hs Hc']; subst.
    inversion Hc' as [|? ? Hcc Hc'']; subst.
    inversion Hc'' as [|? ? Hf _]; subst.
    rewrite <- (join_flatten [c; f] (output_root self) s)
      by (repeat constructor; now apply sep_free_startswith).
    rewrite join_three by (auto using sep_free_startswith).
    unfold join. cbn [fold_left].
    rewrite join2_plain; [reflexivity | | exact Er | exact Eer].
    rewrite startswith_sep_append by exact Es.
    now apply sep_free_startswith.
Qed.

(** A run of the method on a batch of two observations. *)
Lemma output_paths_derived_from_observations_paths_witness :
  let self := Creator "results" "datasets" "test" in
  let a := Ndarray [1; 1; 2]
             [PyStr "data/seq_0001/00000/00012.png";
              PyStr "/mnt//data/seq_0001/./00001/00012.png"] in
  exists (l' : loc) (h' : heap),
    output_paths_from_observations_paths self 0 {[0 := a]} = (h', Return l')
    /\ h' !! l' =
         Some (Ndarray [1; 1; 2]
                 [PyStr "results/test/seq_0001/00000/00012.png";
                  PyStr "results/test/seq_0001/00001/00012.png"]).
Proof.
  intros self a.
  destruct (output_paths_derived_from_observations_paths self {[0 := a]} 0 a)
    as (l' & h' & Hrun & Hl' & _).
  - reflexivity.
  - discriminate.
  - repeat constructor.
  - exists l', h'. split; [exact Hrun | exact Hl'].
Defined.

(** C8. The method works on a copy: whatever it returns or raises, the
    array passed in, and every other array that existed before the call,
    is unchanged; the array it returns is a new one, and it alone holds
    the rewritten paths. *)
Theorem output_paths_leaves_argument_unchanged
    (self : creator) (h : heap) (l : loc) (a : ndarray) :
  h !! l = Some a ->
  forall (h' : heap) (r : result loc),
    output_paths_from_observations_paths self l h = (h', r) ->
    h' !! l = Some a
    /\ (forall (l0 : loc) (a0 : ndarray), h !! l0 = Some a0 -> h' !! l0 = Some a0)
    /\ (forall l' : loc, r = Return l' ->
        l' <> l /\ h !! l' = None
        /\ h' !! l' =
             Some (Ndarray (shape a)
                     (map (derived (output_root self)) (data a)))).
Proof.
  intros Hl h' r Hrun.
  destruct (output_paths_run self l h a Hl) as (h1 & Hrun1 & Hfresh & Hframe & Hok).
  rewrite Hrun1 in Hrun. injection Hrun as <- <-.
  assert (Hkeep : forall l0 a0, h !! l0 = Some a0 -> h1 !! l0 = Some a0).
  { intros l0 a0 H0. rewrite Hframe; [exact H0 |].
    intros E. rewrite E, Hfresh in H0. discriminate. }
  split; [now apply Hkeep |]. split; [exact Hkeep |].
  intros l' Hr.
  destruct (is_nil (data a)) eqn:Hnil; [discriminate |].
  assert (Hne : data a <> []) by (intros E; now rewrite E in Hnil).
  destruct (translate_all (output_root self) (data a)) as [ds|] eqn:Eds;
    [| discriminate].
  injection Hr as <-.
  destruct (translate_all_inv _ _ _ Eds) as [_ ->].
  split; [intros E; rewrite E, Hl in Hfresh; discriminate |].
  split; [exact Hfresh |].
  rewrite (Hok _ Hne eq_refl). apply lookup_insert_eq.
Qed.

(** The caller's array after a call that succeeds, and after one that
    raises on a [None] entry. *)
Lemma output_paths_leaves_argument_unchanged_witness :
  let self := Creator "results" "datasets" "test" in
  let a := Ndarray [1; 2; 1] [PyStr "data/seq/00000/7.png"; PyNone] in
  let run := output_paths_from_observations_paths self 3 {[3 := a]} in
  fst run !! 3 = Some a.
Proof.
  intros self a run.
  refine (proj1 (output_paths_leaves_argument_unchanged self {[3 := a]} 3 a
                   _ (fst run) (snd run) _)).
  - reflexivity.
  - apply surjective_pairing.
Defined.

End OutputPathsFacts.

(** ** Repeating the first observation *)
Module TensorFacts.
Import Evaluation.

Section Rows.
Context {A : Type}.
Implicit Types (row : list A) (t : tensor A).

Lemma concat_replicate_length (n : nat) row :
  length (concat (replicate n row)) = n * length row.
Proof.
  induction n as [|n IH]; [reflexivity |].
  cbn [replicate concat]. rewrite length_app, IH. lia.
Qed.

Lemma concat_replicate_singleton (n : nat) (x : A) :
  concat (replicate n [x]) = replicate n x.
Proof.
  induction n as [|n IH]; [reflexivity |].
  cbn [replicate concat]. now rewrite IH.
Qed.

Lemma concat_replicate_nil (n : nat) : concat (replicate n (@nil A)) = [].
Proof. induction n as [|n IH]; [reflexivity | exact IH]. Qed.

Lemma take_1_lookup row (x : A) : row !! 0 = Some x -> take 1 row = [x].
Proof. destruct row as [|y row]; [discriminate |]. now intros [= ->]. Qed.

(** Repeating the first cell of what is already a repetition of it. *)
Lemma repeat_first_twice (n : nat) row :
  concat (replicate n (take 1 (concat (replicate n (take 1 row))))) =
  concat (replicate n (take 1 row)).
Proof.
  destruct n as [|n]; [reflexivity |].
  destruct row as [|x row].
  { cbn [take]. now rewrite !concat_replicate_nil. }
  change (take 1 (x :: row)) with [x].
  rewrite concat_replicate_singleton.
  change (take 1 (replicate (S n) x)) with [x].
  now rewrite concat_replicate_singleton.
Qed.

Lemma size1_use_first_observation t :
  size1 (use_first_observation t) = size1 t.
Proof.
  unfold use_first_observation, repeat_dim1, first_slice. cbn [size1].
  destruct (size1 t); cbn; lia.
Qed.

Lemma items_use_first_observation t :
  items (use_first_observation t) =
  map (fun row => concat (replicate (size1 t) (take 1 row))) (items t).
Proof.
  unfold use_first_observation, repeat_dim1, first_slice. cbn [items].
  now rewrite map_map.
Qed.

(** Idempotence needs no assumption on the tensor. *)
Lemma use_first_observation_idempotent t :
  use_first_observation (use_first_observation t) = use_first_observation t.
Proof.
  pose proof (size1_use_first_observation t) as H1.
  pose proof (items_use_first_observation t) as Hi.
  pose proof (size1_use_first_observation (use_first_observation t)) as H1'.
  pose proof (items_use_first_observation (use_first_observation t)) as Hi'.
  assert (H0 : forall u : tensor A, size0 (use_first_observation u) = size0 u)
    by reflexivity.
  pose proof (H0 (use_first_observation t)) as H0'.
  destruct (use_first_observation (use_first_observation t)) as [a b c].
  destruct (use_first_observation t) as [a' b' c'].
  cbn [size0 size1 items] in *. subst a b c b' c'.
  f_equal. rewrite map_map. apply map_ext. intros row.
  apply repeat_first_twice.
Qed.

(** C9. On a tensor with at least one observation, the result has the
    shape of the input, every slice along dimension 1 is the first slice
    of the input, and a second application changes nothing. *)
Theorem use_first_observation_broadcasts_first t :
  tensor_wf t -> 1 <= size1 t ->
  let r := use_first_observation t in
  tensor_wf r
  /\ size0 r = size0 t /\ size1 r = size1 t
  /\ (forall (b j : nat) row, items t !! b = Some row -> j < size1 t ->
      exists row', items r !! b = Some row' /\ row' !! j = row !! 0)
  /\ use_first_observation r = r.
Proof.
  intros [Hlen Hrows] Hn r. subst r.
  pose proof (size1_use_first_observation t) as H1.
  pose proof (items_use_first_observation t) as Hi.
  split; [| split; [reflexivity | split; [exact H1 | split]]].
  - split.
    + rewrite Hi, length_map. exact Hlen.
    + rewrite Hi, H1. apply Forall_map.
      eapply Forall_impl; [exact Hrows |]. intros row Hrow. cbn.
      rewrite concat_replicate_length, length_take, Hrow.
      rewrite Nat.min_l by exact Hn. lia.
  - intros b j row Hb Hj.
    exists (concat (replicate (size1 t) (take 1 row))). split.
    + rewrite Hi, list_lookup_fmap, Hb. reflexivity.
    + assert (Hrow : length row = size1 t).
      { apply (proj1 (Forall_lookup _ _) Hrows b row Hb). }
      destruct (lookup_lt_is_Some_2 row 0 ltac:(lia)) as [x Hx].
      rewrite (take_1_lookup row x Hx), concat_replicate_singleton, Hx.
      now apply lookup_replicate_2.
  - apply use_first_observation_idempotent.
Qed.

End Rows.

(** Two batch elements of three observations each. *)
Lemma use_first_observation_broadcasts_first_witness :
  let t := Tensor 2 3 [[10; 11; 12]; [20; 21; 22]] in
  use_first_observation t = Tensor 2 3 [[10; 10; 10]; [20; 20; 20]]
  /\ use_first_observation (use_first_observation t) = use_first_observation t.
Proof.
  intros t.
  destruct (use_first_observation_broadcasts_first t) as (_ & _ & _ & _ & Hidem).
  - split; [reflexivity | repeat constructor].
  - cbn. lia.
  - split; [reflexivity | exact Hidem].
Defined.

End TensorFacts.

(** ** The reconstruction driver: order of the calls *)
Module DriverFacts.
Import Py PosixPath Evaluation OutputPathsFacts.

Section Driver.
Context {inputs rendered cell FS : Type}.
Variable isdir : string -> FS -> bool.
Variable mkdir : string -> M FS unit.
Implicit Types (w : world rendered FS) (b : batch inputs)
  (model : model_t inputs rendered cell) (e : event rendered).

Lemma bind_emit {X} e (k : unit -> M (world rendered FS) X) w :
  (emit e ≫= k) w = k tt (World (w_heap w) (w_trace w ++ [e]) (w_disk w)).
Proof. reflexivity. Qed.

Lemma bind_lift_return {S X Y} (x : X) (k : X -> M S Y) (s : S) :
  (lift (Return x) ≫= k) s = k x s.
Proof. reflexivity. Qed.

Lemma bind_on_heap {X Y} (m : M heap X)
    (k : X -> M (world rendered FS) Y) w (h' : heap) (x : X) :
  m (w_heap w) = (h', Return x) ->
  (on_heap m ≫= k) w = k x (World h' (w_trace w) (w_disk w)).
Proof. intros Hm. rewrite bind_run. unfold on_heap. now rewrite Hm. Qed.

Lemma bind_on_disk {X Y} (m : M FS X)
    (k : X -> M (world rendered FS) Y) w :
  (on_disk m ≫= k) w =
    match m (w_disk w) with
    | (fs', Return x) => k x (World (w_heap w) (w_trace w) fs')
    | (fs', Raise e) => (World (w_heap w) (w_trace w) fs', Raise e)
    end.
Proof.
  rewrite bind_run. unfold on_disk.
  now destruct (m (w_disk w)) as [fs' [x | e]].
Qed.

(** *** Folders for the output paths *)

(** A folder is made for a path with a directory part when [mkdir] is
    not refused. *)
Lemma make_folder_returns (p : string) (fs : FS) :
  mkdir_returns mkdir -> parent_components p <> [] ->
  snd (make_folder isdir mkdir (PyStr p) fs) = Return tt.
Proof.
  intros Hmkdir Hp. unfold make_folder. rewrite bind_run.
  unfold directory_of. destruct (isdir p fs); [apply Hmkdir |].
  destruct (parent_components p) as [|c cs]; [congruence |].
  cbn [join_star]. apply Hmkdir.
Qed.

Lemma make_folders_returns (sh : list nat) (ps : list pyobj) (fs : FS) :
  mkdir_returns mkdir -> ps <> [] ->
  Forall (fun o => exists p : string,
            o = PyStr p /\ parent_components p <> []) ps ->
  snd (make_folders_for_output isdir mkdir (Ndarray sh ps) fs) = Return tt.
Proof.
  intros Hmkdir Hne Hps. unfold make_folders_for_output. cbn [data].
  rewrite (is_nil_false _ Hne). clear Hne. revert fs.
  induction Hps as [|o ps (p & -> & Hp) _ IH]; intros fs; [reflexivity |].
  rewrite for_each_cons_run.
  pose proof (make_folder_returns p fs Hmkdir Hp) as Hrun.
  destruct (make_folder isdir mkdir (PyStr p) fs) as [fs' r].
  cbn [snd] in Hrun. subst r. apply IH.
Qed.

(** The output paths of a batch that has a folder for each of them. *)
Lemma derived_in_folders (root : string) (d : list pyobj) :
  Forall is_str d ->
  (forall p : string, PyStr p ∈ d ->
     parent_components (derived_path root p) <> []) ->
  Forall (fun o => exists p : string,
            o = PyStr p /\ parent_components p <> [])
         (map (derived root) d).
Proof.
  intros Hstr Hdir. apply Forall_fmap, Forall_forall. intros o Ho.
  pose proof (proj1 (Forall_forall _ _) Hstr o Ho) as Hs.
  destruct o as [p |]; [| destruct Hs]. cbn [derived]. eauto.
Qed.

(** Replacing the four tensors keeps every key of the encoding. *)
Lemma use_first_observation_keys_run (keys : list string) :
  forall enc : gmap string (tensor cell),
  Forall (fun key => is_Some (enc !! key)) keys ->
  exists enc' : gmap string (tensor cell),
    use_first_observation_keys keys enc = Return enc'
    /\ forall key, is_Some (enc !! key) -> is_Some (enc' !! key).
Proof.
  induction keys as [|key keys IH]; intros enc Hkeys.
  - exists enc. split; [reflexivity | auto].
  - inversion Hkeys as [|? ? [t Ht] Hrest]; subst.
    cbn [use_first_observation_keys]. unfold getitem at 1. rewrite Ht.
    assert (Hkeep : forall k, is_Some (enc !! k) ->
                     is_Some (<[key := use_first_observation t]> enc !! k)).
    { intros k Hk. destruct (decide (key = k)) as [<- | Hne].
      - rewrite lookup_insert_eq. eauto.
      - now rewrite lookup_insert_ne. }
    destruct (IH (<[key := use_first_observation t]> enc)) as (enc' & Hrun & Hin).
    { eapply Forall_impl; [exact Hrest |]. intros k. apply Hkeep. }
    exists enc'. split; [exact Hrun | auto].
Qed.

Lemma getitem_run (enc : gmap string (tensor cell)) (key : string) :
  is_Some (enc !! key) -> exists t, getitem enc key = Return t.
Proof. intros [t Ht]. exists t. unfold getitem. now rewrite Ht. Qed.

(** One batch on which nothing raises: its five events are appended in
    order, the save carrying the derived paths, and the heap only grows. *)
Lemma reconstruct_batch_run (self : creator) model (n idx : nat) b w
    (a : ndarray) :
  mkdir_returns mkdir ->
  model_succeeds model b ->
  w_heap w !! observations_paths b = Some a ->
  data a <> [] -> Forall is_str (data a) ->
  (forall p : string, PyStr p ∈ data a ->
     parent_components (derived_path (output_root self) p) <> []) ->
  exists (r : rendered) (h' : heap) (fs' : FS),
    reconstruct_batch isdir mkdir self model n idx b w =
      (World h'
         (w_trace w ++
          batch_events n idx
            (r, Ndarray (shape a) (map (derived (output_root self)) (data a))))
         fs',
       Return tt)
    /\ w_heap w ⊆ h'.
Proof.
  intros Hmkdir (enc & Hcall & Hkeys & Hrender) Ha Hne Hstr Hdir.
  inversion Hkeys as [|? ? Hscene Hrep]; subst.
  destruct (use_first_observation_keys_run repeat_keys enc Hrep)
    as (enc' & Henc' & Hin).
  assert (Hrep' : Forall (fun key => is_Some (enc' !! key)) repeat_keys).
  { eapply Forall_impl; [exact Hrep |]. intros k. apply Hin. }
  unfold repeat_keys in Hrep'.
  inversion Hrep' as [|? ? H1 Hr1]; subst.
  inversion Hr1 as [|? ? H2 Hr2]; subst.
  inversion Hr2 as [|? ? H3 Hr3]; subst.
  inversion Hr3 as [|? ? H4 _]; subst.
  destruct (getitem_run enc' _ H1) as [t1 Ht1].
  destruct (getitem_run enc' _ H2) as [t2 Ht2].
  destruct (getitem_run enc' _ H3) as [t3 Ht3].
  destruct (getitem_run enc' _ H4) as [t4 Ht4].
  destruct (getitem_run enc' _ (Hin _ Hscene)) as [t5 Ht5].
  destruct (Hrender t1 t2 t3 t4 t5) as [r Hr].
  destruct (output_paths_run self (observations_paths b) (w_heap w) a Ha)
    as (h' & Hrun & Hfresh & Hframe & Hok).
  pose proof (translate_all_derived (output_root self) _ Hstr) as Hall.
  rewrite (is_nil_false _ Hne), Hall in Hrun. specialize (Hok _ Hne Hall).
  set (paths := Ndarray (shape a) (map (derived (output_root self)) (data a))).
  assert (Hfolders : snd (make_folders_for_output isdir mkdir paths (w_disk w))
                     = Return tt).
  { apply make_folders_returns; [exact Hmkdir | |].
    - intros E. apply Hne. now apply fmap_nil_inv in E.
    - now apply derived_in_folders. }
  destruct (make_folders_for_output isdir mkdir paths (w_disk w))
    as [fs' rf] eqn:Hmake.
  cbn [snd] in Hfolders. subst rf.
  exists r, h', fs'. split.
  - unfold reconstruct_batch.
    rewrite !bind_emit, Hcall, bind_lift_return, Henc', bind_lift_return.
    rewrite Ht1, bind_lift_return, Ht2, bind_lift_return.
    rewrite Ht3, bind_lift_return, Ht4, bind_lift_return.
    rewrite Ht5, bind_lift_return, bind_emit, Hr, bind_lift_return.
    rewrite (bind_on_heap _ _ _ h' (fresh (dom (w_heap w)))) by exact Hrun.
    rewrite (bind_on_heap _ _ _ h' paths).
    2:{ cbn [w_heap]. unfold array_value. rewrite Hok, lookup_insert_eq.
        reflexivity. }
    rewrite bind_emit, bind_on_disk. cbn [w_disk w_heap w_trace].
    rewrite Hmake. unfold emit, modify, batch_events.
    cbn [w_heap w_trace w_disk fst snd]. rewrite <- !app_assoc. reflexivity.
  - rewrite Hok. now apply insert_subseteq.
Qed.

(** The loop over the batches numbered from [k]. *)
Lemma reconstruct_loop_run (self : creator) model (n : nat)
    (bs : list (batch inputs)) :
  mkdir_returns mkdir ->
  forall (k : nat) w,
  Forall (fun b => model_succeeds model b /\ paths_stored (w_heap w) b
                   /\ paths_in_folders self (w_heap w) b) bs ->
  exists (w' : world rendered FS) (outs : list (rendered * ndarray)),
    for_each (zip (seq k (length bs)) bs)
      (fun '(batch_idx, b) =>
         reconstruct_batch isdir mkdir self model n batch_idx b) w =
      (w', Return tt)
    /\ length outs = length bs
    /\ w_trace w' =
         w_trace w ++ concat (imap (fun i => batch_events n (k + i)) outs)
    /\ w_heap w ⊆ w_heap w'
    /\ forall (i : nat) b, bs !! i = Some b ->
         exists (r : rendered) (a : ndarray),
           w_heap w !! observations_paths b = Some a
           /\ outs !! i =
                Some (r, Ndarray (shape a)
                           (map (derived (output_root self)) (data a))).
Proof.
  intros Hmkdir. induction bs as [|b bs IH]; intros k w Hbs.
  - exists w, []. cbn. rewrite app_nil_r.
    repeat split; [| intros i b' Hi; discriminate]. reflexivity.
  - inversion Hbs as [|? ? (Hmodel & (a & Ha & Hne & Hstr) & Hdir) Hrest]; subst.
    destruct (reconstruct_batch_run self model n k b w a Hmkdir Hmodel Ha Hne
                Hstr (fun p => Hdir a p Ha))
      as (r & h1 & fs1 & Hrun1 & Hsub1).
    set (out := (r, Ndarray (shape a) (map (derived (output_root self)) (data a)))).
    fold out in Hrun1.
    set (w1 := World h1 (w_trace w ++ batch_events n k out) fs1) in *.
    destruct (IH (S k) w1) as (w' & outs & Hrun & Hlen & Htrace & Hsub & Hout).
    { eapply Forall_impl; [exact Hrest |].
      intros b' (Hm & (a' & Ha' & Hne' & Hstr') & Hdir').
      pose proof (lookup_weaken _ _ _ _ Ha' Hsub1) as Ha1.
      split; [exact Hm |]. split.
      - exists a'. split; [exact Ha1 | now split].
      - intros a2 p Ha2. subst w1. cbn [w_heap] in Ha2.
        rewrite Ha1 in Ha2. injection Ha2 as <-. now apply Hdir'. }
    exists w', (out :: outs).
    split; [| split; [| split; [| split]]].
    + cbn [length seq zip zip_with]. rewrite for_each_cons_run, Hrun1.
      exact Hrun.
    + cbn [length]. now rewrite Hlen.
    + rewrite Htrace. subst w1. cbn [w_trace imap concat].
      rewrite <- app_assoc. rewrite Nat.add_0_r. do 3 f_equal.
      apply imap_ext. intros i x _. cbn. f_equal. lia.
    + etransitivity; [exact Hsub1 | exact Hsub].
    + intros [|i] b' Hi.
      * injection Hi as <-. exists r, a. split; [exact Ha | reflexivity].
      * cbn in Hi. destruct (Hout i b' Hi) as (r' & a' & Ha' & Hi').
        apply (proj1 (Forall_lookup _ _) Hrest) in Hi as (_ & (a0 & Ha0 & _) & _).
        pose proof (lookup_weaken _ _ _ _ Ha0 Hsub1) as Ha1.
        subst w1. cbn [w_heap] in Ha'. rewrite Ha1 in Ha'. injection Ha' as <-.
        exists r', a0. split; [exact Ha0 | exact Hi'].
Qed.

Lemma filter_batch_events (outs : list (rendered * ndarray)) :
  forall f : nat -> rendered * ndarray -> list (event rendered),
  (forall i out, List.filter is_subprocess_run (f i out) = []) ->
  List.filter is_subprocess_run (concat (imap f outs)) = [].
Proof.
  induction outs as [|out outs IH]; intros f Hf; [reflexivity |].
  cbn [imap concat]. rewrite List.filter_app, Hf. cbn [app].
  apply IH. intros i out'. apply Hf.
Qed.


End Driver.


End DriverFacts.

(** ** Flattening the camera folder *)
Module CameraFolderFacts.
Import Py PosixPath PosixPathFacts CameraFolder OutputPathsFacts.

(** *** The strings the function builds, and where they point *)

Lemma length_append (a b : string) :
  String.length (a +:+ b) = String.length a + String.length b.
Proof.
  induction a as [|c t IH]; [reflexivity |].
  rewrite append_cons. cbn [String.length]. now rewrite IH.
Qed.

Lemma join2_length (a b : string) :
  startswith_sep b = false ->
  String.length a + String.length b <= String.length (join2 a b)
  <= String.length a + String.length b + 1.
Proof.
  intros Hb.
  destruct (join2_cases a b Hb) as [[-> E] | [(_ & _ & E) | (_ & _ & E)]];
    rewrite E, ?length_append; cbn [String.length]; lia.
Qed.

Lemma entry_name_sep_free (n : string) :
  is_entry_name n = true -> sep_free n = true.
Proof. unfold is_entry_name. now intros [_ H]%andb_prop. Qed.

Lemma entry_name_nonempty (n : string) :
  is_entry_name n = true -> is_empty n = false.
Proof.
  unfold is_entry_name. intros [[[H _]%andb_prop _]%andb_prop _]%andb_prop.
  now apply negb_true_iff in H.
Qed.

Lemma camera_folder_name_valid : is_entry_name camera_folder_name = true.
Proof. reflexivity. Qed.

(** A path joined with an entry name is not empty and does not end with
    a slash. *)
Lemma join_entry_plain (d n : string) :
  is_entry_name n = true ->
  is_empty (join d [n]) = false /\ endswith_sep (join d [n]) = false.
Proof.
  intros Hn. pose proof (entry_name_sep_free n Hn) as Hf.
  pose proof (entry_name_nonempty n Hn) as He.
  pose proof (sep_free_endswith n Hf) as Hend.
  unfold join. cbn [fold_left].
  destruct (join2_cases d n (sep_free_startswith n Hf))
    as [[-> E] | [(Ed & _ & E) | (Ed & _ & E)]]; rewrite E.
  - now split.
  - rewrite is_empty_append, Ed, endswith_sep_append by exact He. now split.
  - rewrite is_empty_append, Ed, endswith_sep_append by reflexivity.
    rewrite endswith_sep_cons by exact He. now split.
Qed.

Lemma join_entry_longer (d n m : string) :
  is_entry_name n = true -> is_entry_name m = true ->
  join d [m] <> join (join d [n]) [m].
Proof.
  intros Hn Hm E. apply (f_equal String.length) in E.
  pose proof (sep_free_startswith _ (entry_name_sep_free n Hn)) as Hsn.
  pose proof (sep_free_startswith _ (entry_name_sep_free m Hm)) as Hsm.
  destruct (join_entry_plain d n Hn) as [He Hend].
  unfold join in *. cbn [fold_left] in *.
  rewrite (join2_plain (join2 d n) m Hsm He Hend) in E.
  rewrite length_append in E. cbn [String.length] in E.
  pose proof (join2_length d m Hsm). pose proof (join2_length d n Hsn).
  assert (1 <= String.length n).
  { destruct n; [discriminate | cbn; lia]. }
  lia.
Qed.

Lemma locate_camera_entry (path n : string) :
  is_entry_name n = true ->
  locate path (join (join path [camera_folder_name]) [n]) =
    Some (InCameraFolder n).
Proof.
  intros Hn. unfold locate.
  rewrite basename_join by now apply entry_name_sep_free.
  now rewrite Hn, String.eqb_refl.
Qed.

Lemma locate_path_entry (path n : string) :
  is_entry_name n = true -> locate path (join path [n]) = Some (InPath n).
Proof.
  intros Hn. unfold locate.
  rewrite basename_join by now apply entry_name_sep_free.
  rewrite Hn. cbn [negb].
  rewrite (proj2 (String.eqb_neq _ _))
    by (apply join_entry_longer; [reflexivity | exact Hn]).
  now rewrite String.eqb_refl.
Qed.

(** *** The calls, one at a time *)

Lemma camera_children_lookup (fs : listing) (ch : gmap string node) :
  camera_children fs = Some ch <-> fs !! camera_folder_name = Some (Dir ch).
Proof.
  unfold camera_children.
  destruct (fs !! camera_folder_name) as [[c | ch'] |]; split;
    intros E; try discriminate; now injection E as ->.
Qed.

(** The paths [glob] gives for a directory whose path is not empty and
    does not end with a slash start with that path. *)
Lemma glob_paths_plain (d : string) (names : list string) :
  is_empty d = false -> endswith_sep d = false ->
  glob_paths d names = map (fun n => join d [n]) names.
Proof.
  intros Hd Hend. unfold glob_paths. cbv zeta.
  now rewrite dirname_join_star.
Qed.

Lemma glob_star_run (path : string) (fs : listing) (ch : gmap string node) :
  camera_children fs = Some ch ->
  glob_star (join path [camera_folder_name]) fs =
    (fs, Return (map (fun n => join (join path [camera_folder_name]) [n])
                     (visible_names ch))).
Proof.
  intros Hch. unfold glob_star. rewrite Hch.
  destruct (join_entry_plain path _ camera_folder_name_valid) as [Hd Hend].
  now rewrite glob_paths_plain.
Qed.

Lemma glob_star_none (cfp : string) (fs : listing) :
  camera_children fs = None -> glob_star cfp fs = (fs, Return []).
Proof. intros Hch. unfold glob_star. now rewrite Hch. Qed.

Lemma visible_names_spec (ch : gmap string node) (n : string) :
  n ∈ visible_names ch <-> ishidden n = false /\ is_Some (ch !! n).
Proof.
  unfold visible_names. rewrite list_elem_of_filter, list_elem_of_fmap.
  split.
  - intros [Hv ([n' f] & -> & Hin)]. split; [exact Hv |].
    apply elem_of_map_to_list in Hin. eauto.
  - intros [Hv [f Hf]]. split; [exact Hv |].
    exists (n, f). split; [reflexivity |]. now apply elem_of_map_to_list.
Qed.

Lemma visible_names_NoDup (ch : gmap string node) : NoDup (visible_names ch).
Proof. apply NoDup_filter, NoDup_fst_map_to_list. Qed.

(** A file of the camera folder is moved to [path] under its name. *)
Lemma move_out_run (path : string) (fs : listing) (ch : gmap string node)
    (n : string) (f : node) :
  camera_children fs = Some ch ->
  is_entry_name n = true -> n <> camera_folder_name ->
  ch !! n = Some f -> replace_check f (fs !! n) = Return tt ->
  move_out path (join (join path [camera_folder_name]) [n]) fs =
    (<[n := f]> (<[camera_folder_name := Dir (delete n ch)]> fs), Return tt).
Proof.
  intros Hch Hn Hne Hf Hcheck. unfold move_out.
  rewrite basename_join by now apply entry_name_sep_free.
  unfold os_rename.
  rewrite (locate_camera_entry path n Hn), (locate_path_entry path n Hn).
  rewrite decide_False by discriminate.
  unfold rename_check. cbn [parent_check].
  rewrite (proj1 (camera_children_lookup fs ch) Hch). cbn [mbind result_bind].
  cbn [lookup_location]. rewrite Hch. cbn [mbind option_bind]. rewrite Hf.
  rewrite decide_False by congruence. rewrite Hcheck.
  cbn [mbind result_bind put_location remove_location]. rewrite Hch.
  reflexivity.
Qed.

(** An entry that is called like the camera folder cannot take its
    place: the folder is where the entry is. *)
Lemma move_out_camera_name (path : string) (fs : listing)
    (ch : gmap string node) (f : node) :
  camera_children fs = Some ch -> ch !! camera_folder_name = Some f ->
  move_out path (join (join path [camera_folder_name]) [camera_folder_name]) fs
    = (fs, Raise DirectoryNotEmpty).
Proof.
  intros Hch Hf. unfold move_out.
  rewrite basename_join by reflexivity. unfold os_rename.
  rewrite (locate_camera_entry path _ camera_folder_name_valid).
  rewrite (locate_path_entry path _ camera_folder_name_valid).
  rewrite decide_False by discriminate.
  unfold rename_check. cbn [parent_check].
  rewrite (proj1 (camera_children_lookup fs ch) Hch). cbn [mbind result_bind].
  cbn [lookup_location]. rewrite Hch. cbn [mbind option_bind]. rewrite Hf.
  now rewrite decide_True.
Qed.

(** One [rename] of the loop, whatever its outcome: the entry moves to
    [path], or the call is refused and nothing changes. *)
Lemma move_out_step (path : string) (fs : listing) (ch : gmap string node)
    (n : string) :
  camera_children fs = Some ch -> is_entry_name n = true ->
  (exists e : exn,
     move_out path (join (join path [camera_folder_name]) [n]) fs =
       (fs, Raise e))
  \/ (exists f : node,
        ch !! n = Some f /\ n <> camera_folder_name
        /\ move_out path (join (join path [camera_folder_name]) [n]) fs =
             (<[n := f]> (<[camera_folder_name := Dir (delete n ch)]> fs),
              Return tt)).
Proof.
  intros Hch Hn.
  destruct (ch !! n) as [f |] eqn:Hf.
  - destruct (decide (n = camera_folder_name)) as [-> | Hne].
    + left. eexists. now apply (move_out_camera_name path fs ch f).
    + destruct (replace_check f (fs !! n)) as [[] | e] eqn:Hcheck.
      * right. exists f. split; [reflexivity |]. split; [exact Hne |].
        now apply (move_out_run path fs ch n f).
      * left. exists e. unfold move_out.
        rewrite basename_join by now apply entry_name_sep_free.
        unfold os_rename.
        rewrite (locate_camera_entry path n Hn), (locate_path_entry path n Hn).
        rewrite decide_False by discriminate.
        unfold rename_check. cbn [parent_check].
        rewrite (proj1 (camera_children_lookup fs ch) Hch).
        cbn [mbind result_bind lookup_location]. rewrite Hch.
        cbn [mbind option_bind]. rewrite Hf.
        rewrite decide_False by congruence. now rewrite Hcheck.
  - left. exists FileNotFoundError. unfold move_out.
    rewrite basename_join by now apply entry_name_sep_free.
    unfold os_rename.
    rewrite (locate_camera_entry path n Hn), (locate_path_entry path n Hn).
    rewrite decide_False by discriminate.
    unfold rename_check. cbn [parent_check].
    rewrite (proj1 (camera_children_lookup fs ch) Hch).
    cbn [mbind result_bind lookup_location]. rewrite Hch.
    cbn [mbind option_bind]. now rewrite Hf.
Qed.

(** The loop, whatever its outcome: the camera folder stays a directory,
    and every entry it had at the start is in it still or has moved to
    [path]. *)
Lemma move_loop_outcome (path : string) (ch0 : gmap string node)
    (names : list string) :
  forall (fs : listing) (ch : gmap string node),
  camera_children fs = Some ch ->
  (forall n, n ∈ names -> is_entry_name n = true) ->
  ch ⊆ ch0 ->
  (forall n f, ch0 !! n = Some f ->
     (n <> camera_folder_name /\ fs !! n = Some f) \/ ch !! n = Some f) ->
  exists ch' : gmap string node,
    camera_children
      (fst (for_each
              (map (fun n => join (join path [camera_folder_name]) [n]) names)
              (move_out path) fs)) = Some ch'
    /\ forall n f, ch0 !! n = Some f ->
         (n <> camera_folder_name
          /\ fst (for_each
                    (map (fun n => join (join path [camera_folder_name]) [n])
                         names)
                    (move_out path) fs) !! n = Some f)
         \/ ch' !! n = Some f.
Proof.
  induction names as [|n names IH]; intros fs ch Hch Hnames Hsub Hinv.
  - exists ch. cbn [map]. rewrite for_each_nil_run. now split.
  - cbn [map]. rewrite for_each_cons_run.
    destruct (move_out_step path fs ch n Hch) as [[e Hstep] | (g & Hg & Hne & Hstep)];
      [apply Hnames; left | |]; rewrite Hstep.
    + exists ch. now split.
    + assert (Hch1 : camera_children
                       (<[n := g]> (<[camera_folder_name := Dir (delete n ch)]> fs))
                     = Some (delete n ch)).
      { apply camera_children_lookup.
        rewrite lookup_insert_ne by exact Hne. apply lookup_insert_eq. }
      apply (IH _ (delete n ch) Hch1).
      * intros m Hm. apply Hnames. now right.
      * etransitivity; [apply delete_subseteq | exact Hsub].
      * intros m f Hf. destruct (decide (m = n)) as [-> | Hmn].
        -- left. split; [exact Hne |]. rewrite lookup_insert_eq.
           pose proof (lookup_weaken _ _ _ _ Hg Hsub). congruence.
        -- destruct (Hinv m f Hf) as [[Hmc Hm] | Hm].
           ++ left. split; [exact Hmc |].
              now rewrite !lookup_insert_ne by congruence.
           ++ right. now rewrite lookup_delete_ne by congruence.
Qed.

(** The loop over the visible names: every one of them ends up in
    [path], the camera folder stays a directory, nothing else changes. *)
Lemma move_loop_run (path : string) (names : list string) :
  forall (fs : listing) (ch : gmap string node),
  camera_children fs = Some ch ->
  NoDup names ->
  (forall n, n ∈ names ->
     is_entry_name n = true /\ n <> camera_folder_name
     /\ exists f, ch !! n = Some f /\ replace_check f (fs !! n) = Return tt) ->
  exists (fs' : listing) (ch' : gmap string node),
    for_each (map (fun n => join (join path [camera_folder_name]) [n]) names)
      (move_out path) fs = (fs', Return tt)
    /\ camera_children fs' = Some ch'
    /\ (forall n, n ∈ names -> fs' !! n = ch !! n)
    /\ (forall n, n ∉ names -> n <> camera_folder_name -> fs' !! n = fs !! n).
Proof.
  induction names as [|n names IH]; intros fs ch Hch Hnd Hnames.
  - exists fs, ch. cbn [map]. rewrite for_each_nil_run.
    split; [reflexivity |]. split; [exact Hch |].
    split; [intros n Hn; now apply elem_of_nil in Hn | auto].
  - apply NoDup_cons in Hnd as [Hnotin Hnd].
    destruct (Hnames n) as (Hvalid & Hne & f & Hf & Hcheck); [left |].
    cbn [map]. rewrite for_each_cons_run.
    rewrite (move_out_run path fs ch n f Hch Hvalid Hne Hf Hcheck).
    set (fs1 := <[n := f]> (<[camera_folder_name := Dir (delete n ch)]> fs)).
    assert (Hch1 : camera_children fs1 = Some (delete n ch)).
    { apply camera_children_lookup. subst fs1.
      rewrite lookup_insert_ne by exact Hne. apply lookup_insert_eq. }
    assert (Hother : forall m, m <> n -> m <> camera_folder_name ->
                       fs1 !! m = fs !! m).
    { intros m Hmn Hmc. subst fs1.
      rewrite !lookup_insert_ne by congruence. reflexivity. }
    destruct (IH fs1 (delete n ch) Hch1 Hnd) as (fs' & ch' & Hrun & Hch' & Hin & Hout).
    { intros m Hm.
      destruct (Hnames m) as (Hmv & Hmc & g & Hg & Hgc); [now right |].
      assert (Hmn : m <> n) by (intros ->; contradiction).
      split; [exact Hmv |]. split; [exact Hmc |]. exists g. split.
      - now rewrite lookup_delete_ne.
      - now rewrite Hother. }
    exists fs', ch'. split; [exact Hrun |]. split; [exact Hch' |]. split.
    + intros m [-> | Hm]%elem_of_cons.
      * rewrite (Hout n Hnotin Hne). subst fs1. rewrite lookup_insert_eq.
        now symmetry.
      * rewrite (Hin m Hm). apply lookup_delete_ne. intros ->. contradiction.
    + intros m Hm Hmc. apply not_elem_of_cons in Hm as [Hmn Hm].
      rewrite (Hout m Hm Hmc). now apply Hother.
Qed.

Lemma shutil_rmtree_run (path : string) (fs : listing) (ch : gmap string node) :
  camera_children fs = Some ch ->
  shutil_rmtree path (join path [camera_folder_name]) fs =
    (delete camera_folder_name fs, Return tt).
Proof.
  intros Hch. unfold shutil_rmtree.
  rewrite (locate_path_entry path _ camera_folder_name_valid).
  cbn [lookup_location].
  now rewrite (proj1 (camera_children_lookup fs ch) Hch).
Qed.

(** *** The function *)

(** An entry of the camera folder that is itself called ["00000"] is in
    the way of the camera folder. *)
Lemma no_conflict_not_camera (fs : listing) (ch : gmap string node)
    (n : string) (f : node) :
  no_conflict fs -> camera_children fs = Some ch ->
  ch !! n = Some f -> ishidden n = false -> n <> camera_folder_name.
Proof.
  intros Hnc Hch Hf Hv ->. specialize (Hnc ch _ f Hch Hf Hv).
  rewrite (proj1 (camera_children_lookup fs ch) Hch) in Hnc.
  destruct f as [c | ch0]; cbn in Hnc; [discriminate |].
  destruct (decide (ch = ∅)) as [-> | _]; [| discriminate].
  now rewrite lookup_empty in Hf.
Qed.

(** A call on a directory whose camera folder is a directory and where
    no [rename] is refused: where the entries are afterwards. *)
Lemma remove_camera_folder_run (path : string) (fs : listing)
    (children : gmap string node) :
  camera_children fs = Some children ->
  camera_names_valid fs ->
  no_conflict fs ->
  exists fs' : listing,
    remove_camera_folder path fs = (fs', Return tt)
    /\ (forall n : string, n ∈ visible_names children -> fs' !! n = children !! n)
    /\ fs' !! camera_folder_name = None
    /\ (forall n : string,
          n <> camera_folder_name -> n ∉ visible_names children ->
          fs' !! n = fs !! n).
Proof.
  intros Hch Hvalid Hnc.
  assert (Hcam : forall n, n ∈ visible_names children -> n <> camera_folder_name).
  { intros n [Hv [f Hf]]%visible_names_spec.
    now apply (no_conflict_not_camera fs children n f). }
  destruct (move_loop_run path (visible_names children) fs children Hch
              (visible_names_NoDup children))
    as (fs1 & ch1 & Hloop & Hch1 & Hin & Hout).
  { intros n Hn. pose proof (Hcam n Hn) as Hne.
    apply visible_names_spec in Hn as [Hv [f Hf]].
    split; [apply (Hvalid children n Hch); eauto |].
    split; [exact Hne |].
    exists f. split; [exact Hf | now apply (Hnc children)]. }
  exists (delete camera_folder_name fs1). split; [| split; [| split]].
  - unfold remove_camera_folder.
    rewrite bind_run, (glob_star_run path fs children Hch).
    rewrite bind_run, Hloop.
    apply (shutil_rmtree_run path fs1 ch1 Hch1).
  - intros n Hn. rewrite lookup_delete_ne by (apply not_eq_sym; now apply Hcam).
    now apply Hin.
  - apply lookup_delete_eq.
  - intros n Hne Hnot. rewrite lookup_delete_ne by congruence.
    now apply Hout.
Qed.

(** A call that raises, on a directory whose camera folder is a
    directory: the exception comes from a [rename], the camera folder is
    still there, and every entry it had is in it or in [path]. *)
Lemma remove_camera_folder_refused (path : string) (fs fs' : listing)
    (children : gmap string node) (e : exn) :
  camera_children fs = Some children ->
  camera_names_valid fs ->
  remove_camera_folder path fs = (fs', Raise e) ->
  exists children' : gmap string node,
    camera_children fs' = Some children'
    /\ forall (n : string) (f : node), children !! n = Some f ->
         (n <> camera_folder_name /\ fs' !! n = Some f)
         \/ children' !! n = Some f.
Proof.
  intros Hch Hvalid Hrun.
  destruct (move_loop_outcome path children (visible_names children) fs
              children Hch)
    as (ch' & Hch' & Hinv).
  { intros n [_ Hn]%visible_names_spec. now apply (Hvalid children). }
  { reflexivity. }
  { intros n f Hf. now right. }
  unfold remove_camera_folder in Hrun.
  rewrite bind_run, (glob_star_run path fs children Hch) in Hrun.
  rewrite bind_run in Hrun.
  destruct (for_each _ (move_out path) fs) as [fs1 [[] | e1]];
    cbn [fst] in Hch', Hinv.
  - rewrite (shutil_rmtree_run path fs1 ch' Hch') in Hrun. discriminate.
  - injection Hrun as <- _. exists ch'. now split.
Qed.




(** Entries whose name starts with a dot are not found by [glob]: they
    are not moved, and go with the camera folder. *)
Lemma remove_camera_folder_drops_hidden_entries :
  remove_camera_folder "videos/0001"
    {["00000" := Dir {[".hidden" := File "x"]}]} = (∅, Return tt).
Proof. vm_compute. reflexivity. Qed.

(** *** Failures *)

Lemma for_each_app_raise {S X} (body : X -> M S unit) (done : list X) :
  forall (x : X) (rest : list X) (s s1 s2 : S) (e : exn),
  for_each done body s = (s1, Return tt) ->
  body x s1 = (s2, Raise e) ->
  for_each (done ++ x :: rest) body s = (s2, Raise e).
Proof.
  induction done as [|y done IH]; intros x rest s s1 s2 e Hdone Hx.
  - rewrite for_each_nil_run in Hdone. injection Hdone as <-.
    cbn [app]. now rewrite for_each_cons_run, Hx.
  - cbn [app]. rewrite for_each_cons_run in *.
    destruct (body y s) as [s' [[] | e']]; [| discriminate].
    now apply (IH x rest s' s1 s2 e).
Qed.

Lemma glob_star_state (cfp : string) (fs : listing) :
  fst (glob_star cfp fs) = fs.
Proof. unfold glob_star. now destruct (camera_children fs). Qed.

(** C5. No failure is caught.  With [all_files] what [glob] found: the
    first [rename] that fails ends the call with its exception, the
    entries moved before it staying moved; when every [rename] succeeds
    and [rmtree] fails, the call ends with that exception; and the call
    returns normally only if every one of these calls did. *)
Theorem remove_camera_folder_propagates_errors
    (path : string) (fs : listing) (all_files : list string) :
  snd (glob_star (join path [camera_folder_name]) fs) = Return all_files ->
  (forall (done : list string) (current_file : string) (rest : list string)
          (fs1 fs2 : listing) (e : exn),
     all_files = done ++ current_file :: rest ->
     for_each done (move_out path) fs = (fs1, Return tt) ->
     move_out path current_file fs1 = (fs2, Raise e) ->
     remove_camera_folder path fs = (fs2, Raise e))
  /\ (forall (fs1 fs2 : listing) (e : exn),
       for_each all_files (move_out path) fs = (fs1, Return tt) ->
       shutil_rmtree path (join path [camera_folder_name]) fs1 = (fs2, Raise e) ->
       remove_camera_folder path fs = (fs2, Raise e))
  /\ (forall fs' : listing,
       remove_camera_folder path fs = (fs', Return tt) ->
       exists fs1 : listing,
         for_each all_files (move_out path) fs = (fs1, Return tt)
         /\ shutil_rmtree path (join path [camera_folder_name]) fs1 =
              (fs', Return tt)).
Proof.
  intros Hglob.
  assert (Hrun : forall k : unit -> M listing unit,
            (glob_star (join path [camera_folder_name]) ≫=
               (fun all_files => for_each all_files (move_out path) ≫= k)) fs =
            (for_each all_files (move_out path) ≫= k) fs).
  { intros k. rewrite bind_run.
    pose proof (glob_star_state (join path [camera_folder_name]) fs) as Hst.
    destruct (glob_star (join path [camera_folder_name]) fs) as [fs0 r].
    cbn [fst snd] in *. subst fs0 r. reflexivity. }
  unfold remove_camera_folder. split; [| split].
  - intros done current_file rest fs1 fs2 e -> Hdone Hcur.
    rewrite Hrun, bind_run.
    now rewrite (for_each_app_raise _ done current_file rest fs fs1 fs2 e).
  - intros fs1 fs2 e Hloop Hrm. now rewrite Hrun, bind_run, Hloop.
  - intros fs' Hret. rewrite Hrun, bind_run in Hret.
    destruct (for_each all_files (move_out path) fs) as [fs1 [[] | e]];
      [| discriminate].
    exists fs1. split; [reflexivity | exact Hret].
Qed.

(** A frame that cannot replace a non-empty directory of the same name:
    the call ends with [IsADirectoryError], nothing moved or removed. *)
Lemma remove_camera_folder_propagates_errors_witness :
  let fs : listing :=
    {["00000" := Dir {["a.png" := File "new"]};
      "a.png" := Dir {["old.png" := File "old"]}]} in
  remove_camera_folder "videos/0001" fs = (fs, Raise IsADirectoryError).
Proof.
  intros fs.
  refine (proj1 (remove_camera_folder_propagates_errors "videos/0001" fs
                   ["videos/0001/00000/a.png"] _)
                [] "videos/0001/00000/a.png" [] fs fs IsADirectoryError _ _ _).
  - vm_compute. reflexivity.
  - reflexivity.
  - reflexivity.
  - vm_compute. reflexivity.
Defined.

(** Without a camera folder nothing is moved and [rmtree] fails. *)
Lemma remove_camera_folder_missing (path : string) (fs : listing) :
  fs !! camera_folder_name = None ->
  remove_camera_folder path fs = (fs, Raise FileNotFoundError).
Proof.
  intros Hnone.
  assert (Hch : camera_children fs = None).
  { unfold camera_children. now rewrite Hnone. }
  unfold remove_camera_folder.
  rewrite bind_run, (glob_star_none _ fs Hch), bind_run, for_each_nil_run.
  unfold shutil_rmtree.
  rewrite (locate_path_entry path _ camera_folder_name_valid).
  cbn [lookup_location]. now rewrite Hnone.
Qed.

End CameraFolderFacts.

(** ** The command line of the flattening script *)
Module ArgParseFacts.
Import Py ArgParse.

(** *** Parser errors are exits with status 2, help exits with status 0 *)

Lemma get_option_tuples_raise (c0 c1 : ascii) (tail : string) (e : exn) :
  get_option_tuples (String c0 (String c1 tail)) = Raise e -> e = SystemExit 2.
Proof.
  unfold get_option_tuples.
  destruct (is_prefix_char c0 && is_prefix_char c1).
  - destruct (split_eq (String c0 (String c1 tail))) as [[p x] |]; discriminate.
  - destruct (is_prefix_char c0); [discriminate | now intros [= <-]].
Qed.

Lemma parse_optional_raise (arg_string : string) (e : exn) :
  parse_optional arg_string = Raise e -> e = SystemExit 2.
Proof.
  unfold parse_optional. destruct arg_string as [|c0 rest]; [discriminate |].
  destruct (negb (is_prefix_char c0)); [discriminate |].
  destruct (find_option (String c0 rest)); [discriminate |].
  destruct rest as [|c1 tail]; [discriminate |].
  cbn [String.eqb].
  destruct (match split_eq (String c0 (String c1 tail)) with
            | Some (option_string, explicit_arg) =>
                match find_option option_string with
                | Some a => Some (Some a, option_string, Some explicit_arg)
                | None => None
                end
            | None => None
            end); [discriminate |].
  destruct (get_option_tuples (String c0 (String c1 tail))) as [ts | e'] eqn:E.
  - cbn [mbind result_bind]. destruct ts as [|t [|t' ts]].
    + destruct (negative_number _); [discriminate |].
      destruct (has_space _); discriminate.
    + discriminate.
    + now intros [= <-].
  - cbn [mbind result_bind]. intros [= <-].
    now apply get_option_tuples_raise in E.
Qed.

Lemma scan_raise (arg_strings : list string) (e : exn) :
  scan arg_strings = Raise e -> e = SystemExit 2.
Proof.
  induction arg_strings as [|a rest IH]; cbn [scan]; [discriminate |].
  destruct (String.eqb a "--"); [discriminate |].
  destruct (parse_optional a) as [t | e'] eqn:E; cbn [mbind result_bind].
  - destruct (scan rest) as [r | e']; cbn [mbind result_bind]; [discriminate |].
    intros [= <-]. now apply IH.
  - intros [= <-]. now apply parse_optional_raise in E.
Qed.

(** Every option letter of the pattern comes from an argument that
    [_parse_optional] read that way. *)
Lemma scan_options (arg_strings : list string) :
  forall (tokens : list (string * pattern)) (arg : string) (t : option_tuple),
  scan arg_strings = Return tokens ->
  (arg, O t) ∈ tokens ->
  arg ∈ arg_strings /\ parse_optional arg = Return (Some t).
Proof.
  induction arg_strings as [|a rest IH]; intros tokens arg t; cbn [scan].
  - intros [= <-] Hin. now apply elem_of_nil in Hin.
  - destruct (String.eqb a "--").
    + intros [= <-] [Hin | Hin]%elem_of_cons; [discriminate |].
      apply list_elem_of_fmap in Hin as (x & Hx & _). discriminate.
    + destruct (parse_optional a) as [ta |] eqn:Ea; cbn [mbind result_bind];
        [| discriminate].
      destruct (scan rest) as [r |] eqn:Er; cbn [mbind result_bind];
        [| discriminate].
      intros [= <-] [Hin | Hin]%elem_of_cons.
      * injection Hin as -> Ht. split; [left |].
        destruct ta as [t' |]; [| discriminate]. now injection Ht as ->.
      * destruct (IH r arg t eq_refl Hin) as [Hm Hp].
        split; [now right | exact Hp].
Qed.

Lemma take_actions_help (args : list string)
    (rest : list (action * list string)) (namespace : option value) :
  take_actions ((Help, args) :: rest) namespace = Raise (SystemExit 0).
Proof. reflexivity. Qed.

Lemma take_actions_raise (action_tuples : list (action * list string)) :
  forall (namespace : option value) (e : exn),
  take_actions action_tuples namespace = Raise e ->
  e = SystemExit 0 \/ e = SystemExit 2.
Proof.
  induction action_tuples as [|[a args] rest IH]; intros ns e;
    cbn [take_actions]; [discriminate |].
  destruct a; [intros [= <-]; now left |].
  apply IH.
Qed.

(** Without a help action among them, the tuples are stores: the
    namespace they leave holds a directory. *)
Lemma take_actions_return (action_tuples : list (action * list string)) :
  forall (namespace namespace' : option value),
  take_actions action_tuples namespace = Return namespace' ->
  Forall (fun t => fst t = StoreDirectory) action_tuples
  /\ (action_tuples <> [] -> is_Some namespace').
Proof.
  induction action_tuples as [|[a args] rest IH]; intros ns ns';
    cbn [take_actions].
  - intros _. split; [constructor | congruence].
  - destruct a; [discriminate |].
    intros Hrest. destruct (IH _ _ Hrest) as [Hall Hsome].
    split; [constructor; [reflexivity | exact Hall] |].
    intros _. destruct rest as [|t rest']; [| apply Hsome; discriminate].
    cbn in Hrest. injection Hrest as <-. eauto.
Qed.

Lemma explicit_chain_raise (explicit_arg : string) :
  forall (a : action) (option_string : string)
         (action_tuples : list (action * list string)) (e : exn),
  explicit_chain a option_string explicit_arg action_tuples = Raise e ->
  e = SystemExit 2.
Proof.
  induction explicit_arg as [|c new_explicit_arg IH];
    intros a option_string action_tuples e; cbn [explicit_chain];
    destruct (nargs a) as [|[|n]]; try discriminate;
    try (intros [= <-]; reflexivity).
  - destruct (match option_string with
              | String _ (String c1 _) => negb (is_prefix_char c1)
              | _ => false
              end); intros [= <-]; reflexivity.
  - destruct (match option_string with
              | String _ (String c1 _) => negb (is_prefix_char c1)
              | _ => false
              end); [| intros [= <-]; reflexivity].
    destruct (find_option (String "-" (String c ""))) as [a' |];
      [| intros [= <-]; reflexivity].
    destruct new_explicit_arg as [|c' e']; [discriminate |].
    apply IH.
Qed.

(** The tuples a chain collects start with the option it started from. *)
Lemma explicit_chain_head (explicit_arg : string) :
  forall (a : action) (option_string : string)
         (action_tuples tuples : list (action * list string))
         (last : option action),
  explicit_chain a option_string explicit_arg action_tuples =
    Return (tuples, last) ->
  exists (args : list string) (rest : list (action * list string)),
    tuples = action_tuples ++ (a, args) :: rest.
Proof.
  induction explicit_arg as [|c new_explicit_arg IH];
    intros a option_string action_tuples tuples last; cbn [explicit_chain];
    destruct (nargs a) as [|[|n]]; try discriminate;
    try (intros [= <- <-]; eauto).
  - destruct (match option_string with
              | String _ (String c1 _) => negb (is_prefix_char c1)
              | _ => false
              end); discriminate.
  - destruct (match option_string with
              | String _ (String c1 _) => negb (is_prefix_char c1)
              | _ => false
              end); [| discriminate].
    destruct (find_option (String "-" (String c ""))) as [a' |];
      [| discriminate].
    destruct new_explicit_arg as [|c' e'].
    + intros [= <- <-]. eauto.
    + intros Hrec. destruct (IH _ _ _ _ _ Hrec) as (args & rest & ->).
      rewrite <- app_assoc. cbn [app]. eauto.
Qed.

(** *** The main loop *)

(** An option that the loop gets past is a store: help, and every chain
    of single-dash flags, starts with the help action and exits. *)
Lemma consume_option_return (arg_string : string) (a : action)
    (option_string : string) (explicit_arg : option string)
    (rest : list (string * pattern)) (namespace : option value)
    (extras : list string) (r : option value * list string) :
  consume ((arg_string, O (Some a, option_string, explicit_arg)) :: rest)
    namespace extras = Return r ->
  a = StoreDirectory.
Proof.
  cbn [consume]. destruct explicit_arg as [e |].
  - destruct (explicit_chain a option_string e []) as [[tuples last] |] eqn:E;
      [| discriminate].
    destruct (explicit_chain_head _ _ _ _ _ _ E) as (args & more & ->).
    cbn [app]. destruct a; [| reflexivity].
    destruct last as [last |]; [| cbn; discriminate].
    destruct (nargs last); [cbn; discriminate |].
    destruct rest as [|[v [| |]] rest']; cbn; discriminate.
  - destruct a; [cbn; discriminate | reflexivity].
Qed.

Lemma consume_return_directory (tokens : list (string * pattern)) :
  forall (namespace : option value) (extras : list string)
         (directory : value) (extras' : list string),
  consume tokens namespace extras = Return (Some directory, extras') ->
  is_Some namespace
  \/ exists arg option_string explicit_arg,
       (arg, O (Some StoreDirectory, option_string, explicit_arg)) ∈ tokens.
Proof.
  induction tokens as [|[arg p] rest IH]; intros ns ex d ex' Hret.
  - cbn in Hret. injection Hret as -> _. left. eauto.
  - destruct p as [| [[[a |] option_string] explicit_arg] |].
    + destruct (IH _ _ _ _ Hret) as [? | (a' & os & e & Hin)]; [now left |].
      right. exists a', os, e. now right.
    + pose proof (consume_option_return _ _ _ _ _ _ _ _ Hret) as ->.
      right. exists arg, option_string, explicit_arg. left.
    + destruct (IH _ _ _ _ Hret) as [? | (a' & os & e & Hin)]; [now left |].
      right. exists a', os, e. now right.
    + destruct (IH _ _ _ _ Hret) as [? | (a' & os & e & Hin)]; [now left |].
      right. exists a', os, e. now right.
Qed.

Lemma consume_raise (n : nat) :
  forall (tokens : list (string * pattern)), length tokens <= n ->
  forall (namespace : option value) (extras : list string) (e : exn),
  consume tokens namespace extras = Raise e ->
  e = SystemExit 0 \/ e = SystemExit 2.
Proof.
  induction n as [|n IH]; intros tokens Hlen ns ex e.
  { destruct tokens; [discriminate | cbn in Hlen; lia]. }
  destruct tokens as [|[arg p] rest]; [discriminate |].
  cbn [length] in Hlen.
  assert (Hrest : forall ns' ex', consume rest ns' ex' = Raise e ->
                    e = SystemExit 0 \/ e = SystemExit 2)
    by (intros ns' ex'; apply IH; lia).
  destruct p as [| [[[a |] option_string] explicit_arg] |]; cbn [consume];
    try apply Hrest.
  assert (Htake : forall ts (k : option value -> result (option value * list string)),
            (forall ns', k ns' = Raise e -> e = SystemExit 0 \/ e = SystemExit 2) ->
            match take_actions ts ns with
            | Return ns' => k ns'
            | Raise e' => Raise e'
            end = Raise e -> e = SystemExit 0 \/ e = SystemExit 2).
  { intros ts k Hk. destruct (take_actions ts ns) as [ns' | e'] eqn:Et.
    - apply Hk.
    - intros [= <-]. now apply take_actions_raise in Et. }
  destruct (match explicit_arg with
            | Some e0 => explicit_chain a option_string e0 []
            | None => Return ([], Some a)
            end) as [[tuples last] | e'] eqn:Echain.
  - destruct last as [last |].
    + destruct (nargs last).
      * apply (Htake _ (fun ns' => consume rest ns' ex)). intros ns'. apply Hrest.
      * destruct rest as [|[v [| t |]] rest'];
          try (intros [= <-]; now right).
        apply (Htake _ (fun ns' => consume rest' ns' ex)). intros ns'.
        apply IH. cbn [length] in Hlen. lia.
    + apply (Htake _ (fun ns' => consume rest ns' ex)). intros ns'. apply Hrest.
  - intros [= <-]. right. destruct explicit_arg as [e0 |]; [| discriminate].
    now apply explicit_chain_raise in Echain.
Qed.

(** With no known option among the tokens nothing is stored and every
    string goes to the extras. *)
Lemma consume_no_option (tokens : list (string * pattern)) :
  forall (namespace : option value) (extras : list string),
  (forall arg a option_string explicit_arg,
     (arg, O (Some a, option_string, explicit_arg)) ∉ tokens) ->
  consume tokens namespace extras =
    Return (namespace, extras ++ map fst tokens).
Proof.
  induction tokens as [|[arg p] rest IH]; intros ns ex Hno.
  - cbn. now rewrite app_nil_r.
  - assert (Hrest : forall arg a option_string explicit_arg,
              (arg, O (Some a, option_string, explicit_arg)) ∉ rest).
    { intros arg' a os e Hin. apply (Hno arg' a os e). now right. }
    destruct p as [| [[[a |] option_string] explicit_arg] |]; cbn [consume].
    + rewrite (IH _ _ Hrest). cbn [map fst]. now rewrite <- app_assoc.
    + exfalso. apply (Hno arg a option_string explicit_arg). left.
    + rewrite (IH _ _ Hrest). cbn [map fst]. now rewrite <- app_assoc.
    + rewrite (IH _ _ Hrest). cbn [map fst]. now rewrite <- app_assoc.
Qed.

(** *** The parser *)

Lemma find_option_spec (s : string) (a : action) :
  find_option s = Some a ->
  (a = Help /\ (s = "-h" \/ s = "--help"))
  \/ (a = StoreDirectory /\ s = "--directory").
Proof.
  unfold find_option, option_string_actions. cbn [List.find fst].
  destruct (String.eqb_spec "-h" s) as [<- |];
    [intros [= <-]; left; split; [reflexivity | now left] |].
  destruct (String.eqb_spec "--help" s) as [<- |];
    [intros [= <-]; left; split; [reflexivity | now right] |].
  destruct (String.eqb_spec "--directory" s) as [<- |];
    [intros [= <-]; right; split; reflexivity | discriminate].
Qed.

Lemma get_option_tuples_registered (s : string) (ts : list option_tuple) :
  get_option_tuples s = Return ts ->
  Forall (fun t => exists a e, t = (Some a, snd (fst t), e)
                               /\ find_option (snd (fst t)) = Some a) ts.
Proof.
  unfold get_option_tuples. destruct s as [|c0 [|c1 tail]]; try discriminate.
  destruct (is_prefix_char c0 && is_prefix_char c1).
  - destruct (match split_eq (String c0 (String c1 tail)) with
              | Some (p, e) => (p, Some e)
              | None => (String c0 (String c1 tail), None)
              end) as [option_prefix explicit_arg].
    intros [= <-]. unfold option_string_actions. cbn [flat_map app].
    repeat match goal with
           | |- context [if ?b then _ else _] => destruct b
           end; cbn [app]; repeat constructor; eexists _, _; split; reflexivity.
  - destruct (is_prefix_char c0); [| discriminate].
    intros [= <-]. unfold option_string_actions. cbn [flat_map app].
    repeat match goal with
           | |- context [if ?b then _ else _] => destruct b
           end; cbn [app]; repeat constructor; eexists _, _; split; reflexivity.
Qed.

(** What is read as an option names one of the registered option
    strings: those of help, or [--directory]. *)
Lemma parse_optional_registered (arg : string) (a : action)
    (option_string : string) (explicit_arg : option string) :
  parse_optional arg = Return (Some (Some a, option_string, explicit_arg)) ->
  find_option option_string = Some a.
Proof.
  unfold parse_optional. destruct arg as [|c0 rest]; [discriminate |].
  destruct (negb (is_prefix_char c0)); [discriminate |].
  destruct (find_option (String c0 rest)) as [a0 |] eqn:Efull.
  { intros [= <- <- _]. exact Efull. }
  destruct (String.eqb rest ""); [discriminate |].
  destruct (split_eq (String c0 rest)) as [[os0 e0] |].
  - destruct (find_option os0) as [a0 |] eqn:Eos.
    + intros [= <- <- _]. exact Eos.
    + destruct (get_option_tuples (String c0 rest)) as [ts |] eqn:Ets;
        cbn [mbind result_bind]; [| discriminate].
      apply get_option_tuples_registered in Ets.
      destruct ts as [|t [|t' ts]]; [| | discriminate].
      * destruct (negative_number _); [discriminate |].
        destruct (has_space _); discriminate.
      * intros [= ->]. inversion Ets as [|? ? (a1 & e1 & Ht & Hf) _]; subst.
        cbn [fst snd] in *. now injection Ht as <- _.
  - destruct (get_option_tuples (String c0 rest)) as [ts |] eqn:Ets;
      cbn [mbind result_bind]; [| discriminate].
    apply get_option_tuples_registered in Ets.
    destruct ts as [|t [|t' ts]]; [| | discriminate].
    + destruct (negative_number _); [discriminate |].
      destruct (has_space _); discriminate.
    + intros [= ->]. inversion Ets as [|? ? (a1 & e1 & Ht & Hf) _]; subst.
      cbn [fst snd] in *. now injection Ht as <- _.
Qed.

Lemma selects_true (a : action) (arg option_string : string)
    (explicit_arg : option string) :
  parse_optional arg = Return (Some (Some a, option_string, explicit_arg)) ->
  selects a arg = true.
Proof. intros H. unfold selects. rewrite H. now destruct a. Qed.

Lemma parse_args_return (argv : list string) (directory : value) :
  parse_args argv = Return directory ->
  Exists (fun arg => selects StoreDirectory arg = true) argv.
Proof.
  unfold parse_args.
  destruct (scan argv) as [tokens |] eqn:Escan; cbn [mbind result_bind];
    [| discriminate].
  destruct (consume tokens None []) as [[ns extras] |] eqn:Econs;
    cbn [mbind result_bind]; [| discriminate].
  destruct ns as [d |]; [| discriminate]. intros _.
  destruct (consume_return_directory _ _ _ _ _ Econs)
    as [[? [=]] | (arg & os & e & Hin)].
  destruct (scan_options _ _ _ _ Escan Hin) as [Hmem Hp].
  apply Exists_exists. exists arg. split; [exact Hmem |].
  now apply (selects_true _ _ os e).
Qed.

Lemma parse_args_raise (argv : list string) (e : exn) :
  parse_args argv = Raise e -> e = SystemExit 0 \/ e = SystemExit 2.
Proof.
  unfold parse_args.
  destruct (scan argv) as [tokens | e'] eqn:Escan; cbn [mbind result_bind].
  - destruct (consume tokens None []) as [[ns extras] | e'] eqn:Econs;
      cbn [mbind result_bind].
    + destruct ns as [d |]; [| intros [= <-]; now right].
      destruct extras; [discriminate | intros [= <-]; now right].
    + intros [= <-]. now apply (consume_raise _ tokens (le_n _)) in Econs.
  - intros [= <-]. right. now apply scan_raise in Escan.
Qed.




End ArgParseFacts.

(** ** The AdaIn layers *)
Module AdaInFacts.
Import Py AdaInLayer.

Section Layers.
Context {A : Type} `{Scalar A}.
Implicit Types (m : list (list A)) (t : list A).

(** *** Slice assignment and the initial bias *)

Lemma fill_to_length (n : nat) (v : A) t : length (fill_to n v t) = length t.
Proof.
  unfold fill_to. rewrite length_app, length_replicate, length_drop. lia.
Qed.

Lemma fill_bias (n : nat) (one zero : A) t :
  length t = 2 * n ->
  fill_from n zero (fill_to n one t) = replicate n one ++ replicate n zero.
Proof.
  intros Hlen. unfold fill_from. rewrite fill_to_length, Hlen.
  unfold fill_to. rewrite Hlen.
  replace (Nat.min n (2 * n)) with n by lia.
  rewrite take_app_length' by now rewrite length_replicate.
  f_equal. f_equal. lia.
Qed.

(** C10. After construction the bias of the affine transform is
    [in_features] ones followed by [in_features] zeros: the scale entries
    are 1 and the bias entries are 0. *)
Theorem init_bias_ones_then_zeros (in_features style_features : nat)
    (fresh : linear A) (batch_norm : list (list A) -> result (list (list A))) :
  length (bias fresh) = 2 * in_features ->
  let b := bias (affine_transform
                   (AffineTransformAdaIn_init in_features style_features
                      fresh batch_norm)) in
  b = replicate in_features s_one ++ replicate in_features s_zero
  /\ (forall i : nat, i < in_features -> b !! i = Some s_one)
  /\ (forall i : nat, in_features <= i < 2 * in_features -> b !! i = Some s_zero).
Proof.
  intros Hlen b. subst b. unfold AffineTransformAdaIn_init.
  cbn [affine_transform bias]. rewrite (fill_bias _ _ _ _ Hlen).
  split; [reflexivity |]. split.
  - intros i Hi. rewrite lookup_app_l by now rewrite length_replicate.
    now apply lookup_replicate_2.
  - intros i Hi. rewrite lookup_app_r by (rewrite length_replicate; lia).
    rewrite length_replicate. apply lookup_replicate_2. lia.
Qed.

(** *** Cells of pointwise results and of chunks *)

Lemma cell_pointwise (op : A -> A -> A) m1 m2 (i j : nat) (x y : A) :
  cell m1 i j = Some x -> cell m2 i j = Some y ->
  cell (pointwise op m1 m2) i j = Some (op x y).
Proof.
  unfold cell, pointwise. intros H1 H2. rewrite lookup_zip_with.
  destruct (m1 !! i) as [r1 |]; [| discriminate].
  destruct (m2 !! i) as [r2 |]; [| discriminate].
  cbn in *. rewrite lookup_zip_with, H1, H2. reflexivity.
Qed.

Lemma pointwise_shape (op : A -> A -> A) m1 m2 (rows cols : nat) :
  has_shape rows cols m1 -> has_shape rows cols m2 ->
  has_shape rows cols (pointwise op m1 m2).
Proof.
  unfold has_shape, pointwise. intros [L1 F1] [L2 F2]. split.
  - rewrite length_zip_with. lia.
  - apply Forall_lookup. intros i r Hr.
    apply lookup_zip_with_Some in Hr as (r1 & r2 & -> & H1 & H2).
    rewrite length_zip_with.
    rewrite (proj1 (Forall_lookup _ _) F1 _ _ H1).
    rewrite (proj1 (Forall_lookup _ _) F2 _ _ H2). lia.
Qed.

(** C4. [AdaIn.forward] normalizes first and rescales after: when the
    normalization raises so does the layer; otherwise the output is the
    normalized input times [scale] plus [bias], entry by entry, and has
    the shape the three tensors share. *)
Theorem AdaIn_forward_rescales_normalized (self : AdaIn A)
    (input scale bias : list (list A)) :
  match normalization self input with
  | Raise e => AdaIn_forward self input scale bias = Raise e
  | Return normalized =>
      exists out : list (list A),
        AdaIn_forward self input scale bias = Return out
        /\ (forall (i j : nat) (x s b : A),
              cell normalized i j = Some x ->
              cell scale i j = Some s ->
              cell bias i j = Some b ->
              cell out i j = Some (s_add (s_mul x s) b))
        /\ (forall rows cols : nat,
              has_shape rows cols normalized ->
              has_shape rows cols scale ->
              has_shape rows cols bias ->
              has_shape rows cols out)
  end.
Proof.
  unfold AdaIn_forward.
  destruct (normalization self input) as [normalized | e];
    cbn [mbind result_bind]; [| reflexivity].
  eexists. split; [reflexivity |]. split.
  - intros i j x s b Hx Hs Hb.
    apply cell_pointwise; [| exact Hb]. now apply cell_pointwise.
  - intros rows cols Hn Hs Hb. now repeat apply pointwise_shape.
Qed.

(** *** The affine transform of the style and its two halves *)

Lemma cell_linear_forward (l : linear A) (style : list (list A)) (i k : nat)
    (srow wrow : list A) (bk : A) :
  style !! i = Some srow -> weight l !! k = Some wrow -> bias l !! k = Some bk ->
  cell (linear_forward l style) i k = Some (s_add (dot srow wrow) bk).
Proof.
  intros Hs Hw Hb. unfold cell, linear_forward.
  rewrite list_lookup_fmap, Hs. cbn.
  rewrite lookup_zip_with, list_lookup_fmap, Hw, Hb. reflexivity.
Qed.

Lemma cell_map_row (g : list A -> list A) m (i j k : nat) :
  (forall row, g row !! j = row !! k) ->
  cell (map g m) i j = cell m i k.
Proof.
  intros Hg. unfold cell. rewrite list_lookup_fmap.
  destruct (m !! i) as [row |]; [cbn; apply Hg | reflexivity].
Qed.

(** [chunk(2, 1)] of a tensor with [2 * f] columns unpacks, to the
    columns below [f] and the columns from [f] on. *)
Lemma chunk_halves (f : nat) m :
  exists scale bias : list (list A),
    unpack2 (chunk 2 (2 * f) m) = Return (scale, bias)
    /\ (forall i j : nat, j < f -> cell scale i j = cell m i j)
    /\ (forall i j : nat, j < f -> cell bias i j = cell m i (f + j)).
Proof.
  unfold chunk.
  replace ((2 * f + 2 - 1) / 2) with f
    by (apply (Nat.div_unique _ 2 f 1); lia).
  destruct f as [|f].
  - cbn. eexists _, _. split; [reflexivity |]. split; intros i j Hj; lia.
  - replace (Nat.eqb (S f) 0) with false by reflexivity. cbn [andb].
    replace ((2 * S f + S f - 1) / S f) with 2
      by (apply (Nat.div_unique _ (S f) 2 f); lia).
    cbn [Nat.max seq map]. eexists _, _. split; [reflexivity |]. split.
    + intros i j Hj. apply cell_map_row. intros row.
      rewrite Nat.mul_0_l, drop_0. now apply lookup_take_lt.
    + intros i j Hj. apply cell_map_row. intros row.
      rewrite Nat.mul_1_l, lookup_take_lt by exact Hj. apply lookup_drop.
Qed.

(** C1, as the layer has it.  The batch normalization comes first and is
    applied to the input alone; its result is then multiplied by the
    first half of the affine image of the style and added to the second
    half.  With [2 * f] output features in the affine transform, entry
    [(i, j)] of the output is
    [normalized[i][j] * (style[i] . W[j] + b[j]) + (style[i] . W[f+j] + b[f+j])]. *)
Theorem AffineTransformAdaIn_forward_normalizes_then_rescales
    (self : AffineTransformAdaIn A) (input style : list (list A)) (f : nat) :
  out_features (affine_transform self) = 2 * f ->
  match normalization (ada_in self) input with
  | Raise e => AffineTransformAdaIn_forward self input style = Raise e
  | Return normalized =>
      exists out : list (list A),
        AffineTransformAdaIn_forward self input style = Return out
        /\ forall (i j : nat) (x : A) (srow w_scale w_bias : list A)
                  (b_scale b_bias : A),
             j < f ->
             cell normalized i j = Some x ->
             style !! i = Some srow ->
             weight (affine_transform self) !! j = Some w_scale ->
             bias (affine_transform self) !! j = Some b_scale ->
             weight (affine_transform self) !! (f + j) = Some w_bias ->
             bias (affine_transform self) !! (f + j) = Some b_bias ->
             cell out i j =
               Some (s_add (s_mul x (s_add (dot srow w_scale) b_scale))
                           (s_add (dot srow w_bias) b_bias))
  end.
Proof.
  intros Hout. unfold AffineTransformAdaIn_forward. rewrite Hout.
  destruct (chunk_halves f (linear_forward (affine_transform self) style))
    as (scale & shift & -> & Hscale & Hshift).
  cbn [mbind result_bind]. unfold AdaIn_forward.
  destruct (normalization (ada_in self) input) as [normalized | e];
    cbn [mbind result_bind]; [| reflexivity].
  eexists. split; [reflexivity |].
  intros i j x srow w_scale w_bias b_scale b_bias Hj Hx Hs Hws Hbs Hwb Hbb.
  apply cell_pointwise; [apply cell_pointwise; [exact Hx |] |].
  - rewrite (Hscale i j Hj). now apply cell_linear_forward.
  - rewrite (Hshift i j Hj). now apply cell_linear_forward.
Qed.

End Layers.

(** *** Runs on integers, with a normalization that changes nothing *)

Lemma init_bias_ones_then_zeros_witness :
  bias (affine_transform
          (AffineTransformAdaIn_init 2 3
             (Linear [[1; 2; 3]; [4; 5; 6]; [7; 8; 9]; [1; 1; 1]]%Z
                     [7; 8; 9; 10]%Z)
             Return)) = [1; 1; 0; 0]%Z.
Proof.
  refine (proj1 (init_bias_ones_then_zeros 2 3
                   (Linear [[1; 2; 3]; [4; 5; 6]; [7; 8; 9]; [1; 1; 1]]%Z
                           [7; 8; 9; 10]%Z) Return _)).
  reflexivity.
Defined.

Lemma AdaIn_forward_rescales_normalized_witness :
  exists out : list (list Z),
    AdaIn_forward (MkAdaIn Return) [[1; 2]]%Z [[3; 4]]%Z [[5; 6]]%Z = Return out
    /\ cell out 0 1 = Some 14%Z.
Proof.
  destruct (AdaIn_forward_rescales_normalized (MkAdaIn Return)
              [[1; 2]]%Z [[3; 4]]%Z [[5; 6]]%Z) as (out & Hrun & Hcell & _).
  exists out. split; [exact Hrun |].
  apply (Hcell 0 1 2%Z 4%Z 6%Z); reflexivity.
Defined.

Lemma AffineTransformAdaIn_forward_normalizes_then_rescales_witness :
  let layer :=
    AffineTransformAdaIn_init 1 1 (Linear [[2]; [3]]%Z [0; 0]%Z) Return in
  exists out : list (list Z),
    AffineTransformAdaIn_forward layer [[4]]%Z [[5]]%Z = Return out
    /\ cell out 0 0 = Some 59%Z.
Proof.
  intros layer.
  destruct (AffineTransformAdaIn_forward_normalizes_then_rescales layer
              [[4]]%Z [[5]]%Z 1 eq_refl) as (out & Hrun & Hcell).
  exists out. split; [exact Hrun |].
  apply (Hcell 0 0 4%Z [5]%Z [2]%Z [3]%Z 1%Z 0%Z); solve [reflexivity | lia].
Defined.

(** *** The order of the two steps matters *)

(** C1 as stated fails: on real numbers, with batch normalization in
    training mode, a layer of one feature whose affine transform gives
    scale 1 and bias 5 on the style [5] maps the batch [1, 3] to values
    whose sum is 10, while normalizing after the affine transformation
    gives values whose sum is 0. *)
Lemma forward_is_not_normalization_after_affine :
  let layer :=
    AffineTransformAdaIn_init 1 1 (Linear [[0]; [1]]%R [0; 0]%R) batch_norm1d in
  AffineTransformAdaIn_forward layer [[1]; [3]]%R [[5]; [5]]%R
  <> normalization_after_affine layer [[1]; [3]]%R [[5]; [5]]%R.
Proof.
  intros layer H.
  cbv [layer AffineTransformAdaIn_forward normalization_after_affine
       AffineTransformAdaIn_init affine_transform ada_in normalization
       linear_forward out_features bias weight fill_to fill_from chunk unpack2
       AdaIn_forward pointwise dot batch_norm1d column mean variance rsum
       mbind result_bind s_add s_mul s_zero s_one R_scalar
       map zip_with foldr imap length replicate take drop app seq
       Nat.min Nat.max Nat.leb Nat.eqb Nat.add Nat.sub Nat.mul Nat.div
       Nat.divmod fst snd andb nth INR] in H.
  injection H as H1 H2. unfold Rdiv in H1, H2.
  repeat match type of H1 with
         | context [Rinv (sqrt ?a)] => set (Rinv (sqrt a)) in H1, H2
         end.
  lra.
Qed.

End AdaInFacts.

(** ** Paths in normal form *)
Module NormalPathFacts.
Import Py PosixPath PosixPathFacts Evaluation Folders.

Lemma is_name_inv (c : string) :
  is_name c = true ->
  is_empty c = false /\ c <> "." /\ c <> ".." /\ sep_free c = true.
Proof.
  unfold is_name. intros Hc.
  apply andb_prop in Hc as [Hc Hfree]. apply andb_prop in Hc as [Hc Hdd].
  apply andb_prop in Hc as [Hne Hd].
  apply negb_true_iff in Hne, Hd, Hdd.
  repeat split; [exact Hne | | | exact Hfree].
  - intros ->. discriminate.
  - intros ->. discriminate.
Qed.

Lemma is_name_startswith (c : string) :
  is_name c = true -> startswith_sep c = false.
Proof. intros Hc. apply sep_free_startswith. now apply is_name_inv. Qed.

Lemma names_sep_free (comps : list string) :
  names comps -> Forall (fun c => sep_free c = true) comps.
Proof.
  intros Hall. apply (Forall_impl _ _ _ Hall).
  intros c Hc. now apply is_name_inv.
Qed.

Lemma names_app (a b : list string) : names (a ++ b) <-> names a /\ names b.
Proof. apply Forall_app. Qed.

Lemma sep_join_cons (c : string) (rest : list string) :
  rest <> [] -> sep_join (c :: rest) = c +:+ String sep (sep_join rest).
Proof. destruct rest; [congruence | reflexivity]. Qed.

Lemma sep_join_snoc (comps : list string) (c : string) :
  comps <> [] -> sep_join (comps ++ [c]) = sep_join comps +:+ String sep c.
Proof.
  induction comps as [|x comps IH]; [congruence |]. intros _.
  destruct comps as [|y comps]; [reflexivity |].
  change ((x :: y :: comps) ++ [c]) with (x :: ((y :: comps) ++ [c])).
  rewrite sep_join_cons by (destruct comps; discriminate).
  rewrite IH by discriminate.
  rewrite (sep_join_cons x (y :: comps)) by discriminate.
  rewrite append_assoc, append_cons. reflexivity.
Qed.

Lemma split_sep_sep_join (comps : list string) :
  comps <> [] -> Forall (fun c => sep_free c = true) comps ->
  split_sep (sep_join comps) = comps.
Proof.
  induction comps as [|x comps IH]; [congruence |]. intros _ Hall.
  apply Forall_cons in Hall as [Hx Hall].
  destruct comps as [|y comps]; [now apply split_sep_sep_free |].
  rewrite sep_join_cons by discriminate.
  rewrite split_sep_append, IH by (discriminate || exact Hall).
  now rewrite split_sep_sep_free.
Qed.

Lemma sep_join_names (comps : list string) :
  comps <> [] -> names comps ->
  is_empty (sep_join comps) = false
  /\ startswith_sep (sep_join comps) = false
  /\ endswith_sep (sep_join comps) = false.
Proof.
  induction comps as [|x comps IH] using rev_ind; [congruence |].
  intros _ [Hcomps Hx]%names_app. apply Forall_inv in Hx.
  destruct (is_name_inv x Hx) as (Hne & _ & _ & Hfree).
  destruct comps as [|y comps].
  - cbn. repeat split; [exact Hne | now apply sep_free_startswith
                        | now apply sep_free_endswith].
  - destruct (IH ltac:(discriminate) Hcomps) as (Hne' & Hs' & He').
    rewrite sep_join_snoc by discriminate.
    repeat split.
    + rewrite is_empty_append, Hne'. reflexivity.
    + rewrite startswith_sep_append by exact Hne'. exact Hs'.
    + rewrite endswith_sep_append by reflexivity.
      rewrite endswith_sep_cons by exact Hne. now apply sep_free_endswith.
Qed.

Lemma sep_repeat_append (k : nat) (a b : string) :
  sep_repeat k a +:+ b = sep_repeat k (a +:+ b).
Proof.
  induction k as [|k IH]; [reflexivity |].
  cbn [sep_repeat]. now rewrite append_cons, IH.
Qed.

Lemma sep_repeat_is_empty (k : nat) (s : string) :
  is_empty s = false -> is_empty (sep_repeat k s) = false.
Proof. destruct k; [trivial | reflexivity]. Qed.

Lemma sep_repeat_endswith (k : nat) (s : string) :
  is_empty s = false -> endswith_sep (sep_repeat k s) = endswith_sep s.
Proof.
  intros Hs. induction k as [|k IH]; [reflexivity |].
  cbn [sep_repeat]. rewrite endswith_sep_cons; [exact IH |].
  now apply sep_repeat_is_empty.
Qed.

Lemma split_sep_sep_repeat (k : nat) (s : string) :
  split_sep (sep_repeat k s) = replicate k "" ++ split_sep s.
Proof.
  induction k as [|k IH]; [reflexivity |].
  cbn [sep_repeat replicate app]. cbn [split_sep].
  replace (is_sep sep) with true by reflexivity. now rewrite IH.
Qed.

Lemma initial_slashes_sep_repeat (k : nat) (s : string) :
  k <= 2 -> startswith_sep s = false ->
  initial_slashes (sep_repeat k s) = k.
Proof.
  intros Hk Hs.
  destruct k as [|[|[|k]]]; [| | | lia]; cbn [sep_repeat].
  - destruct s as [|c s]; [reflexivity |]. cbn in Hs |- *. now rewrite Hs.
  - destruct s as [|c s]; [reflexivity |]. cbn in Hs |- *. now rewrite Hs.
  - cbn. now rewrite Hs.
Qed.

(** The loop of [normpath] keeps names, and skips empty components. *)
Lemma fold_normpath_names (k : nat) (comps : list string) :
  names comps ->
  forall acc : list string,
    fold_left (normpath_step k) comps acc = acc ++ comps.
Proof.
  induction comps as [|c comps IH]; intros Hall acc.
  - now rewrite app_nil_r.
  - apply Forall_cons in Hall as [Hc Hall].
    destruct (is_name_inv c Hc) as (Hne & Hd & Hdd & _).
    cbn [fold_left]. rewrite (IH Hall).
    unfold normpath_step.
    replace (String.eqb c "") with false
      by (symmetry; apply String.eqb_neq; intros ->; discriminate).
    replace (String.eqb c ".") with false
      by (symmetry; now apply String.eqb_neq).
    replace (String.eqb c "..") with false
      by (symmetry; now apply String.eqb_neq).
    cbn. now rewrite <- app_assoc.
Qed.

Lemma fold_normpath_empties (k n : nat) (comps acc : list string) :
  fold_left (normpath_step k) (replicate n "" ++ comps) acc =
  fold_left (normpath_step k) comps acc.
Proof. induction n as [|n IH]; [reflexivity | exact IH]. Qed.

Lemma split_sep_normal_path (k : nat) (comps : list string) :
  comps <> [] -> names comps ->
  split_sep (normal_path k comps) = replicate k "" ++ comps.
Proof.
  intros Hne Hall. unfold normal_path.
  rewrite split_sep_sep_repeat, split_sep_sep_join;
    [reflexivity | exact Hne | now apply names_sep_free].
Qed.

(** [normpath] leaves a path in normal form as it is. *)
Lemma normpath_normal_path (k : nat) (comps : list string) :
  k <= 2 -> comps <> [] -> names comps ->
  normpath (normal_path k comps) = normal_path k comps.
Proof.
  intros Hk Hne Hall.
  destruct (sep_join_names comps Hne Hall) as (Hne' & Hs & _).
  unfold normpath.
  rewrite (sep_repeat_is_empty k _ Hne' : is_empty (normal_path k comps) = false).
  cbv zeta.
  rewrite (initial_slashes_sep_repeat k _ Hk Hs
             : initial_slashes (normal_path k comps) = k).
  rewrite split_sep_normal_path by assumption.
  rewrite fold_normpath_empties, fold_normpath_names by exact Hall.
  cbn [app]. now rewrite (sep_repeat_is_empty k _ Hne').
Qed.

(** Joining names to a path in normal form adds components. *)
Lemma join_normal_path (k : nat) (cs : list string) :
  forall comps : list string,
  comps <> [] -> names comps -> names cs ->
  join (normal_path k comps) cs = normal_path k (comps ++ cs).
Proof.
  induction cs as [|c cs IH]; intros comps Hne Hall Hcs.
  - now rewrite app_nil_r.
  - apply Forall_cons in Hcs as [Hc Hcs].
    destruct (sep_join_names comps Hne Hall) as (Hne' & _ & He).
    unfold join. cbn [fold_left].
    rewrite join2_plain;
      [| now apply is_name_startswith
       | now apply sep_repeat_is_empty
       | unfold normal_path; now rewrite sep_repeat_endswith].
    unfold normal_path. rewrite sep_repeat_append.
    rewrite <- sep_join_snoc by exact Hne.
    change (join (normal_path k (comps ++ [c])) cs =
            normal_path k (comps ++ c :: cs)).
    rewrite (IH (comps ++ [c])).
    + now rewrite <- app_assoc.
    + destruct comps; discriminate.
    + apply names_app. split; [exact Hall | now constructor].
    + exact Hcs.
Qed.

End NormalPathFacts.

(** ** Output paths: elements that are not paths, the root, a second
    translation *)
Module OutputPathsMore.
Import Py PosixPath PosixPathFacts Evaluation OutputPathsFacts.
Import Folders NormalPathFacts.

Lemma translate_all_none (root : string) (d : list pyobj) :
  PyNone ∈ d -> translate_all root d = Raise TypeError.
Proof.
  induction d as [|o d IH]; intros Hin; [now apply elem_of_nil in Hin |].
  apply elem_of_cons in Hin as [<- | Hin]; [reflexivity |].
  cbn [translate_all]. destruct o as [p |]; [| reflexivity].
  rewrite translate_path_str. cbn [mbind result_bind].
  now rewrite (IH Hin).
Qed.

(** X1. An array that holds [None] somewhere, which the docstring allows
    for an observation that is not stored on disk, makes the method raise
    [TypeError]; the array passed in is left as it was. *)
Theorem output_paths_none_raises (self : creator) (h : heap) (l : loc)
    (a : ndarray) :
  h !! l = Some a -> PyNone ∈ data a ->
  exists h' : heap,
    output_paths_from_observations_paths self l h = (h', Raise TypeError)
    /\ h' !! l = Some a.
Proof.
  intros Hl Hin.
  destruct (output_paths_run self l h a Hl) as (h' & Hrun & Hfresh & Hframe & _).
  assert (Hne : data a <> []) by (intros E; rewrite E in Hin; inversion Hin).
  rewrite (is_nil_false _ Hne), (translate_all_none _ _ Hin) in Hrun.
  exists h'. split; [exact Hrun |].
  rewrite Hframe; [exact Hl |]. intros ->. congruence.
Qed.

Lemma output_paths_none_raises_witness :
  let self := Creator "results" "datasets" "test" in
  let a := Ndarray [1; 2; 1] [PyStr "data/seq/00000/7.png"; PyNone] in
  exists h' : heap,
    output_paths_from_observations_paths self 3 {[3 := a]} =
      (h', Raise TypeError)
    /\ h' !! 3 = Some a.
Proof.
  intros self a.
  apply (output_paths_none_raises self {[3 := a]} 3 a).
  - reflexivity.
  - cbn [data]. right. left.
Defined.

Lemma prefix_append (r a : string) : String.prefix r (r +:+ a) = true.
Proof.
  induction r as [|c r IH]; [now destruct a |].
  rewrite append_cons. cbn [String.prefix].
  destruct (ascii_dec c c); [exact IH | congruence].
Qed.

Lemma prefix_append_r (r a x : string) :
  String.prefix r a = true -> String.prefix r (a +:+ x) = true.
Proof.
  revert a. induction r as [|c r IH]; intros a Hp.
  - now destruct (a +:+ x).
  - destruct a as [|c' a]; [discriminate |].
    rewrite append_cons. cbn [String.prefix] in Hp |- *.
    destruct (ascii_dec c c'); [now apply IH | discriminate].
Qed.

Lemma prefix_join (r : string) (cs : list string) :
  Forall (fun c => startswith_sep c = false) cs ->
  forall a : string, String.prefix r a = true ->
  String.prefix r (join a cs) = true.
Proof.
  induction cs as [|c cs IH]; intros Hall a Hp; [exact Hp |].
  apply Forall_cons in Hall as [Hc Hall].
  unfold join. cbn [fold_left]. apply (IH Hall).
  rewrite (join2_relative a c Hc).
  destruct (is_empty a || endswith_sep a); now apply prefix_append_r.
Qed.

Lemma derived_path_prefix (root p : string) :
  String.prefix root (derived_path root p) = true.
Proof.
  unfold derived_path. apply prefix_join.
  - pose proof (last_three_components (normpath p)) as Hall.
    apply (Forall_impl _ _ _ Hall). intros c. apply sep_free_startswith.
  - rewrite <- (append_empty_r root) at 2. apply prefix_append.
Qed.

Lemma output_paths_return (self : creator) (h h' : heap) (l l' : loc) :
  output_paths_from_observations_paths self l h = (h', Return l') ->
  exists a : ndarray,
    h !! l = Some a
    /\ h' !! l' =
         Some (Ndarray (shape a) (map (derived (output_root self)) (data a)))
    /\ Forall is_str (data a).
Proof.
  intros Hrun. destruct (h !! l) as [a |] eqn:Hl.
  - exists a. split; [reflexivity |].
    destruct (output_paths_run self l h a Hl) as (h1 & Hrun1 & _ & _ & Hok).
    rewrite Hrun in Hrun1.
    destruct (is_nil (data a)) eqn:Hnil; [discriminate |].
    assert (Hne : data a <> []) by (intros E; now rewrite E in Hnil).
    destruct (translate_all (output_root self) (data a)) as [ds |] eqn:Hds;
      [| discriminate].
    injection Hrun1 as -> ->.
    apply translate_all_inv in Hds as Hinv. destruct Hinv as [Hstr ->].
    split; [| exact Hstr].
    rewrite (Hok _ Hne eq_refl). apply lookup_insert_eq.
  - unfold output_paths_from_observations_paths in Hrun.
    rewrite bind_run in Hrun. unfold array_copy in Hrun.
    rewrite Hl in Hrun. discriminate.
Qed.

Lemma derived_under (root : string) (d : list pyobj) :
  Forall is_str d ->
  Forall (fun o => exists q : string,
            o = PyStr q /\ String.prefix root q = true)
         (map (derived root) d).
Proof.
  intros Hstr. apply Forall_fmap. apply (Forall_impl _ _ _ Hstr).
  intros [p |] Hp; [| destruct Hp]. cbn.
  exists (derived_path root p).
  split; [reflexivity | apply derived_path_prefix].
Qed.

(** X2. Every path of the array the method returns starts with
    [output_root]: the last three components are appended to it, none of
    them can replace it. *)
Theorem output_paths_start_with_output_root (self : creator) (h h' : heap)
    (l l' : loc) :
  output_paths_from_observations_paths self l h = (h', Return l') ->
  exists a' : ndarray,
    h' !! l' = Some a'
    /\ Forall (fun o => exists q : string,
                 o = PyStr q /\ String.prefix (output_root self) q = true)
              (data a').
Proof.
  intros Hrun.
  destruct (output_paths_return self h h' l l' Hrun) as (a & _ & Hl' & Hstr).
  eexists. split; [exact Hl' |]. cbn [data]. now apply derived_under.
Qed.

Lemma output_paths_start_with_output_root_witness :
  let self := Creator "/mnt/results" "datasets" "test" in
  let a := Ndarray [1; 1; 2]
             [PyStr "data/seq_0001/00000/00012.png"; PyStr "../x.png"] in
  exists (l' : loc) (h' : heap) (a' : ndarray),
    output_paths_from_observations_paths self 0 {[0 := a]} = (h', Return l')
    /\ h' !! l' = Some a'
    /\ Forall (fun o => exists q : string,
                 o = PyStr q /\ String.prefix "/mnt/results/test" q = true)
              (data a').
Proof.
  intros self a.
  destruct (output_paths_from_observations_paths self 0 {[0 := a]})
    as [h' [l' | e]] eqn:Hrun; [| vm_compute in Hrun; discriminate].
  destruct (output_paths_start_with_output_root self {[0 := a]} h' 0 l' Hrun)
    as (a' & Hl' & Hall).
  exists l', h', a'. split; [reflexivity |]. split; [exact Hl' | exact Hall].
Defined.

Lemma last_three_app (pre : list string) (s c f : string) :
  last_three (pre ++ [s; c; f]) = [s; c; f].
Proof.
  unfold last_three. rewrite length_app. cbn [length].
  replace (length pre + 3 - 3) with (length pre) by lia.
  now rewrite drop_app_length.
Qed.

Lemma derived_path_names (k : nat) (rs pre : list string) (p s c f : string) :
  rs <> [] -> names rs ->
  split_sep (normpath p) = pre ++ [s; c; f] -> names [s; c; f] ->
  derived_path (normal_path k rs) p = normal_path k (rs ++ [s; c; f]).
Proof.
  intros Hne Hrs Hp Hscf. unfold derived_path.
  rewrite Hp, last_three_app. now apply join_normal_path.
Qed.

Lemma derived_twice (k : nat) (rs : list string) (o : pyobj) :
  k <= 2 -> rs <> [] -> names rs -> ends_in_names o ->
  derived (normal_path k rs) (derived (normal_path k rs) o) =
  derived (normal_path k rs) o.
Proof.
  intros Hk Hne Hrs (p & pre & s & c & f & -> & Hp & Hscf).
  cbn [derived]. f_equal.
  rewrite (derived_path_names k rs pre p s c f) by assumption.
  assert (Hall : names (rs ++ [s; c; f])) by now apply names_app.
  assert (Hne' : rs ++ [s; c; f] <> []) by (destruct rs; discriminate).
  apply (derived_path_names k rs (replicate k "" ++ rs)); try assumption.
  rewrite normpath_normal_path by assumption.
  rewrite split_sep_normal_path by assumption.
  now rewrite app_assoc.
Qed.

(** X3. Translating translated paths changes nothing: when
    [output_root] is in normal form and every path of the array, which
    has at least one element, ends in a sequence, a camera and a file
    name, the method applied to the array it returned gives an array
    with the same shape and paths. *)
Theorem output_paths_twice (self : creator) (h : heap) (l : loc) (a : ndarray)
    (k : nat) (rs : list string) :
  k <= 2 -> rs <> [] -> names rs -> output_root self = normal_path k rs ->
  h !! l = Some a -> data a <> [] -> Forall ends_in_names (data a) ->
  exists (l1 l2 : loc) (h1 h2 : heap) (a' : ndarray),
    output_paths_from_observations_paths self l h = (h1, Return l1)
    /\ output_paths_from_observations_paths self l1 h1 = (h2, Return l2)
    /\ h1 !! l1 = Some a' /\ h2 !! l2 = Some a'.
Proof.
  intros Hk Hne Hrs Hroot Hl Hdata Hall.
  assert (Hstr : Forall is_str (data a)).
  { apply (Forall_impl _ _ _ Hall). now intros o (p & ? & ? & ? & ? & -> & _). }
  destruct (output_paths_run self l h a Hl) as (h1 & Hrun1 & _ & _ & Hok1).
  rewrite (is_nil_false _ Hdata) in Hrun1.
  rewrite (translate_all_derived _ _ Hstr) in Hrun1, Hok1.
  specialize (Hok1 _ Hdata eq_refl).
  set (a' := Ndarray (shape a) (map (derived (output_root self)) (data a))) in *.
  assert (Hl1 : h1 !! fresh (dom h) = Some a')
    by (rewrite Hok1; apply lookup_insert_eq).
  assert (Hstr' : Forall is_str (data a')).
  { cbn [a' data]. apply Forall_fmap. apply (Forall_impl _ _ _ Hstr).
    now intros [p |]. }
  assert (Hdata' : data a' <> []).
  { cbn [a' data]. intros E. apply Hdata. now apply fmap_nil_inv in E. }
  destruct (output_paths_run self _ h1 a' Hl1) as (h2 & Hrun2 & _ & _ & Hok2).
  rewrite (is_nil_false _ Hdata') in Hrun2.
  rewrite (translate_all_derived _ _ Hstr') in Hrun2, Hok2.
  specialize (Hok2 _ Hdata' eq_refl).
  exists (fresh (dom h)), (fresh (dom h1)), h1, h2, a'.
  split; [exact Hrun1 |]. split; [exact Hrun2 |]. split; [exact Hl1 |].
  rewrite Hok2, lookup_insert_eq. f_equal. unfold a'. cbn [shape data].
  f_equal. rewrite <- list_fmap_compose. apply Forall_fmap_ext_1.
  apply (Forall_impl _ _ _ Hall). intros o Ho. unfold compose.
  rewrite Hroot. now apply derived_twice.
Qed.

Lemma output_paths_twice_witness :
  let self := Creator "results" "datasets" "test" in
  let a := Ndarray [1; 1; 2]
             [PyStr "data/seq_0001/00000/00012.png";
              PyStr "/mnt//data/seq_0001/./00001/00012.png"] in
  exists (l1 l2 : loc) (h1 h2 : heap) (a' : ndarray),
    output_paths_from_observations_paths self 0 {[0 := a]} = (h1, Return l1)
    /\ output_paths_from_observations_paths self l1 h1 = (h2, Return l2)
    /\ h1 !! l1 = Some a' /\ h2 !! l2 = Some a'.
Proof.
  intros self a.
  apply (output_paths_twice self {[0 := a]} 0 a 0 ["results"; "test"]).
  - lia.
  - discriminate.
  - repeat constructor.
  - reflexivity.
  - reflexivity.
  - discriminate.
  - repeat constructor.
    + exists "data/seq_0001/00000/00012.png", ["data"],
        "seq_0001", "00000", "00012.png".
      split; [reflexivity |]. split; [reflexivity | repeat constructor].
    + exists "/mnt//data/seq_0001/./00001/00012.png", [""; "mnt"; "data"],
        "seq_0001", "00001", "00012.png".
      split; [reflexivity |]. split; [reflexivity | repeat constructor].
Defined.

End OutputPathsMore.

(** ** [make_folders_for_output]: the directory asked for *)
Module FoldersFacts.
Import Py PosixPath PosixPathFacts Evaluation OutputPathsFacts.
Import Folders NormalPathFacts OutputPathsMore.

Lemma join_relative (cs : list string) :
  Forall (fun c => startswith_sep c = false) cs ->
  forall a : string, startswith_sep a = false ->
  startswith_sep (join a cs) = false.
Proof.
  induction cs as [|c cs IH]; intros Hall a Ha; [exact Ha |].
  apply Forall_cons in Hall as [Hc Hall].
  unfold join. cbn [fold_left]. apply (IH Hall).
  now apply join2_relative_startswith.
Qed.

Lemma Forall_removelast {X} (P : X -> Prop) (l : list X) :
  Forall P l -> Forall P (removelast l).
Proof.
  induction 1 as [|x l Hx Hl IH]; [constructor |].
  destruct l; [constructor |]. cbn [removelast]. now constructor.
Qed.

Lemma parent_components_relative (p d : string) :
  join_star (parent_components p) = Return d -> startswith_sep d = false.
Proof.
  unfold parent_components.
  pose proof (Forall_removelast _ _ (split_sep_components (normpath p))) as Hall.
  destruct (removelast (split_sep (normpath p))) as [|a cs]; [discriminate |].
  cbn [join_star]. intros [= <-].
  apply Forall_cons in Hall as [Ha Hall].
  apply join_relative; [| now apply sep_free_startswith].
  apply (Forall_impl _ _ _ Hall). intros c. apply sep_free_startswith.
Qed.

Lemma join_star_empty : join_star [] = Raise TypeError.
Proof. reflexivity. Qed.

Lemma join_empties (n : nat) (cs : list string) :
  join "" (replicate n "" ++ cs) = join "" cs.
Proof. induction n as [|n IH]; [reflexivity | exact IH]. Qed.

Lemma join_empty_names (comps : list string) :
  comps <> [] -> names comps -> join "" comps = normal_path 0 comps.
Proof.
  destruct comps as [|c cs]; [congruence |]. intros _ Hall.
  apply Forall_cons in Hall as [Hc Hcs].
  unfold join. cbn [fold_left].
  rewrite join2_empty_l by now apply is_name_startswith.
  apply (join_normal_path 0 cs [c]); [discriminate | now constructor | exact Hcs].
Qed.

Lemma removelast_snoc {X} (l : list X) (x : X) : removelast (l ++ [x]) = l.
Proof. apply removelast_last. Qed.

(** The directory part of a path in normal form, as the method computes
    it: the leading slashes are lost. *)
Lemma parent_components_normal_path (k : nat) (comps : list string)
    (f : string) :
  k <= 2 -> comps <> [] -> names (comps ++ [f]) ->
  join_star (parent_components (normal_path k (comps ++ [f]))) =
    Return (normal_path 0 comps).
Proof.
  intros Hk Hne Hall. unfold parent_components.
  assert (Hne' : comps ++ [f] <> []) by (destruct comps; discriminate).
  rewrite normpath_normal_path, split_sep_normal_path by assumption.
  rewrite app_assoc, removelast_snoc.
  apply names_app in Hall as [Hcomps _].
  destruct k as [|k].
  - cbn [replicate app]. destruct comps as [|c cs]; [congruence |].
    cbn [join_star]. f_equal.
    apply Forall_cons in Hcomps as [Hc Hcs].
    apply (join_normal_path 0 cs [c]); [discriminate | now constructor | exact Hcs].
  - cbn [replicate app join_star]. f_equal.
    rewrite join_empties. now apply join_empty_names.
Qed.

Section FileSystem.
Context {FS : Type}.
Variable isdir : string -> FS -> bool.
Variable mkdir : string -> M FS unit.

Lemma make_folder_run (p : string) (fs : FS) :
  isdir p fs = false ->
  make_folder isdir mkdir (PyStr p) fs =
    match join_star (parent_components p) with
    | Return d => mkdir d fs
    | Raise e => (fs, Raise e)
    end.
Proof.
  intros Hdir. unfold make_folder. rewrite bind_run.
  unfold directory_of. rewrite Hdir.
  now destruct (join_star (parent_components p)).
Qed.

(** X4. For a path that is not an existing directory, the directory the
    method asks [mkdir] for never starts with a slash, whatever the path:
    either the join of the components raises [TypeError], or the
    directory is a relative path. *)
Theorem make_folder_never_absolute (p : string) (fs : FS) :
  isdir p fs = false ->
  make_folder isdir mkdir (PyStr p) fs = (fs, Raise TypeError)
  \/ exists d : string,
       startswith_sep d = false
       /\ make_folder isdir mkdir (PyStr p) fs = mkdir d fs.
Proof.
  intros Hdir. rewrite (make_folder_run p fs Hdir).
  destruct (join_star (parent_components p)) as [d | e] eqn:Hd.
  - right. exists d. split; [| reflexivity].
    now apply (parent_components_relative p).
  - left. unfold join_star in Hd.
    destruct (parent_components p); [| discriminate].
    now injection Hd as <-.
Qed.

(** X5. For a path in normal form that is not an existing directory,
    with [k] leading slashes, directory names [comps] and a file name,
    the directory asked for is [comps] joined by slashes, without the
    leading slashes: the directory of an absolute path is created under
    the working directory. *)
Theorem make_folder_drops_leading_slashes (k : nat) (comps : list string)
    (f : string) (fs : FS) :
  k <= 2 -> comps <> [] -> names (comps ++ [f]) ->
  isdir (normal_path k (comps ++ [f])) fs = false ->
  make_folder isdir mkdir (PyStr (normal_path k (comps ++ [f]))) fs =
    mkdir (normal_path 0 comps) fs
  /\ startswith_sep (normal_path 0 comps) = false.
Proof.
  intros Hk Hne Hall Hdir. split.
  - rewrite (make_folder_run _ fs Hdir).
    now rewrite parent_components_normal_path.
  - apply names_app in Hall as [Hcomps _].
    now apply (sep_join_names comps Hne).
Qed.

(** X6. A path without a directory part, that is one whose normal form
    holds no slash, and that is not an existing directory, ends the
    method with [TypeError]: the folders of the paths before it have been
    made, none is made for it or for the paths after it. *)
Theorem make_folders_without_directory_part (paths : ndarray)
    (done rest : list pyobj) (p : string) (fs fs1 : FS) :
  data paths = done ++ PyStr p :: rest ->
  for_each done (make_folder isdir mkdir) fs = (fs1, Return tt) ->
  isdir p fs1 = false ->
  sep_free (normpath p) = true ->
  make_folders_for_output isdir mkdir paths fs = (fs1, Raise TypeError).
Proof.
  intros Hdata Hdone Hdir Hfree. unfold make_folders_for_output.
  rewrite Hdata. replace (is_nil (done ++ PyStr p :: rest)) with false
    by now destruct done.
  apply (CameraFolderFacts.for_each_app_raise _ done (PyStr p) rest fs fs1 fs1);
    [exact Hdone |].
  rewrite (make_folder_run p fs1 Hdir). unfold parent_components.
  now rewrite (split_sep_sep_free _ Hfree).
Qed.

(** X7. The two methods together: for a path whose normal form ends in
    a sequence, a camera and a file name, the folder asked for the
    translated path is the components of [output_root], the sequence and
    the camera; when [output_root] is relative this is
    [output_root/sequence/camera]. *)
Theorem make_folder_for_translated_path (self : creator) (k : nat)
    (rs pre : list string) (p s c f : string) (fs : FS) :
  k <= 2 -> rs <> [] -> names rs -> output_root self = normal_path k rs ->
  split_sep (normpath p) = pre ++ [s; c; f] -> names [s; c; f] ->
  isdir (derived_path (output_root self) p) fs = false ->
  make_folder isdir mkdir (derived (output_root self) (PyStr p)) fs =
    mkdir (normal_path 0 (rs ++ [s; c])) fs
  /\ (k = 0 -> normal_path 0 (rs ++ [s; c]) = join (output_root self) [s; c]).
Proof.
  intros Hk Hne Hrs Hroot Hp Hscf Hdir. cbn [derived].
  assert (Hpath : derived_path (output_root self) p =
                  normal_path k ((rs ++ [s; c]) ++ [f])).
  { rewrite Hroot, (derived_path_names k rs pre p s c f) by assumption.
    now rewrite <- app_assoc. }
  assert (Hsc : names [s; c]).
  { apply Forall_cons in Hscf as [Hs Hscf]. apply Forall_cons in Hscf as [Hc _].
    now repeat constructor. }
  split.
  - rewrite (make_folder_run _ fs Hdir), Hpath.
    rewrite parent_components_normal_path; [reflexivity | exact Hk | |].
    + destruct rs; discriminate.
    + rewrite <- app_assoc. now apply names_app.
  - intros ->. rewrite Hroot. symmetry. now apply join_normal_path.
Qed.

End FileSystem.

(** A file system that only records the directories asked for. *)
Lemma make_folder_never_absolute_witness :
  let isdir := fun (_ : string) (_ : list string) => false in
  let mkdir := fun (d : string) => modify (fun made => made ++ [d]) in
  make_folder isdir mkdir (PyStr "file.png") [] = ([], Raise TypeError)
  \/ exists d : string,
       startswith_sep d = false
       /\ make_folder isdir mkdir (PyStr "file.png") [] = mkdir d [].
Proof.
  intros isdir mkdir.
  apply (make_folder_never_absolute isdir mkdir "file.png" []). reflexivity.
Defined.

Lemma make_folder_drops_leading_slashes_witness :
  let isdir := fun (_ : string) (_ : list string) => false in
  let mkdir := fun (d : string) => modify (fun made => made ++ [d]) in
  make_folder isdir mkdir (PyStr "/results/test/seq/cam/0.png") [] =
    (["results/test/seq/cam"], Return tt).
Proof.
  intros isdir mkdir.
  apply (make_folder_drops_leading_slashes isdir mkdir 1
           ["results"; "test"; "seq"; "cam"] "0.png" []).
  - lia.
  - discriminate.
  - repeat constructor.
  - reflexivity.
Defined.

Lemma make_folders_without_directory_part_witness :
  let isdir := fun (_ : string) (_ : list string) => false in
  let mkdir := fun (d : string) => modify (fun made => made ++ [d]) in
  make_folders_for_output isdir mkdir
    (Ndarray [3] [PyStr "out/s/c/0.png"; PyStr "1.png"; PyStr "out/s/d/2.png"])
    [] = (["out/s/c"], Raise TypeError).
Proof.
  intros isdir mkdir.
  apply (make_folders_without_directory_part isdir mkdir _
           [PyStr "out/s/c/0.png"] [PyStr "out/s/d/2.png"] "1.png" []);
    reflexivity.
Defined.

Lemma make_folder_for_translated_path_witness :
  let isdir := fun (_ : string) (_ : list string) => false in
  let mkdir := fun (d : string) => modify (fun made => made ++ [d]) in
  let self := Creator "results" "datasets" "test" in
  make_folder isdir mkdir
    (derived (output_root self) (PyStr "data/seq_0001/00000/00012.png")) [] =
    (["results/test/seq_0001/00000"], Return tt).
Proof.
  intros isdir mkdir self.
  apply (make_folder_for_translated_path isdir mkdir self 0
           ["results"; "test"] ["data"] "data/seq_0001/00000/00012.png"
           "seq_0001" "00000" "00012.png" []).
  - lia.
  - discriminate.
  - repeat constructor.
  - reflexivity.
  - reflexivity.
  - repeat constructor.
  - reflexivity.
Defined.

End FoldersFacts.

(** ** The tensors [use_first_observation] leaves alone *)
Module TensorMore.
Import Evaluation TensorFacts.

Section Rows.
Context {A : Type}.
Implicit Types (row : list A) (t : tensor A).

(** A row repeats its first cell exactly when all its cells are the
    first one. *)
Lemma repeat_first_fixed row :
  concat (replicate (length row) (take 1 row)) = row
  <-> forall (j : nat) (x : A), row !! j = Some x -> row !! 0 = Some x.
Proof.
  destruct row as [|x0 row]; [now split |].
  change (take 1 (x0 :: row)) with [x0].
  rewrite concat_replicate_singleton. split.
  - intros Heq j x Hj. rewrite <- Heq in Hj.
    apply lookup_replicate in Hj as [-> _]. reflexivity.
  - intros Hall. apply replicate_as_Forall. split; [reflexivity |].
    apply Forall_lookup. intros j x Hj.
    specialize (Hall j x Hj). now injection Hall.
Qed.

Lemma map_fixed {X} (g : X -> X) (l : list X) :
  map g l = l <-> forall x : X, x ∈ l -> g x = x.
Proof.
  induction l as [|y l IH]; [split; [intros _ x Hx; inversion Hx | trivial] |].
  cbn [map]. split.
  - intros [= Hy Hl] x [-> | Hx]%elem_of_cons; [exact Hy | now apply IH].
  - intros Hall. f_equal; [apply Hall; now left |].
    apply IH. intros x Hx. apply Hall. now right.
Qed.

(** X8. On a tensor of consistent shape, [use_first_observation] gives
    back its argument exactly when every observation already equals the
    first one of its batch element; in particular a tensor without
    observations is returned as it is. *)
Theorem use_first_observation_fixed_iff_constant t :
  tensor_wf t ->
  (use_first_observation t = t
   <-> forall row (j : nat) (x : A),
         row ∈ items t -> row !! j = Some x -> row !! 0 = Some x).
Proof.
  intros [_ Hrows].
  assert (Hmap : items (use_first_observation t) = items t
                 <-> forall row (j : nat) (x : A),
                       row ∈ items t -> row !! j = Some x -> row !! 0 = Some x).
  { rewrite items_use_first_observation, map_fixed. split.
    - intros Hfix row j x Hrow. apply repeat_first_fixed.
      rewrite (proj1 (Forall_forall _ _) Hrows row Hrow). now apply Hfix.
    - intros Hall row Hrow.
      rewrite <- (proj1 (Forall_forall _ _) Hrows row Hrow).
      apply repeat_first_fixed. intros j x. now apply Hall. }
  split.
  - intros Heq. apply Hmap. now rewrite Heq.
  - intros Hall. apply Hmap in Hall.
    pose proof (size1_use_first_observation t) as Hsize.
    destruct t as [n0 n1 rows].
    destruct (use_first_observation (Tensor n0 n1 rows)) as [m0 m1 rows'] eqn:E.
    assert (m0 = n0) as -> by (apply (f_equal size0) in E; now cbn in E).
    cbn [size1 items] in *. now subst.
Qed.

End Rows.

Lemma use_first_observation_fixed_iff_constant_witness :
  use_first_observation (Tensor 2 3 [[7; 7; 7]; [9; 9; 9]]) =
  Tensor 2 3 [[7; 7; 7]; [9; 9; 9]].
Proof.
  apply (use_first_observation_fixed_iff_constant
           (Tensor 2 3 [[7; 7; 7]; [9; 9; 9]])).
  - split; [reflexivity | repeat constructor].
  - intros row j x Hrow Hj.
    apply elem_of_cons in Hrow as [-> | Hrow].
    + destruct j as [|[|[|j]]]; vm_compute in Hj |- *; congruence.
    + apply elem_of_cons in Hrow as [-> | Hrow]; [| inversion Hrow].
      destruct j as [|[|[|j]]]; vm_compute in Hj |- *; congruence.
Defined.

End TensorMore.

(** ** The reconstruction driver: whatever the outcome *)
Module DriverMore.
Import Py PosixPath Evaluation OutputPathsFacts DriverFacts.
Import Folders OutputPathsMore Outcome.

Section Driver.
Context {inputs rendered cell FS : Type}.
Variable isdir : string -> FS -> bool.
Variable mkdir : string -> M FS unit.
Implicit Types (w : world rendered FS) (b : batch inputs)
  (model : model_t inputs rendered cell) (e : event rendered).

Lemma extends_refl (root : string) w : extends root w w.
Proof.
  exists []. rewrite app_nil_r. split; [reflexivity |].
  split; [constructor | reflexivity].
Qed.

Lemma extends_trans (root : string) w1 w2 w3 :
  extends root w1 w2 -> extends root w2 w3 -> extends root w1 w3.
Proof.
  intros (evs1 & Ht1 & Hok1 & Hh1) (evs2 & Ht2 & Hok2 & Hh2).
  exists (evs1 ++ evs2). split; [| split].
  - now rewrite Ht2, Ht1, app_assoc.
  - now apply Forall_app.
  - now transitivity (w_heap w2).
Qed.

Lemma keeps_lift {X} (root : string) (r : result X) :
  keeps (rendered := rendered) (FS := FS) root (lift r).
Proof. intros w. apply extends_refl. Qed.

(** What is done on the file system leaves the trace and the arrays. *)
Lemma keeps_on_disk {X} (root : string) (m : M FS X) :
  keeps (rendered := rendered) root (on_disk m).
Proof.
  intros w. unfold on_disk. destruct (m (w_disk w)) as [fs' r].
  exists []. rewrite app_nil_r. cbn [fst w_trace w_heap].
  split; [reflexivity |]. split; [constructor | reflexivity].
Qed.

Lemma keeps_emit (root : string) e :
  batch_event_ok root e -> keeps (FS := FS) root (emit e).
Proof.
  intros Hok w. exists [e]. split; [reflexivity |].
  split; [now constructor | reflexivity].
Qed.

(** Sequencing, with what is known of a value that was returned. *)
Lemma keeps_bind {X Y} (root : string) (m : M (world rendered FS) X)
    (k : X -> M (world rendered FS) Y) :
  keeps root m ->
  (forall w (x : X), snd (m w) = Return x ->
     extends root (fst (m w)) (fst (k x (fst (m w))))) ->
  keeps root (m ≫= k).
Proof.
  intros Hm Hk w. rewrite bind_run.
  specialize (Hm w). specialize (Hk w).
  destruct (m w) as [w1 [x | e]]; cbn [fst snd] in *; [| exact Hm].
  apply (extends_trans root w w1); [exact Hm | now apply Hk].
Qed.

Lemma keeps_seq {X Y} (root : string) (m : M (world rendered FS) X)
    (k : X -> M (world rendered FS) Y) :
  keeps root m -> (forall x : X, keeps root (k x)) -> keeps root (m ≫= k).
Proof. intros Hm Hk. apply keeps_bind; [exact Hm |]. intros w x _. apply Hk. Qed.

Lemma keeps_for_each {X} (root : string) (body : X -> M (world rendered FS) unit)
    (xs : list X) :
  (forall x : X, keeps root (body x)) -> keeps root (for_each xs body).
Proof.
  intros Hbody. induction xs as [|x xs IH].
  - intros w. apply extends_refl.
  - cbn [for_each]. apply keeps_seq; [apply Hbody | intros _; exact IH].
Qed.

(** The heap after [output_paths_from_observations_paths], whatever its
    outcome: the arrays that were there are there, and an array that is
    returned holds paths under the output root. *)
Lemma output_paths_outcome (self : creator) (l : loc) (h : heap) :
  h ⊆ fst (output_paths_from_observations_paths self l h)
  /\ forall l' : loc,
       snd (output_paths_from_observations_paths self l h) = Return l' ->
       exists a' : ndarray,
         fst (output_paths_from_observations_paths self l h) !! l' = Some a'
         /\ paths_under (output_root self) a'.
Proof.
  destruct (h !! l) as [a |] eqn:Hl.
  - destruct (output_paths_run self l h a Hl) as (h' & Hrun & Hfresh & Hframe & _).
    split.
    + rewrite Hrun. cbn [fst]. apply map_subseteq_spec. intros i x Hi.
      rewrite Hframe; [exact Hi |]. intros ->. congruence.
    + intros l' Hret.
      destruct (output_paths_from_observations_paths self l h)
        as [h1 r] eqn:Hrun1.
      cbn [fst snd] in *. subst r.
      destruct (output_paths_return self h h1 l l' Hrun1)
        as (a0 & _ & Hl' & Hstr).
      eexists. split; [exact Hl' |]. now apply derived_under.
  - unfold output_paths_from_observations_paths.
    rewrite bind_run. unfold array_copy. rewrite Hl. cbn [fst snd].
    split; [reflexivity | discriminate].
Qed.

(** One batch, whatever happens in it. *)
Lemma reconstruct_batch_keeps (self : creator) model (n idx : nat) b :
  keeps (output_root self) (reconstruct_batch isdir mkdir self model n idx b).
Proof.
  unfold reconstruct_batch.
  apply keeps_seq; [now apply keeps_emit | intros _].
  apply keeps_seq; [now apply keeps_emit | intros _].
  do 7 (apply keeps_seq; [apply keeps_lift | intros ?]).
  apply keeps_seq; [now apply keeps_emit | intros _].
  apply keeps_seq; [apply keeps_lift | intros render_results].
  apply keeps_bind.
  - intros w. unfold on_heap.
    destruct (output_paths_outcome self (observations_paths b) (w_heap w))
      as [Hsub _].
    destruct (output_paths_from_observations_paths self (observations_paths b)
                (w_heap w)) as [h' r].
    exists []. rewrite app_nil_r. cbn [fst w_trace w_heap] in *.
    split; [reflexivity |]. split; [constructor | exact Hsub].
  - intros w l' Hret. unfold on_heap in Hret |- *.
    destruct (output_paths_outcome self (observations_paths b) (w_heap w))
      as [_ Hpaths].
    destruct (output_paths_from_observations_paths self (observations_paths b)
                (w_heap w)) as [h' r].
    cbn [fst snd] in *. destruct (Hpaths l' Hret) as (a' & Ha' & Hunder).
    rewrite bind_run. unfold array_value at 1. cbn [w_heap]. rewrite Ha'.
    rewrite bind_emit, bind_on_disk. cbn [w_disk w_heap w_trace].
    destruct (make_folders_for_output isdir mkdir a' (w_disk w)) as [fs' [[] | e]];
      cbn [emit modify fst w_heap w_trace].
    + exists [MakeFolders a'; SaveReconstructedImages render_results a'].
      rewrite <- app_assoc. split; [reflexivity |].
      split; [| reflexivity]. now repeat constructor.
    + exists [MakeFolders a']. split; [reflexivity |].
      split; [| reflexivity]. now repeat constructor.
Qed.

Lemma reconstruct_loop_keeps (self : creator) model (n : nat)
    (bs : list (nat * batch inputs)) :
  keeps (output_root self)
    (for_each bs (fun '(batch_idx, b) =>
       reconstruct_batch isdir mkdir self model n batch_idx b)).
Proof.
  apply keeps_for_each. intros [idx b]. apply reconstruct_batch_keeps.
Qed.

Lemma ok_not_subprocess (root : string) (evs : list (event rendered)) :
  Forall (batch_event_ok root) evs ->
  List.filter is_subprocess_run evs = [].
Proof.
  induction 1 as [|e evs He _ IH]; [reflexivity |].
  cbn [List.filter]. now destruct e.
Qed.

(** The run, split at the end of the loop over the batches. *)
Lemma reconstruct_dataset_run (self : creator)
    (dataloader : list (batch inputs)) model w :
  exists (w1 : world rendered FS) (r1 : result unit)
         (evs : list (event rendered)),
    w_trace w1 = w_trace w ++ LogReconstructing (name self) :: evs
    /\ Forall (batch_event_ok (output_root self)) evs
    /\ w_heap w ⊆ w_heap w1
    /\ reconstruct_dataset isdir mkdir self dataloader model w =
         match r1 with
         | Return _ =>
             (World (w_heap w1)
                (w_trace w1 ++
                 [LogSyncing (name self); SubprocessRun (rsync_args self);
                  LogDone (name self)])
                (w_disk w1), Return tt)
         | Raise e => (w1, Raise e)
         end.
Proof.
  unfold reconstruct_dataset. rewrite bind_emit.
  set (w0 := World (w_heap w) (w_trace w ++ [LogReconstructing (name self)])
               (w_disk w)).
  pose proof (reconstruct_loop_keeps self model (length dataloader)
                (enumerate dataloader) w0) as (evs & Htrace & Hok & Hsub).
  rewrite bind_run.
  destruct (for_each (enumerate dataloader) _ w0) as [w1 r1].
  cbn [fst] in *. exists w1, r1, evs.
  split; [| split; [exact Hok | split; [exact Hsub |]]].
  - rewrite Htrace. subst w0. cbn [w_trace]. now rewrite <- app_assoc.
  - destruct r1 as [[] | e]; [| reflexivity].
    rewrite !bind_emit. unfold emit, modify. cbn [w_heap w_trace w_disk].
    now rewrite <- !app_assoc.
Qed.

(** X9. When [reconstruct_dataset] raises, whatever the exception and
    wherever it comes from, no subprocess has been run: [rsync] is only
    started after every batch went through. *)
Theorem reconstruct_dataset_raise_no_rsync (self : creator)
    (dataloader : list (batch inputs)) model w (w' : world rendered FS)
    (e : exn) :
  reconstruct_dataset isdir mkdir self dataloader model w = (w', Raise e) ->
  exists events : list (event rendered),
    w_trace w' = w_trace w ++ events
    /\ List.filter is_subprocess_run events = [].
Proof.
  intros Hrun.
  destruct (reconstruct_dataset_run self dataloader model w)
    as (w1 & r1 & evs & Htrace & Hok & _ & Hrun1).
  rewrite Hrun in Hrun1. destruct r1 as [[] | e1]; [discriminate |].
  injection Hrun1 as -> _.
  exists (LogReconstructing (name self) :: evs). split; [exact Htrace |].
  cbn [List.filter is_subprocess_run]. now apply (ok_not_subprocess (output_root self)).
Qed.

(** X10. Whatever the outcome of [reconstruct_dataset], every array of
    paths handed to [save_reconstructed_images_to_paths] holds paths that
    start with [output_root], which is also the destination, the last
    argument, of the [rsync] command. *)
Theorem saved_paths_under_rsync_destination (self : creator)
    (dataloader : list (batch inputs)) model w :
  exists events : list (event rendered),
    w_trace (fst (reconstruct_dataset isdir mkdir self dataloader model w)) =
      w_trace w ++ events
    /\ (forall (render_results : rendered) (paths : ndarray),
          SaveReconstructedImages render_results paths ∈ events ->
          paths_under (output_root self) paths)
    /\ last (rsync_args self) = Some (output_root self).
Proof.
  destruct (reconstruct_dataset_run self dataloader model w)
    as (w1 & r1 & evs & Htrace & Hok & _ & Hrun1).
  assert (Hsaved : forall (rr : rendered) (paths : ndarray),
             SaveReconstructedImages rr paths ∈ evs ->
             paths_under (output_root self) paths).
  { intros rr paths Hin.
    apply (proj1 (Forall_forall _ _) Hok) in Hin. exact Hin. }
  rewrite Hrun1. destruct r1 as [[] | e1]; cbn [fst w_trace].
  - exists (LogReconstructing (name self) :: evs ++
            [LogSyncing (name self); SubprocessRun (rsync_args self);
             LogDone (name self)]).
    split; [now rewrite Htrace, <- app_assoc |]. split; [| reflexivity].
    intros rr paths Hin.
    apply elem_of_cons in Hin as [Hin | Hin]; [discriminate |].
    apply elem_of_app in Hin as [Hin | Hin]; [now apply (Hsaved rr) |].
    repeat (apply elem_of_cons in Hin as [Hin | Hin]; [discriminate |]).
    inversion Hin.
  - exists (LogReconstructing (name self) :: evs).
    split; [exact Htrace |]. split; [| reflexivity].
    intros rr paths Hin.
    apply elem_of_cons in Hin as [Hin | Hin]; [discriminate |].
    now apply (Hsaved rr).
Qed.

(** X11. Whatever the outcome of [reconstruct_dataset], every array that
    was in the heap before is in it afterwards, unchanged: the paths of
    the batches are never written to. *)
Theorem reconstruct_dataset_keeps_arrays (self : creator)
    (dataloader : list (batch inputs)) model w (l : loc) (a : ndarray) :
  w_heap w !! l = Some a ->
  w_heap (fst (reconstruct_dataset isdir mkdir self dataloader model w)) !! l
    = Some a.
Proof.
  intros Hl.
  destruct (reconstruct_dataset_run self dataloader model w)
    as (w1 & r1 & evs & _ & _ & Hsub & Hrun1).
  rewrite Hrun1.
  destruct r1 as [[] | e1]; cbn [fst w_heap];
    exact (lookup_weaken _ _ _ _ Hl Hsub).
Qed.

(** *** The scene encoding *)

Lemma insert_present (enc : gmap string (tensor cell)) (key k : string)
    (t : tensor cell) :
  is_Some (enc !! key) ->
  is_Some (<[key := t]> enc !! k) <-> is_Some (enc !! k).
Proof.
  intros Hkey. destruct (decide (key = k)) as [<- | Hne].
  - rewrite lookup_insert_eq. split; [intros _; exact Hkey | eauto].
  - now rewrite lookup_insert_ne.
Qed.

(** The loop over [repeat_keys] can only raise [KeyError]; when it
    returns, every key was there, and the encoding has the keys it had. *)
Lemma use_first_observation_keys_outcome (keys : list string) :
  forall enc : gmap string (tensor cell),
  match use_first_observation_keys keys enc with
  | Return enc' =>
      Forall (fun k => is_Some (enc !! k)) keys
      /\ forall k : string, is_Some (enc' !! k) <-> is_Some (enc !! k)
  | Raise e => e = KeyError
  end.
Proof.
  induction keys as [|key keys IH]; intros enc; [now split |].
  cbn [use_first_observation_keys]. unfold getitem at 1.
  destruct (enc !! key) as [t |] eqn:Hkey; cbn [mbind result_bind];
    [| reflexivity].
  specialize (IH (<[key := use_first_observation t]> enc)).
  destruct (use_first_observation_keys keys _) as [enc' | e]; [| exact IH].
  destruct IH as [Hall Hiff].
  assert (Hp : forall k : string,
             is_Some (<[key := use_first_observation t]> enc !! k)
             <-> is_Some (enc !! k)).
  { intros k. apply insert_present. rewrite Hkey. eauto. }
  split.
  - constructor; [rewrite Hkey; eauto |].
    apply (Forall_impl _ _ _ Hall). intros k. apply Hp.
  - intros k. now rewrite Hiff.
Qed.

(** X12. When the scene encoding the model returns lacks one of the five
    keys the driver reads, the batch ends with [KeyError] right after
    inference: nothing is rendered, no array is made and nothing is
    saved for it. *)
Theorem reconstruct_batch_missing_key (self : creator) model (n idx : nat) b w
    (enc : gmap string (tensor cell)) (key : string) :
  call model (to_tuple b) = Return enc ->
  key ∈ "object_in_scene" :: repeat_keys ->
  enc !! key = None ->
  reconstruct_batch isdir mkdir self model n idx b w =
    (World (w_heap w) (w_trace w ++ [LogBatch idx n; Inference idx])
       (w_disk w),
     Raise KeyError).
Proof.
  intros Hcall Hkey Hnone. unfold reconstruct_batch.
  rewrite !bind_emit, Hcall, bind_lift_return. cbn [w_heap w_trace w_disk].
  rewrite <- app_assoc. cbn [app].
  pose proof (use_first_observation_keys_outcome repeat_keys enc) as Hout.
  destruct (use_first_observation_keys repeat_keys enc) as [enc' | e];
    [| subst e; reflexivity].
  destruct Hout as [Hall Hiff]. rewrite bind_lift_return.
  apply elem_of_cons in Hkey as [-> | Hkey].
  - unfold repeat_keys in Hall.
    inversion Hall as [|? ? H1 Hr1]; subst.
    inversion Hr1 as [|? ? H2 Hr2]; subst.
    inversion Hr2 as [|? ? H3 Hr3]; subst.
    inversion Hr3 as [|? ? H4 _]; subst.
    apply Hiff in H1, H2, H3, H4.
    destruct (getitem_run enc' _ H1) as [t1 ->]. rewrite bind_lift_return.
    destruct (getitem_run enc' _ H2) as [t2 ->]. rewrite bind_lift_return.
    destruct (getitem_run enc' _ H3) as [t3 ->]. rewrite bind_lift_return.
    destruct (getitem_run enc' _ H4) as [t4 ->]. rewrite bind_lift_return.
    unfold getitem.
    destruct (enc' !! "object_in_scene") as [t5 |] eqn:H5; [| reflexivity].
    assert (Hs : is_Some (enc !! "object_in_scene"))
      by (apply Hiff; rewrite H5; eauto).
    rewrite Hnone in Hs. now destruct Hs.
  - apply (proj1 (Forall_forall _ _) Hall) in Hkey.
    rewrite Hnone in Hkey. now destruct Hkey.
Qed.

(** X13. What is rendered and saved for a batch whose paths are a
    non-empty array of strings, when there is a folder to make for every
    output path and no [mkdir] is refused: the renderer is given the
    first-observation versions of the four tensors under [repeat_keys],
    and [object_in_scene] as the model returned it; what it returns is
    saved to the output paths. *)
Theorem reconstruct_batch_renders_first_observations (self : creator) model
    (n idx : nat) b w (enc : gmap string (tensor cell))
    (t1 t2 t3 t4 t5 : tensor cell) (r : rendered) (a : ndarray) :
  mkdir_returns mkdir ->
  call model (to_tuple b) = Return enc ->
  enc !! "object_rotation_parameters" = Some t1 ->
  enc !! "object_translation_parameters" = Some t2 ->
  enc !! "object_style" = Some t3 ->
  enc !! "object_deformation" = Some t4 ->
  enc !! "object_in_scene" = Some t5 ->
  render_full_frame_from_scene_encoding model (to_tuple b)
    (use_first_observation t1) (use_first_observation t2)
    (use_first_observation t3) (use_first_observation t4) t5 = Return r ->
  w_heap w !! observations_paths b = Some a ->
  data a <> [] -> Forall is_str (data a) ->
  paths_in_folders self (w_heap w) b ->
  exists (h' : heap) (fs' : FS),
    reconstruct_batch isdir mkdir self model n idx b w =
      (World h'
         (w_trace w ++
          batch_events n idx
            (r, Ndarray (shape a) (map (derived (output_root self)) (data a))))
         fs',
       Return tt).
Proof.
  intros Hmkdir Hcall H1 H2 H3 H4 H5 Hr Ha Hne Hstr Hdir.
  destruct (output_paths_run self (observations_paths b) (w_heap w) a Ha)
    as (h' & Hrun & Hfresh & Hframe & Hok).
  pose proof (translate_all_derived (output_root self) _ Hstr) as Hall.
  rewrite (is_nil_false _ Hne), Hall in Hrun. specialize (Hok _ Hne Hall).
  set (paths := Ndarray (shape a) (map (derived (output_root self)) (data a))).
  assert (Hfolders : snd (make_folders_for_output isdir mkdir paths (w_disk w))
                     = Return tt).
  { apply make_folders_returns; [exact Hmkdir | |].
    - intros E. apply Hne. now apply fmap_nil_inv in E.
    - apply derived_in_folders; [exact Hstr |]. intros p. now apply Hdir. }
  destruct (make_folders_for_output isdir mkdir paths (w_disk w))
    as [fs' rf] eqn:Hmake.
  cbn [snd] in Hfolders. subst rf.
  set (enc4 := <["object_deformation" := use_first_observation t4]>
                (<["object_style" := use_first_observation t3]>
                   (<["object_translation_parameters" := use_first_observation t2]>
                      (<["object_rotation_parameters" := use_first_observation t1]>
                         enc)))).
  assert (Hufo : use_first_observation_keys repeat_keys enc = Return enc4).
  { unfold repeat_keys. cbn [use_first_observation_keys]. unfold getitem.
    rewrite H1. cbn [mbind result_bind].
    rewrite lookup_insert_ne, H2 by discriminate. cbn [mbind result_bind].
    rewrite !lookup_insert_ne, H3 by discriminate. cbn [mbind result_bind].
    rewrite !lookup_insert_ne, H4 by discriminate. reflexivity. }
  assert (G1 : getitem enc4 "object_rotation_parameters" =
               Return (use_first_observation t1)).
  { unfold getitem, enc4.
    now rewrite !lookup_insert_ne, lookup_insert_eq by discriminate. }
  assert (G2 : getitem enc4 "object_translation_parameters" =
               Return (use_first_observation t2)).
  { unfold getitem, enc4.
    now rewrite !lookup_insert_ne, lookup_insert_eq by discriminate. }
  assert (G3 : getitem enc4 "object_style" =
               Return (use_first_observation t3)).
  { unfold getitem, enc4.
    now rewrite lookup_insert_ne, lookup_insert_eq by discriminate. }
  assert (G4 : getitem enc4 "object_deformation" =
               Return (use_first_observation t4)).
  { unfold getitem, enc4. now rewrite lookup_insert_eq. }
  assert (G5 : getitem enc4 "object_in_scene" = Return t5).
  { unfold getitem, enc4. now rewrite !lookup_insert_ne, H5 by discriminate. }
  exists h', fs'. unfold reconstruct_batch.
  rewrite !bind_emit, Hcall, bind_lift_return, Hufo, bind_lift_return.
  rewrite G1, bind_lift_return, G2, bind_lift_return.
  rewrite G3, bind_lift_return, G4, bind_lift_return, G5.
  rewrite bind_lift_return, bind_emit, Hr, bind_lift_return.
  rewrite (bind_on_heap _ _ _ h' (fresh (dom (w_heap w)))) by exact Hrun.
  rewrite (bind_on_heap _ _ _ h' paths).
  2:{ cbn [w_heap]. unfold array_value. rewrite Hok, lookup_insert_eq.
      reflexivity. }
  rewrite bind_emit, bind_on_disk. cbn [w_disk w_heap w_trace].
  rewrite Hmake. unfold emit, modify, batch_events.
  cbn [w_heap w_trace w_disk fst snd]. rewrite <- !app_assoc. reflexivity.
Qed.

End Driver.

(** A run on a file system that refuses every [mkdir]. *)
Lemma reconstruct_dataset_raise_no_rsync_witness :
  let listed : string -> list string -> bool :=
    fun p fs => bool_decide (p ∈ fs) in
  let no_space : string -> M (list string) unit :=
    fun p fs => (fs, Raise InvalidArgument) in
  let self := Creator "results" "datasets" "test" in
  let t := Tensor 1 2 [[1; 2]] in
  let enc : gmap string (tensor nat) :=
    list_to_map [("object_rotation_parameters", t);
                 ("object_translation_parameters", t);
                 ("object_style", t); ("object_deformation", t);
                 ("object_in_scene", t)] in
  let model : model_t nat nat nat :=
    Model (fun _ => Return enc) (fun x _ _ _ _ _ => Return x) in
  let w : world nat (list string) :=
    World {[0 := Ndarray [1; 1; 1] [PyStr "d/s0/c0/0.png"]]} [] [] in
  exists events : list (event nat),
    w_trace (fst (reconstruct_dataset listed no_space self [Batch 7 0] model w))
      = w_trace w ++ events
    /\ List.filter is_subprocess_run events = [].
Proof.
  intros listed no_space self t enc model w.
  apply (reconstruct_dataset_raise_no_rsync listed no_space self [Batch 7 0]
           model w
           (fst (reconstruct_dataset listed no_space self [Batch 7 0] model w))
           InvalidArgument).
  reflexivity.
Defined.

Lemma reconstruct_dataset_keeps_arrays_witness :
  let listed : string -> list string -> bool :=
    fun p fs => bool_decide (p ∈ fs) in
  let append_folder : string -> M (list string) unit :=
    fun p fs => (fs ++ [p], Return tt) in
  let self := Creator "results" "datasets" "test" in
  let model : model_t nat nat nat :=
    Model (fun _ => Raise ValueError) (fun x _ _ _ _ _ => Return x) in
  let a := Ndarray [1; 1; 1] [PyStr "d/s0/c0/0.png"] in
  let w : world nat (list string) := World {[0 := a]} [] [] in
  w_heap (fst (reconstruct_dataset listed append_folder self [Batch 7 0]
                 model w)) !! 0 = Some a.
Proof.
  intros listed append_folder self model a w.
  apply (reconstruct_dataset_keeps_arrays listed append_folder self
           [Batch 7 0] model w 0 a).
  reflexivity.
Defined.

Lemma reconstruct_batch_missing_key_witness :
  let listed : string -> list string -> bool :=
    fun p fs => bool_decide (p ∈ fs) in
  let append_folder : string -> M (list string) unit :=
    fun p fs => (fs ++ [p], Return tt) in
  let self := Creator "results" "datasets" "test" in
  let t := Tensor 1 2 [[1; 2]] in
  let enc : gmap string (tensor nat) :=
    list_to_map [("object_rotation_parameters", t);
                 ("object_translation_parameters", t);
                 ("object_style", t); ("object_deformation", t)] in
  let model : model_t nat nat nat :=
    Model (fun _ => Return enc) (fun x _ _ _ _ _ => Return x) in
  let w : world nat (list string) := World ∅ [] [] in
  reconstruct_batch listed append_folder self model 1 0 (Batch 7 0) w =
    (World ∅ [LogBatch 0 1; Inference 0] [], Raise KeyError).
Proof.
  intros listed append_folder self t enc model w.
  apply (reconstruct_batch_missing_key listed append_folder self model 1 0
           (Batch 7 0) w enc "object_in_scene").
  - reflexivity.
  - left.
  - reflexivity.
Defined.

Lemma reconstruct_batch_renders_first_observations_witness :
  let listed : string -> list string -> bool :=
    fun p fs => bool_decide (p ∈ fs) in
  let append_folder : string -> M (list string) unit :=
    fun p fs => (fs ++ [p], Return tt) in
  let self := Creator "results" "datasets" "test" in
  let enc : gmap string (tensor nat) :=
    list_to_map [("object_rotation_parameters", Tensor 1 2 [[1; 2]]);
                 ("object_translation_parameters", Tensor 1 2 [[3; 4]]);
                 ("object_style", Tensor 1 2 [[5; 6]]);
                 ("object_deformation", Tensor 1 2 [[7; 8]]);
                 ("object_in_scene", Tensor 1 2 [[0; 1]])] in
  let model : model_t nat (list (tensor nat)) nat :=
    Model (fun _ => Return enc)
          (fun _ t1 t2 t3 t4 t5 => Return [t1; t2; t3; t4; t5]) in
  let a := Ndarray [1; 1; 1] [PyStr "d/s0/c0/0.png"] in
  let w : world (list (tensor nat)) (list string) := World {[0 := a]} [] [] in
  exists (h' : heap) (fs' : list string),
    reconstruct_batch listed append_folder self model 1 0 (Batch 7 0) w =
      (World h'
         [LogBatch 0 1; Inference 0; RenderFullFrame 0;
          MakeFolders (Ndarray [1; 1; 1] [PyStr "results/test/s0/c0/0.png"]);
          SaveReconstructedImages
            [Tensor 1 2 [[1; 1]]; Tensor 1 2 [[3; 3]]; Tensor 1 2 [[5; 5]];
             Tensor 1 2 [[7; 7]]; Tensor 1 2 [[0; 1]]]
            (Ndarray [1; 1; 1] [PyStr "results/test/s0/c0/0.png"])]
         fs',
       Return tt).
Proof.
  intros listed append_folder self enc model a w.
  apply (reconstruct_batch_renders_first_observations listed append_folder
           self model 1 0 (Batch 7 0) w enc
           (Tensor 1 2 [[1; 2]]) (Tensor 1 2 [[3; 4]]) (Tensor 1 2 [[5; 6]])
           (Tensor 1 2 [[7; 8]]) (Tensor 1 2 [[0; 1]]) _ a);
    try reflexivity.
  - intros p fs. reflexivity.
  - discriminate.
  - repeat constructor.
  - intros a' p Ha' Hp. cbn [w w_heap observations_paths] in Ha'.
    rewrite lookup_singleton_eq in Ha'. injection Ha' as <-.
    apply list_elem_of_singleton in Hp. now injection Hp as ->.
Defined.

End DriverMore.

(** ** [remove_camera_folder]: a second call, a missing folder, hidden
    entries *)
Module CameraFolderMore.
Import Py PosixPath PosixPathFacts CameraFolder OutputPathsFacts.
Import CameraFolderFacts.

(** When [rmtree] returns, the camera folder is gone. *)
Lemma shutil_rmtree_return (path : string) (fs fs' : listing) :
  shutil_rmtree path (join path [camera_folder_name]) fs = (fs', Return tt) ->
  fs' !! camera_folder_name = None.
Proof.
  unfold shutil_rmtree.
  rewrite (locate_path_entry path _ camera_folder_name_valid).
  cbn [lookup_location remove_location].
  destruct (fs !! camera_folder_name) as [[c | ch] |]; try discriminate.
  intros [= <-]. apply lookup_delete_eq.
Qed.

Lemma remove_camera_folder_return (path : string) (fs fs' : listing) :
  remove_camera_folder path fs = (fs', Return tt) ->
  fs' !! camera_folder_name = None.
Proof.
  unfold remove_camera_folder. rewrite bind_run.
  destruct (glob_star (join path [camera_folder_name]) fs) as [fs0 [all_files | e]];
    [| discriminate].
  rewrite bind_run.
  destruct (for_each all_files (move_out path) fs0) as [fs1 [[] | e]];
    [| discriminate].
  apply shutil_rmtree_return.
Qed.

(** X14. The function cannot be run twice on a directory: after a call
    that returned, a second call with the same argument raises
    [FileNotFoundError] and changes nothing. *)
Theorem remove_camera_folder_not_repeatable (path : string)
    (fs fs' : listing) :
  remove_camera_folder path fs = (fs', Return tt) ->
  remove_camera_folder path fs' = (fs', Raise FileNotFoundError).
Proof.
  intros Hrun. apply remove_camera_folder_missing.
  now apply (remove_camera_folder_return path fs).
Qed.

Lemma remove_camera_folder_not_repeatable_witness :
  let fs : listing :=
    {["00000" := Dir {["0.png" := File "frame 0"]}; "actions.pkl" := File "m"]} in
  let fs' := fst (remove_camera_folder "videos/0001" fs) in
  remove_camera_folder "videos/0001" fs' = (fs', Raise FileNotFoundError).
Proof.
  intros fs fs'.
  apply (remove_camera_folder_not_repeatable "videos/0001" fs fs').
  reflexivity.
Defined.

(** X15. On a [path] that [glob] reads literally, when the camera
    folder is not a directory the call raises and changes nothing:
    [FileNotFoundError] when there is no entry ["00000"],
    [NotADirectoryError] when it is a file.  In both cases [glob] finds
    nothing and the exception is the one of [rmtree]. *)
Theorem remove_camera_folder_without_camera_folder (path : string)
    (fs : listing) :
  has_magic path = false ->
  (fs !! camera_folder_name = None ->
   remove_camera_folder path fs = (fs, Raise FileNotFoundError))
  /\ (forall content : string,
        fs !! camera_folder_name = Some (File content) ->
        remove_camera_folder path fs = (fs, Raise NotADirectoryError)).
Proof.
  intros _. split; [apply remove_camera_folder_missing |].
  intros content Hfile. unfold remove_camera_folder.
  rewrite bind_run, glob_star_none
    by (unfold camera_children; now rewrite Hfile).
  rewrite bind_run, for_each_nil_run. unfold shutil_rmtree.
  rewrite (locate_path_entry path _ camera_folder_name_valid).
  cbn [lookup_location]. now rewrite Hfile.
Qed.

(** A video directory in which ["00000"] is a file. *)
Lemma remove_camera_folder_without_camera_folder_witness :
  let fs : listing :=
    {["00000" := File "not a folder"; "actions.pkl" := File "m"]} in
  remove_camera_folder "videos/0001" fs = (fs, Raise NotADirectoryError).
Proof.
  intros fs.
  apply (proj2 (remove_camera_folder_without_camera_folder "videos/0001" fs
                  eq_refl) "not a folder").
  reflexivity.
Defined.

Lemma hidden_not_camera (n : string) :
  ishidden n = true -> n <> camera_folder_name.
Proof. intros Hn ->. discriminate. Qed.



End CameraFolderMore.

(** ** The script: which directories it works on, and a second run *)
Module ScriptFacts.
Import Py PosixPath PosixPathFacts CameraFolder OutputPathsFacts.
Import CameraFolderFacts CameraFolderMore ArgParse ArgParseFacts Script.

Lemma isdir_true (entry : option node) :
  isdir entry = true <-> exists content : listing, entry = Some (Dir content).
Proof.
  split.
  - destruct entry as [[c | content] |]; try discriminate. eauto.
  - now intros [content ->].
Qed.

Lemma in_video_run (top video : string) (m : M listing unit)
    (root videos content : listing) :
  root !! top = Some (Dir videos) -> videos !! video = Some (Dir content) ->
  in_video top video m root =
    (<[top := Dir (<[video := Dir (fst (m content))]> videos)]> root,
     snd (m content)).
Proof.
  intros Ht Hv. unfold in_video. rewrite Ht, Hv. now destruct (m content).
Qed.

(** The loop over the video directories of one top-level directory. *)
Lemma videos_loop (top : string) (ps : list string) :
  forall root videos : listing,
  root !! top = Some (Dir videos) ->
  NoDup (map basename ps) ->
  (forall p, p ∈ ps -> isdir (videos !! basename p) = true) ->
  exists (videos' : listing) (r : result unit),
    for_each ps (fun p => in_video top (basename p) (remove_camera_folder p))
      root = (<[top := Dir videos']> root, r)
    /\ (forall v, v ∉ map basename ps -> videos' !! v = videos !! v)
    /\ (forall p content, p ∈ ps -> videos !! basename p = Some (Dir content) ->
          videos' !! basename p = Some (Dir content)
          \/ videos' !! basename p =
               Some (Dir (fst (remove_camera_folder p content))))
    /\ (r = Return tt ->
        forall p content, p ∈ ps -> videos !! basename p = Some (Dir content) ->
          videos' !! basename p =
            Some (Dir (fst (remove_camera_folder p content)))
          /\ snd (remove_camera_folder p content) = Return tt)
    /\ ((forall p content, p ∈ ps -> videos !! basename p = Some (Dir content) ->
           snd (remove_camera_folder p content) = Return tt) ->
        r = Return tt)
    /\ ((forall p content, p ∈ ps -> videos !! basename p = Some (Dir content) ->
           remove_camera_folder p content = (content, Raise FileNotFoundError)) ->
        videos' = videos
        /\ r = if is_nil ps then Return tt else Raise FileNotFoundError).
Proof.
  induction ps as [|p ps IH]; intros root videos Htop Hnd Hdir.
  - exists videos, (Return tt). rewrite for_each_nil_run, insert_id by exact Htop.
    split; [reflexivity |]. split; [reflexivity |].
    split; [intros p content Hp; inversion Hp |].
    split; [intros _ p content Hp; inversion Hp |].
    split; [reflexivity | now split].
  - cbn [map] in Hnd. apply NoDup_cons in Hnd as [Hnotin Hnd].
    assert (Hne : forall p', p' ∈ ps -> basename p' <> basename p).
    { intros p' Hp' Heq. apply Hnotin. rewrite <- Heq.
      apply list_elem_of_fmap. eauto. }
    destruct (proj1 (isdir_true _) (Hdir p ltac:(left))) as [content Hcontent].
    rewrite for_each_cons_run.
    rewrite (in_video_run top (basename p) _ root videos content Htop Hcontent).
    set (content' := fst (remove_camera_folder p content)).
    set (videos1 := <[basename p := Dir content']> videos).
    set (root1 := <[top := Dir videos1]> root).
    assert (Hsame : forall p', p' ∈ ps ->
              videos1 !! basename p' = videos !! basename p').
    { intros p' Hp'. unfold videos1.
      rewrite lookup_insert_ne; [reflexivity |].
      apply not_eq_sym. now apply Hne. }
    destruct (snd (remove_camera_folder p content)) as [[] | e] eqn:Hsnd.
    + destruct (IH root1 videos1) as (videos2 & r & Hrun & Hframe & Hproc
                                      & Hret & Hsucc & Hfail).
      { apply lookup_insert_eq. }
      { exact Hnd. }
      { intros p' Hp'. rewrite (Hsame p' Hp'). apply Hdir. now right. }
      assert (Hp2 : videos2 !! basename p = Some (Dir content')).
      { rewrite (Hframe _ Hnotin). apply lookup_insert_eq. }
      exists videos2, r.
      split; [rewrite Hrun; unfold root1; f_equal; apply insert_insert_eq |].
      split; [| split; [| split; [| split]]].
      * intros v Hv. apply not_elem_of_cons in Hv as [Hv1 Hv2].
        rewrite (Hframe v Hv2). unfold videos1. now rewrite lookup_insert_ne.
      * intros p0 c0 Hp0 Hc0. apply elem_of_cons in Hp0 as [-> | Hp0].
        -- right. rewrite Hcontent in Hc0. injection Hc0 as <-. exact Hp2.
        -- apply (Hproc p0 c0 Hp0). now rewrite (Hsame p0 Hp0).
      * intros Hr p0 c0 Hp0 Hc0. apply elem_of_cons in Hp0 as [-> | Hp0].
        -- rewrite Hcontent in Hc0. injection Hc0 as <-.
           split; [exact Hp2 | exact Hsnd].
        -- apply (Hret Hr p0 c0 Hp0). now rewrite (Hsame p0 Hp0).
      * intros Hall. apply Hsucc. intros p0 c0 Hp0 Hc0.
        apply Hall; [now right |]. now rewrite <- (Hsame p0 Hp0).
      * intros Hall. specialize (Hall p content ltac:(left) Hcontent).
        rewrite Hall in Hsnd. discriminate.
    + exists videos1, (Raise e). split; [reflexivity |].
      split; [| split; [| split; [| split]]].
      * intros v Hv. apply not_elem_of_cons in Hv as [Hv1 _].
        unfold videos1. now rewrite lookup_insert_ne.
      * intros p0 c0 Hp0 Hc0. apply elem_of_cons in Hp0 as [-> | Hp0].
        -- right. rewrite Hcontent in Hc0. injection Hc0 as <-.
           apply lookup_insert_eq.
        -- left. now rewrite (Hsame p0 Hp0).
      * discriminate.
      * intros Hall. specialize (Hall p content ltac:(left) Hcontent).
        rewrite Hall in Hsnd. discriminate.
      * intros Hall. specialize (Hall p content ltac:(left) Hcontent).
        subst content'. unfold videos1. rewrite Hall in Hsnd |- *.
        cbn [fst snd] in *. injection Hsnd as <-.
        split; [now apply insert_id | reflexivity].
Qed.

(** *** The paths [glob] gives *)

Lemma names_valid_sep_free (content : listing) (n : string) :
  names_valid content -> is_Some (content !! n) -> sep_free n = true.
Proof. intros Hvalid Hn. apply entry_name_sep_free. now apply Hvalid. Qed.

Lemma join_entry_inj (d n m : string) :
  sep_free n = true -> sep_free m = true ->
  join d [n] = join d [m] -> n = m.
Proof.
  intros Hn Hm Heq. apply (f_equal basename) in Heq.
  now rewrite !basename_join in Heq.
Qed.

Lemma glob_entries_unfold (d : string) (content : listing) :
  glob_entries d content =
    map (fun n => join (glob_dirname d) [n]) (visible_names content).
Proof. reflexivity. Qed.

(** The path of a top-level directory, as [glob] gives it, is the
    directory part of the pattern made from it. *)
Lemma glob_dirname_entry (d n : string) :
  is_entry_name n = true -> glob_dirname (join d [n]) = join d [n].
Proof.
  intros Hn. destruct (join_entry_plain d n Hn) as [He Hend].
  now apply dirname_join_star.
Qed.

Lemma glob_entries_spec (d : string) (content : listing) (p : string) :
  p ∈ glob_entries d content
  <-> exists n : string,
        p = join (glob_dirname d) [n] /\ ishidden n = false
        /\ is_Some (content !! n).
Proof.
  rewrite glob_entries_unfold, list_elem_of_fmap. split.
  - intros (n & -> & [Hv Hn]%visible_names_spec). eauto.
  - intros (n & -> & Hv & Hn). exists n. split; [reflexivity |].
    now apply visible_names_spec.
Qed.

Lemma glob_entries_NoDup (d : string) (content : listing) :
  names_valid content -> NoDup (glob_entries d content).
Proof.
  intros Hvalid. rewrite glob_entries_unfold.
  apply NoDup_fmap_2_strong; [| apply visible_names_NoDup].
  intros n m [_ Hn]%visible_names_spec [_ Hm]%visible_names_spec.
  apply join_entry_inj; now apply (names_valid_sep_free content).
Qed.

(** The video directories of a top-level directory, as the script lists
    them: sorted, other entries left out. *)
Lemma video_paths_spec (d : string) (videos : listing) (p : string) :
  names_valid videos ->
  p ∈ filter (fun current_path =>
                isdir (videos !! basename current_path) = true)
             (sorted (glob_entries d videos))
  <-> exists v : string,
        p = join (glob_dirname d) [v] /\ ishidden v = false
        /\ isdir (videos !! v) = true.
Proof.
  intros Hvalid. rewrite list_elem_of_filter. unfold sorted.
  rewrite merge_sort_Permutation, glob_entries_spec. split.
  - intros (Hdir & n & -> & Hv & Hn).
    rewrite basename_join in Hdir by now apply (names_valid_sep_free videos).
    eauto.
  - intros (v & -> & Hv & Hdir).
    assert (Hn : is_Some (videos !! v)).
    { apply isdir_true in Hdir as [c ->]. eauto. }
    rewrite basename_join by now apply (names_valid_sep_free videos).
    split; [exact Hdir | eauto].
Qed.

Lemma video_paths_NoDup (d : string) (videos : listing) :
  names_valid videos ->
  NoDup (map basename
           (filter (fun current_path =>
                      isdir (videos !! basename current_path) = true)
                   (sorted (glob_entries d videos)))).
Proof.
  intros Hvalid. apply NoDup_fmap_2_strong.
  - intros x y Hx Hy Heq.
    apply video_paths_spec in Hx as (v1 & -> & _ & Hd1); [| exact Hvalid].
    apply video_paths_spec in Hy as (v2 & -> & _ & Hd2); [| exact Hvalid].
    apply isdir_true in Hd1 as [c1 Hc1]. apply isdir_true in Hd2 as [c2 Hc2].
    rewrite !basename_join in Heq
      by (apply (names_valid_sep_free videos); [exact Hvalid | eauto]).
    now subst.
  - apply NoDup_filter. unfold sorted. rewrite merge_sort_Permutation.
    now apply glob_entries_NoDup.
Qed.

(** *** One top-level directory *)

Lemma elaborate_skip (tp : string) (root : listing) :
  isdir (root !! basename tp) = false -> elaborate tp root = (root, Return tt).
Proof.
  unfold elaborate. now destruct (root !! basename tp) as [[c | videos] |].
Qed.

Lemma elaborate_dir (rd top : string) (root videos : listing) :
  is_entry_name top = true -> names_valid videos ->
  root !! top = Some (Dir videos) ->
  exists (videos' : listing) (r : result unit),
    elaborate (join rd [top]) root = (<[top := Dir videos']> root, r)
    /\ videos_touched (join rd [top]) videos videos'
    /\ (r = Return tt -> videos_flattened (join rd [top]) videos videos')
    /\ ((forall (v : string) (content : listing),
           ishidden v = false -> videos !! v = Some (Dir content) ->
           snd (remove_camera_folder (join (join rd [top]) [v]) content) =
             Return tt) ->
        r = Return tt)
    /\ ((forall (v : string) (content : listing),
           ishidden v = false -> videos !! v = Some (Dir content) ->
           remove_camera_folder (join (join rd [top]) [v]) content =
             (content, Raise FileNotFoundError)) ->
        videos' = videos
        /\ (r = Return tt \/ r = Raise FileNotFoundError)
        /\ ((exists (v : string) (content : listing),
               ishidden v = false /\ videos !! v = Some (Dir content)) ->
            r = Raise FileNotFoundError)).
Proof.
  intros Htop Hvalid Hroot. set (tp := join rd [top]).
  assert (Hbase : basename tp = top)
    by (apply basename_join; now apply entry_name_sep_free).
  set (ps := filter (fun current_path =>
                       isdir (videos !! basename current_path) = true)
                    (sorted (glob_entries tp videos))).
  assert (Hspec : forall p, p ∈ ps <->
            exists v, p = join tp [v] /\ ishidden v = false
                      /\ isdir (videos !! v) = true).
  { intros p. unfold ps. rewrite video_paths_spec by exact Hvalid.
    unfold tp. now rewrite glob_dirname_entry. }
  assert (Hbn : forall v c, videos !! v = Some (Dir c) ->
            basename (join tp [v]) = v).
  { intros v c Hv. apply basename_join.
    apply (names_valid_sep_free videos); [exact Hvalid | eauto]. }
  assert (Hin : forall v c, ishidden v = false -> videos !! v = Some (Dir c) ->
            join tp [v] ∈ ps).
  { intros v c Hv Hc. apply Hspec. exists v.
    split; [reflexivity |]. split; [exact Hv |]. now rewrite Hc. }
  assert (Hout : forall v, v ∈ map basename ps ->
            ishidden v = false /\ exists c, videos !! v = Some (Dir c)).
  { intros v (p & -> & Hp)%list_elem_of_fmap.
    apply Hspec in Hp as (v' & -> & Hv' & Hdir).
    apply isdir_true in Hdir as [c Hc]. rewrite (Hbn v' c Hc). eauto. }
  destruct (videos_loop top ps root videos Hroot) as
    (videos' & r & Hrun & Hframe & Hproc & Hret & Hsucc & Hfail).
  { now apply video_paths_NoDup. }
  { intros p (v & -> & _ & Hdir)%Hspec.
    apply isdir_true in Hdir as Hc. destruct Hc as [c Hc].
    now rewrite (Hbn v c Hc). }
  exists videos', r.
  split; [| split; [| split; [| split]]].
  - unfold elaborate. rewrite Hbase, Hroot. exact Hrun.
  - intros v. destruct (videos !! v) as [[c | content] |] eqn:Hv.
    + rewrite <- Hv. apply Hframe. intros [_ [c' Hc']]%Hout. congruence.
    + destruct (ishidden v) eqn:Hh.
      * rewrite <- Hv. apply Hframe. intros [Hh' _]%Hout. congruence.
      * specialize (Hproc (join tp [v]) content (Hin v content Hh Hv)).
        rewrite (Hbn v content Hv) in Hproc. now apply Hproc.
    + rewrite <- Hv. apply Hframe. intros [_ [c' Hc']]%Hout. congruence.
  - intros Hr v. destruct (videos !! v) as [[c | content] |] eqn:Hv.
    + rewrite <- Hv. apply Hframe. intros [_ [c' Hc']]%Hout. congruence.
    + destruct (ishidden v) eqn:Hh.
      * rewrite <- Hv. apply Hframe. intros [Hh' _]%Hout. congruence.
      * specialize (Hret Hr (join tp [v]) content (Hin v content Hh Hv)).
        rewrite (Hbn v content Hv) in Hret.
        destruct (Hret Hv) as [Hv' Hsnd]. split; [| exact Hv'].
        rewrite <- Hsnd. now destruct (remove_camera_folder _ content).
    + rewrite <- Hv. apply Hframe. intros [_ [c' Hc']]%Hout. congruence.
  - intros Hall. apply Hsucc. intros p content (v & -> & Hh & Hdir)%Hspec Hc.
    apply isdir_true in Hdir as [c0 Hc0]. rewrite (Hbn v c0 Hc0) in Hc.
    now apply Hall.
  - intros Hall. destruct Hfail as [Heq Hr].
    { intros p content (v & -> & Hh & Hdir)%Hspec Hc.
      apply isdir_true in Hdir as [c0 Hc0]. rewrite (Hbn v c0 Hc0) in Hc.
      now apply Hall. }
    split; [exact Heq |]. split.
    + rewrite Hr. destruct ps; [now left | now right].
    + intros (v & content & Hh & Hc). rewrite Hr.
      pose proof (Hin v content Hh Hc) as Hp.
      destruct ps; [inversion Hp | reflexivity].
Qed.

(** *** The loop over the top-level directories *)

Lemma videos_touched_refl (tp : string) (videos : listing) :
  videos_touched tp videos videos.
Proof.
  intros v. destruct (videos !! v) as [[c | content] |]; try reflexivity.
  destruct (ishidden v); [reflexivity | now left].
Qed.

Lemma tops_loop (rd : string) (ns : list string) :
  forall root : listing,
  NoDup ns ->
  (forall n, n ∈ ns -> is_entry_name n = true) ->
  (forall n videos, n ∈ ns -> root !! n = Some (Dir videos) ->
     names_valid videos) ->
  exists (root' : listing) (r : result unit),
    for_each (map (fun n => join rd [n]) ns) elaborate root = (root', r)
    /\ (forall n, n ∉ ns -> root' !! n = root !! n)
    /\ (forall n, n ∈ ns ->
          match root !! n with
          | Some (Dir videos) =>
              exists videos' : listing,
                root' !! n = Some (Dir videos')
                /\ videos_touched (join rd [n]) videos videos'
          | _ => root' !! n = root !! n
          end)
    /\ (r = Return tt ->
        forall n, n ∈ ns ->
          match root !! n with
          | Some (Dir videos) =>
              exists videos' : listing,
                root' !! n = Some (Dir videos')
                /\ videos_flattened (join rd [n]) videos videos'
          | _ => root' !! n = root !! n
          end)
    /\ ((forall n videos v content,
           n ∈ ns -> root !! n = Some (Dir videos) ->
           ishidden v = false -> videos !! v = Some (Dir content) ->
           snd (remove_camera_folder (join (join rd [n]) [v]) content) =
             Return tt) ->
        r = Return tt)
    /\ ((forall n videos v content,
           n ∈ ns -> root !! n = Some (Dir videos) ->
           ishidden v = false -> videos !! v = Some (Dir content) ->
           remove_camera_folder (join (join rd [n]) [v]) content =
             (content, Raise FileNotFoundError)) ->
        root' = root
        /\ (r = Return tt \/ r = Raise FileNotFoundError)
        /\ ((exists n videos v content,
               n ∈ ns /\ root !! n = Some (Dir videos)
               /\ ishidden v = false /\ videos !! v = Some (Dir content)) ->
            r = Raise FileNotFoundError)).
Proof.
  induction ns as [|n ns IH]; intros root Hnd Hnames Hvalid.
  - exists root, (Return tt). split; [reflexivity |].
    split; [reflexivity |].
    split; [intros n Hn; inversion Hn |].
    split; [intros _ n Hn; inversion Hn |].
    split; [reflexivity |]. intros _. split; [reflexivity |].
    split; [now left |]. intros (n & ? & ? & ? & Hn & _). inversion Hn.
  - apply NoDup_cons in Hnd as [Hnotin Hnd].
    assert (Hbase : basename (join rd [n]) = n).
    { apply basename_join, entry_name_sep_free, Hnames. now left. }
    assert (Hother : forall n', n' ∈ ns -> n' <> n) by (intros n' Hn' ->; auto).
    cbn [map]. rewrite for_each_cons_run.
    destruct (isdir (root !! n)) eqn:Hdir.
    + apply isdir_true in Hdir as [videos Hn].
      destruct (elaborate_dir rd n root videos) as
        (videos1 & r1 & Hrun1 & Htouched & Hflat & Hsucc1 & Hfail1).
      { apply Hnames. now left. }
      { apply (Hvalid n); [now left | exact Hn]. }
      { exact Hn. }
      rewrite Hrun1. set (root1 := <[n := Dir videos1]> root).
      assert (Hsame : forall n', n' <> n -> root1 !! n' = root !! n').
      { intros n' Hne. unfold root1. now rewrite lookup_insert_ne. }
      assert (Hn1 : root1 !! n = Some (Dir videos1)) by apply lookup_insert_eq.
      destruct r1 as [[] | e].
      * destruct (IH root1) as (root' & r & Hrun & Ha & Hb & Hc & Hd & He).
        { exact Hnd. }
        { intros n' Hn'. apply Hnames. now right. }
        { intros n' videos' Hn' Hv'. apply (Hvalid n'); [now right |].
          now rewrite <- (Hsame n' (Hother n' Hn')). }
        exists root', r. split; [exact Hrun |].
        split; [| split; [| split; [| split]]].
        -- intros n' [Hne Hn']%not_elem_of_cons.
           now rewrite (Ha n' Hn'), (Hsame n' Hne).
        -- intros n' [-> | Hn']%elem_of_cons.
           ++ rewrite Hn. exists videos1. split; [| exact Htouched].
              now rewrite (Ha n Hnotin).
           ++ specialize (Hb n' Hn').
              now rewrite (Hsame n' (Hother n' Hn')) in Hb.
        -- intros Hr n' [-> | Hn']%elem_of_cons.
           ++ rewrite Hn. exists videos1. split; [| now apply Hflat].
              now rewrite (Ha n Hnotin).
           ++ specialize (Hc Hr n' Hn').
              now rewrite (Hsame n' (Hother n' Hn')) in Hc.
        -- intros Hall. apply Hd. intros n' videos' v content Hn' Hv'.
           apply (Hall n' videos' v content); [now right |].
           now rewrite <- (Hsame n' (Hother n' Hn')).
        -- intros Hall.
           destruct Hfail1 as (Heq1 & _ & Hex1).
           { intros v content. apply (Hall n videos v content); [now left | exact Hn]. }
           assert (Hroot1 : root1 = root).
           { unfold root1. rewrite Heq1. now apply insert_id. }
           destruct He as (Heq & Hr & Hex).
           { intros n' videos' v content Hn' Hv'.
             apply (Hall n' videos' v content); [now right |].
             now rewrite <- (Hsame n' (Hother n' Hn')). }
           split; [now rewrite Heq |]. split; [exact Hr |].
           intros (n' & videos' & v & content & Hn' & Hv' & Hh & Hc').
           apply elem_of_cons in Hn' as [-> | Hn'].
           ++ rewrite Hn in Hv'. injection Hv' as <-.
              assert (Hcontra : Return tt = Raise FileNotFoundError)
                by (apply Hex1; eauto).
              discriminate.
           ++ apply Hex. exists n', videos', v, content.
              split; [exact Hn' |]. split; [| auto].
              now rewrite (Hsame n' (Hother n' Hn')).
      * exists root1, (Raise e). split; [reflexivity |].
        split; [| split; [| split; [| split]]].
        -- intros n' [Hne _]%not_elem_of_cons. now apply Hsame.
        -- intros n' [-> | Hn']%elem_of_cons.
           ++ rewrite Hn. eauto.
           ++ rewrite (Hsame n' (Hother n' Hn')).
              destruct (root !! n') as [[c | videos'] |]; try reflexivity.
              exists videos'. split; [reflexivity | apply videos_touched_refl].
        -- discriminate.
        -- intros Hall.
           assert (Hcontra : Raise e = Return tt); [| discriminate].
           apply Hsucc1. intros v content.
           apply (Hall n videos v content); [now left | exact Hn].
        -- intros Hall.
           destruct Hfail1 as (Heq1 & Hr1 & _).
           { intros v content. apply (Hall n videos v content); [now left | exact Hn]. }
           destruct Hr1 as [Hr1 | Hr1]; [discriminate |]. injection Hr1 as ->.
           split; [unfold root1; rewrite Heq1; now apply insert_id |].
           split; [now right | reflexivity].
    + rewrite elaborate_skip by now rewrite Hbase.
      assert (Hn : match root !! n with
                   | Some (Dir _) => False
                   | _ => True
                   end).
      { destruct (root !! n) as [[c | videos] |]; [exact I | discriminate | exact I]. }
      destruct (IH root) as (root' & r & Hrun & Ha & Hb & Hc & Hd & He).
      { exact Hnd. }
      { intros n' Hn'. apply Hnames. now right. }
      { intros n' videos' Hn'. apply (Hvalid n'). now right. }
      exists root', r. split; [exact Hrun |].
      split; [| split; [| split; [| split]]].
      * intros n' [_ Hn']%not_elem_of_cons. now apply Ha.
      * intros n' [-> | Hn']%elem_of_cons; [| now apply Hb].
        destruct (root !! n) as [[c | videos] |] eqn:E; [| destruct Hn |];
          now rewrite (Ha n Hnotin).
      * intros Hr n' [-> | Hn']%elem_of_cons; [| now apply Hc].
        destruct (root !! n) as [[c | videos] |] eqn:E; [| destruct Hn |];
          now rewrite (Ha n Hnotin).
      * intros Hall. apply Hd. intros n' videos' v content Hn'.
        apply (Hall n' videos' v content). now right.
      * intros Hall. destruct He as (Heq & Hr & Hex).
        { intros n' videos' v content Hn'.
          apply (Hall n' videos' v content). now right. }
        split; [exact Heq |]. split; [exact Hr |].
        intros (n' & videos' & v & content & Hn' & Hv' & Hh & Hc').
        apply elem_of_cons in Hn' as [-> | Hn'].
        -- rewrite Hv' in Hn. destruct Hn.
        -- apply Hex. eauto 10.
Qed.

(** *** The script *)

Lemma flatten_videos_run (rd : string) (root : listing) :
  tree_names_valid root ->
  exists (root' : listing) (r : result unit),
    flatten_videos rd root = (root', r)
    /\ tree_touched rd root root'
    /\ (r = Return tt -> tree_flattened rd root root')
    /\ ((forall top video content,
           video_directory root top video content ->
           snd (remove_camera_folder
                  (join (join (glob_dirname rd) [top]) [video]) content) =
             Return tt) ->
        r = Return tt)
    /\ ((forall top video content,
           video_directory root top video content ->
           remove_camera_folder
             (join (join (glob_dirname rd) [top]) [video]) content =
             (content, Raise FileNotFoundError)) ->
        root' = root
        /\ ((exists top video content,
               video_directory root top video content) ->
            r = Raise FileNotFoundError)).
Proof.
  intros [Hroot Htops].
  destruct (tops_loop (glob_dirname rd) (visible_names root) root)
    as (root' & r & Hrun & Ha & Hb & Hc & Hd & He).
  { apply visible_names_NoDup. }
  { intros n [_ Hn]%visible_names_spec. now apply Hroot. }
  { intros n videos _. apply Htops. }
  assert (Hvis : forall n videos, root !! n = Some (Dir videos) ->
            ishidden n = false -> n ∈ visible_names root).
  { intros n videos Hn Hh. apply visible_names_spec. eauto. }
  assert (Hhid : forall n, ishidden n = true -> n ∉ visible_names root).
  { intros n Hh [Hh' _]%visible_names_spec. congruence. }
  exists root', r. split; [exact Hrun |].
  split; [| split; [| split]].
  - intros top. destruct (root !! top) as [[c | videos] |] eqn:Htop.
    + destruct (decide (top ∈ visible_names root)) as [Hin | Hout].
      * specialize (Hb top Hin). now rewrite Htop in Hb.
      * now rewrite (Ha top Hout).
    + destruct (ishidden top) eqn:Hh.
      * now rewrite (Ha top (Hhid top Hh)).
      * specialize (Hb top (Hvis top videos Htop Hh)). now rewrite Htop in Hb.
    + rewrite (Ha top); [exact Htop |].
      intros [_ [x Hx]]%visible_names_spec. congruence.
  - intros Hr top. destruct (root !! top) as [[c | videos] |] eqn:Htop.
    + destruct (decide (top ∈ visible_names root)) as [Hin | Hout].
      * specialize (Hc Hr top Hin). now rewrite Htop in Hc.
      * now rewrite (Ha top Hout).
    + destruct (ishidden top) eqn:Hh.
      * now rewrite (Ha top (Hhid top Hh)).
      * specialize (Hc Hr top (Hvis top videos Htop Hh)).
        now rewrite Htop in Hc.
    + rewrite (Ha top); [exact Htop |].
      intros [_ [x Hx]]%visible_names_spec. congruence.
  - intros Hall. apply Hd. intros n videos v content Hn Hnv Hh Hv.
    apply Hall. apply visible_names_spec in Hn as [Hhn _].
    split; [exact Hhn |]. split; [exact Hh | eauto].
  - intros Hall. destruct He as (Heq & _ & Hex).
    { intros n videos v content Hn Hnv Hh Hv.
      apply Hall. apply visible_names_spec in Hn as [Hhn _].
      split; [exact Hhn |]. split; [exact Hh | eauto]. }
    split; [exact Heq |].
    intros (top & video & content & Hht & Hhv & videos & Htop & Hvideo).
    apply Hex. exists top, videos, video, content.
    split; [now apply (Hvis top videos) |]. auto.
Qed.

(** X17. On a tree whose paths [glob] reads literally, the script,
    whatever its outcome, changes nothing outside the video directories:
    the entries of the root that are files or whose name starts with a
    dot are as they were, and so are, in every other top-level
    directory, the files and the entries whose name starts with a dot; a
    video directory is as it was or as [remove_camera_folder] leaves
    it. *)
Theorem flatten_videos_touches_video_directories_only (rd : string)
    (root : listing) :
  tree_literal rd root ->
  tree_names_valid root ->
  tree_touched rd root (fst (flatten_videos rd root)).
Proof.
  intros _ Hvalid.
  destruct (flatten_videos_run rd root Hvalid) as (root' & r & Hrun & Ht & _).
  now rewrite Hrun.
Qed.

Lemma flattenable_returns (path : string) (content : listing) :
  flattenable content ->
  exists content' : listing,
    remove_camera_folder path content = (content', Return tt)
    /\ content' !! camera_folder_name = None
    /\ forall (children : gmap string node) (n : string) (f : node),
         camera_children content = Some children ->
         children !! n = Some f -> ishidden n = false ->
         content' !! n = Some f.
Proof.
  intros ([children Hch] & Hvalid & Hnc).
  destruct (remove_camera_folder_run path content children Hch Hvalid Hnc)
    as (content' & Hrun & Hmoved & Hgone & _).
  exists content'. split; [exact Hrun |]. split; [exact Hgone |].
  intros ch n f Hch' Hf Hh. rewrite Hch in Hch'. injection Hch' as <-.
  rewrite Hmoved; [exact Hf |]. apply visible_names_spec. eauto.
Qed.


(** What a tree that was flattened looks like. *)
Lemma tree_flattened_inv (rd : string) (root root' : listing) :
  tree_names_valid root -> tree_flattened rd root root' ->
  tree_names_valid root'
  /\ (forall top video content',
        video_directory root' top video content' ->
        content' !! camera_folder_name = None)
  /\ (forall top video content,
        video_directory root top video content ->
        exists content', video_directory root' top video content').
Proof.
  intros [Hroot Htops] Hflat.
  assert (Hsome : forall n, is_Some (root' !! n) -> is_Some (root !! n)).
  { intros n Hn. specialize (Hflat n).
    destruct (root !! n) as [[c | videos] |]; [eauto | eauto |].
    now rewrite Hflat in Hn. }
  assert (Hdirs : forall n videos', root' !! n = Some (Dir videos') ->
            exists videos, root !! n = Some (Dir videos)
              /\ (ishidden n = true -> videos' = videos)
              /\ (ishidden n = false ->
                  videos_flattened (join (glob_dirname rd) [n])
                    videos videos')).
  { intros n videos' Hn. specialize (Hflat n).
    destruct (root !! n) as [[c | videos] |]; [congruence | | congruence].
    exists videos. split; [reflexivity |].
    destruct (ishidden n); split; try discriminate.
    - intros _. congruence.
    - intros _. destruct Hflat as (v2 & Hv2 & Hfl).
      rewrite Hn in Hv2. now injection Hv2 as <-. }
  split; [| split].
  - split.
    + intros n Hn. apply Hroot. now apply Hsome.
    + intros n videos' Hn v Hv.
      destruct (Hdirs n videos' Hn) as (videos & Hn0 & Hhid & Hvis).
      apply (Htops n videos Hn0).
      destruct (ishidden n); [now rewrite <- (Hhid eq_refl) |].
      specialize (Hvis eq_refl v).
      destruct (videos !! v) as [[c | content] |]; [eauto | eauto |].
      now rewrite Hvis in Hv.
  - intros top video content' (Hht & Hhv & videos' & Htop' & Hvideo').
    destruct (Hdirs top videos' Htop') as (videos & _ & _ & Hvis).
    specialize (Hvis Hht video). rewrite Hhv in Hvis.
    destruct (videos !! video) as [[c | content] |]; [congruence | | congruence].
    destruct Hvis as [Hrcf Hv']. rewrite Hvideo' in Hv'. injection Hv' as ->.
    now apply (remove_camera_folder_return _ _ _ Hrcf).
  - intros top video content (Hht & Hhv & videos & Htop & Hvideo).
    specialize (Hflat top). rewrite Htop, Hht in Hflat.
    destruct Hflat as (videos' & Htop' & Hvideos).
    specialize (Hvideos video). rewrite Hvideo, Hhv in Hvideos.
    destruct Hvideos as [_ Hvideo'].
    eexists. split; [exact Hht |]. split; [exact Hhv |]. eauto.
Qed.

(** X19. The script cannot be run twice: on a tree whose paths [glob]
    reads literally and that has at least one video directory, after a
    run that returned, a second run raises [FileNotFoundError] at the
    first video directory it comes to and leaves the tree as it is. *)
Theorem flatten_videos_not_repeatable (rd : string) (root root' : listing) :
  tree_literal rd root ->
  tree_names_valid root ->
  flatten_videos rd root = (root', Return tt) ->
  (exists top video content, video_directory root top video content) ->
  flatten_videos rd root' = (root', Raise FileNotFoundError).
Proof.
  intros _ Hvalid Hrun (top & video & content & Hv).
  destruct (flatten_videos_run rd root Hvalid)
    as (root1 & r & Hrun1 & _ & Hdone & _).
  rewrite Hrun in Hrun1. injection Hrun1 as <- <-.
  destruct (tree_flattened_inv rd root root' Hvalid (Hdone eq_refl))
    as (Hvalid' & Hgone & Hkept).
  destruct (flatten_videos_run rd root' Hvalid')
    as (root2 & r2 & Hrun2 & _ & _ & _ & Hfail).
  destruct Hfail as [-> Hr2].
  { intros top' video' content' Hv'.
    apply remove_camera_folder_missing. now apply (Hgone top' video'). }
  rewrite Hrun2. f_equal. apply Hr2.
  destruct (Hkept top video content Hv) as [content' Hv']. eauto.
Qed.

(** X20. Without [--directory] on the command line the script touches
    nothing: it leaves at argument parsing, with exit status 0 or 2, and
    the tree is as it was. *)
Theorem main_without_directory_touches_nothing (argv : list string)
    (root : listing) :
  without_directory argv ->
  exists status : nat,
    main argv root = (root, Raise (SystemExit status))
    /\ (status = 0 \/ status = 2).
Proof.
  intros Hno. unfold main. rewrite bind_run. unfold lift.
  destruct (parse_args argv) as [directory | e] eqn:Hparse.
  - apply parse_args_return in Hparse.
    apply Exists_exists in Hparse as (arg & Hin & Hsel).
    apply (proj1 (Forall_forall _ _) Hno) in Hin. congruence.
  - destruct (parse_args_raise argv e Hparse) as [-> | ->]; eauto.
Qed.

(** *** A tree with one video *)

Lemma singleton_tree_valid (top video : string) (content : listing) :
  is_entry_name top = true -> is_entry_name video = true ->
  tree_names_valid {[top := Dir {[video := Dir content]}]}.
Proof.
  intros Htop Hvideo. split.
  - intros n [x Hx]. now apply lookup_singleton_Some in Hx as [<- _].
  - intros n videos Hn. apply lookup_singleton_Some in Hn as [<- [= <-]].
    intros v [x Hx]. now apply lookup_singleton_Some in Hx as [<- _].
Qed.

Lemma singleton_tree_literal (rd top video : string) (content : listing) :
  has_magic rd = false -> has_magic top = false -> has_magic video = false ->
  tree_literal rd {[top := Dir {[video := Dir content]}]}.
Proof.
  intros Hrd Htop Hvideo. split; [exact Hrd |]. split.
  - intros n [x Hx]. now apply lookup_singleton_Some in Hx as [<- _].
  - intros n videos Hn. apply lookup_singleton_Some in Hn as [<- [= <-]].
    intros v [x Hx]. now apply lookup_singleton_Some in Hx as [<- _].
Qed.

Lemma singleton_video_directory (top video t v : string) (content c : listing) :
  video_directory {[top := Dir {[video := Dir content]}]} t v c ->
  c = content.
Proof.
  intros (_ & _ & videos & Ht & Hv).
  apply lookup_singleton_Some in Ht as [<- [= <-]].
  now apply lookup_singleton_Some in Hv as [<- [= <-]].
Qed.

Lemma one_frame_flattenable (frame : string) (f : node) :
  is_entry_name frame = true -> ishidden frame = false ->
  frame <> camera_folder_name ->
  flattenable {[camera_folder_name := Dir {[frame := f]}]}.
Proof.
  intros Hname Hvisible Hne.
  assert (Hch : camera_children {[camera_folder_name := Dir {[frame := f]}]} =
                Some {[frame := f]}).
  { unfold camera_children. now rewrite lookup_singleton_eq. }
  split; [rewrite Hch; eauto |]. split.
  - intros ch n Hch' [x Hx]. rewrite Hch in Hch'. injection Hch' as <-.
    now apply lookup_singleton_Some in Hx as [<- _].
  - intros ch n g Hch' Hg _. rewrite Hch in Hch'. injection Hch' as <-.
    apply lookup_singleton_Some in Hg as [<- <-].
    rewrite lookup_singleton_ne by (apply not_eq_sym; exact Hne).
    now destruct f.
Qed.

Lemma flatten_videos_touches_video_directories_only_witness :
  let root : listing :=
    {["train" := Dir {["0001" := Dir {["00000" :=
                                         Dir {["0.png" := File "frame 0"]}]}]}]} in
  tree_touched "data" root (fst (flatten_videos "data" root)).
Proof.
  intros root.
  apply (flatten_videos_touches_video_directories_only "data" root).
  - now apply singleton_tree_literal.
  - now apply singleton_tree_valid.
Defined.


Lemma flatten_videos_not_repeatable_witness :
  let root : listing :=
    {["train" := Dir {["0001" := Dir {["00000" :=
                                         Dir {["0.png" := File "frame 0"]}]}]}]} in
  let root' := fst (flatten_videos "data" root) in
  flatten_videos "data" root' = (root', Raise FileNotFoundError).
Proof.
  intros root root'.
  apply (flatten_videos_not_repeatable "data" root root').
  - now apply singleton_tree_literal.
  - now apply singleton_tree_valid.
  - reflexivity.
  - exists "train", "0001", {["00000" := Dir {["0.png" := File "frame 0"]}]}.
    split; [reflexivity |]. split; [reflexivity |].
    eexists. split; reflexivity.
Defined.

Lemma main_without_directory_touches_nothing_witness :
  let root : listing :=
    {["train" := Dir {["0001" := Dir {["00000" :=
                                         Dir {["0.png" := File "frame 0"]}]}]}]} in
  exists status : nat,
    main ["--verbose"; "data"] root = (root, Raise (SystemExit status))
    /\ (status = 0 \/ status = 2).
Proof.
  intros root.
  apply (main_without_directory_touches_nothing ["--verbose"; "data"] root).
  repeat constructor.
Defined.

End ScriptFacts.

(** ** The command line: the value of [--directory] *)
Module ArgParseMore.
Import Py PosixPath PosixPathFacts OutputPathsFacts ArgParse ArgParseFacts.
Import Script.

(** A string that does not start with a dash is an argument. *)
Lemma parse_optional_argument (v : string) :
  (forall rest : string, v <> String "-" rest) ->
  parse_optional v = Return None /\ String.eqb v "--" = false.
Proof.
  intros Hv. destruct v as [|c rest]; [now split |].
  assert (Hc : is_prefix_char c = false).
  { unfold is_prefix_char. destruct (Ascii.eqb c "-") eqn:E; [| reflexivity].
    apply Ascii.eqb_eq in E as ->. now destruct (Hv rest). }
  split.
  - cbn [parse_optional]. now rewrite Hc.
  - cbn [String.eqb]. unfold is_prefix_char in Hc. now rewrite Hc.
Qed.

Lemma get_values_single (v : string) :
  v <> "--" -> get_values [v] = Str v.
Proof.
  intros Hv. unfold get_values. cbn [remove_dashes].
  now rewrite (proj2 (String.eqb_neq v "--") Hv).
Qed.

Lemma dashes_not_argument (v : string) :
  (forall rest : string, v <> String "-" rest) -> v <> "--".
Proof. intros Hv E. now apply (Hv "-"). Qed.

(** X21. The value given to [--directory] is taken as it is, without any
    normalization: after [--directory=] any string but [--] is the
    directory, the empty string included; as a separate argument, any
    string that does not start with a dash is.  After [--directory=--]
    the directory is an empty list, and the script raises [TypeError]
    before it touches anything. *)
Theorem directory_value_verbatim (v : string) :
  (v <> "--" -> parse_args ["--directory=" +:+ v] = Return (Str v))
  /\ ((forall rest : string, v <> String "-" rest) ->
      parse_args ["--directory"; v] = Return (Str v))
  /\ parse_args ["--directory=--"] = Return (Strs [])
  /\ forall root : CameraFolder.listing,
       main ["--directory=--"] root = (root, Raise TypeError).
Proof.
  split; [| split; [| split]].
  - intros Hv.
    assert (Hrun : parse_args ["--directory=" +:+ v] =
                   Return (get_values [v])).
    { rewrite !append_cons, append_empty_l. now destruct v. }
    now rewrite Hrun, get_values_single.
  - intros Hv. destruct (parse_optional_argument v Hv) as [Hopt Hdashes].
    unfold parse_args. cbn [scan]. rewrite Hdashes.
    replace (String.eqb "--directory" "--") with false by reflexivity.
    replace (parse_optional "--directory")
      with (@Return (option option_tuple)
              (Some (Some StoreDirectory, "--directory", None)))
      by reflexivity.
    rewrite Hopt. cbn.
    now rewrite (get_values_single v (dashes_not_argument v Hv)).
  - reflexivity.
  - intros root. reflexivity.
Qed.

Lemma directory_value_verbatim_witness :
  parse_args ["--directory=data//videos/../videos/"] =
    Return (Str "data//videos/../videos/")
  /\ parse_args ["--directory"; "data//videos/../videos/"] =
       Return (Str "data//videos/../videos/").
Proof.
  destruct (directory_value_verbatim "data//videos/../videos/")
    as (Hequals & Hseparate & _).
  split.
  - apply Hequals. discriminate.
  - apply Hseparate. intros rest. discriminate.
Defined.

(** X22. [--directory] may be abbreviated: any prefix of it that has at
    least one character after the two dashes, from [--d] on, followed by
    a value that does not start with a dash, gives that value as the
    directory. *)
Theorem directory_abbreviations (p v : string) :
  String.prefix p "--directory" = true -> 3 <= String.length p ->
  (forall rest : string, v <> String "-" rest) ->
  parse_args [p; v] = Return (Str v).
Proof.
  intros Hp Hlen Hv.
  destruct (parse_optional_argument v Hv) as [Hopt Hdashes].
  pose proof (get_values_single v (dashes_not_argument v Hv)) as Hvalue.
  assert (Hscan : forall t : option_tuple,
            String.eqb p "--" = false ->
            parse_optional p = Return (Some t) ->
            scan [p; v] = Return [(p, O t); (v, A)]).
  { intros t Hd Ht. cbn [scan]. now rewrite Hd, Ht, Hdashes, Hopt. }
  do 3 (destruct p as [|? p]; [cbn in Hlen; lia |];
        cbn [String.prefix] in Hp;
        match type of Hp with
        | (if ascii_dec ?a ?b then _ else _) = true =>
            destruct (ascii_dec a b); [subst | discriminate]
        end).
  clear Hlen.
  repeat (destruct p as [|? p];
          [unfold parse_args; erewrite Hscan by reflexivity; cbn;
           now rewrite Hvalue |];
          cbn [String.prefix] in Hp;
          match type of Hp with
          | (if ascii_dec ?a ?b then _ else _) = true =>
              destruct (ascii_dec a b); [subst | discriminate]
          | false = true => discriminate
          end).
Qed.

Lemma directory_abbreviations_witness :
  parse_args ["--dir"; "data"] = Return (Str "data").
Proof.
  apply (directory_abbreviations "--dir" "data").
  - reflexivity.
  - cbn. lia.
  - intros rest. discriminate.
Defined.

End ArgParseMore.

(** ** The AdaIn layers: shapes, and the layer as it is constructed *)
Module AdaInMore.
Import Py AdaInLayer AdaInFacts.

Section Layers.
Context {A : Type} `{Scalar A}.
Implicit Types (m : list (list A)) (t : list A).

Lemma linear_forward_shape (l : linear A) (x : list (list A))
    (batch n : nat) :
  length x = batch -> length (weight l) = n -> length (bias l) = n ->
  has_shape batch n (linear_forward l x).
Proof.
  intros Hx Hw Hb. unfold linear_forward. split.
  - now rewrite length_map.
  - apply Forall_fmap, Forall_forall. intros row _. cbn.
    rewrite length_zip_with, length_map. lia.
Qed.

(** The two halves [chunk(2, 1)] gives have half the columns. *)
Lemma chunk_shape (f batch : nat) m (scale bias : list (list A)) :
  has_shape batch (2 * f) m ->
  unpack2 (chunk 2 (2 * f) m) = Return (scale, bias) ->
  has_shape batch f scale /\ has_shape batch f bias.
Proof.
  intros [Hrows Hcols]. unfold chunk.
  replace ((2 * f + 2 - 1) / 2) with f
    by (apply (Nat.div_unique _ 2 f 1); lia).
  destruct f as [|f].
  - cbn. intros [= <- <-]. split; (split; [now rewrite length_map |]);
      apply Forall_fmap, Forall_forall; now intros row _.
  - replace (Nat.eqb (S f) 0) with false by reflexivity. cbn [andb].
    replace ((2 * S f + S f - 1) / S f) with 2
      by (apply (Nat.div_unique _ (S f) 2 f); lia).
    cbn [Nat.max seq map unpack2]. intros [= <- <-].
    split; (split; [now rewrite length_map |]);
      apply Forall_fmap; apply (Forall_impl _ _ _ Hcols); intros row Hrow; cbn;
      rewrite length_take, length_drop; lia.
Qed.

(** X23. The layer keeps the shape of the activations: with an affine
    transform of [2 * f] output features, a style of [batch] rows and a
    normalization that gives a [(batch, f)] tensor, [forward] returns a
    [(batch, f)] tensor. *)
Theorem AffineTransformAdaIn_forward_shape (self : AffineTransformAdaIn A)
    (input style normalized : list (list A)) (batch f : nat) :
  length (weight (affine_transform self)) = 2 * f ->
  length (bias (affine_transform self)) = 2 * f ->
  length style = batch ->
  normalization (ada_in self) input = Return normalized ->
  has_shape batch f normalized ->
  exists out : list (list A),
    AffineTransformAdaIn_forward self input style = Return out
    /\ has_shape batch f out.
Proof.
  intros Hw Hb Hstyle Hnorm Hshape.
  pose proof (linear_forward_shape (affine_transform self) style batch (2 * f)
                Hstyle Hw Hb) as Henc.
  unfold AffineTransformAdaIn_forward. cbv zeta.
  unfold out_features. rewrite Hb.
  destruct (chunk_halves f (linear_forward (affine_transform self) style))
    as (scale & bias & Hchunk & _).
  destruct (chunk_shape f batch _ scale bias Henc Hchunk) as [Hs Hbias].
  rewrite Hchunk. cbn [mbind result_bind].
  unfold AdaIn_forward. rewrite Hnorm. cbn [mbind result_bind].
  eexists. split; [reflexivity |].
  apply pointwise_shape; [| exact Hbias].
  now apply pointwise_shape.
Qed.

(** Two tensors of one shape with the same entries are equal. *)
Lemma shape_ext (rows cols : nat) m1 m2 :
  has_shape rows cols m1 -> has_shape rows cols m2 ->
  (forall (i j : nat) (x y : A),
     cell m1 i j = Some x -> cell m2 i j = Some y -> x = y) ->
  m1 = m2.
Proof.
  intros [Hr1 Hc1] [Hr2 Hc2] Hcell.
  apply (list_eq_same_length _ _ rows); [exact Hr2 | exact Hr1 |].
  intros i r1 r2 Hi H1 H2.
  apply (list_eq_same_length _ _ cols).
  - exact (proj1 (Forall_lookup _ _) Hc2 _ _ H2).
  - exact (proj1 (Forall_lookup _ _) Hc1 _ _ H1).
  - intros j x y Hj Hx Hy. apply (Hcell i j); unfold cell.
    + now rewrite H1.
    + now rewrite H2.
Qed.

End Layers.

Lemma AffineTransformAdaIn_forward_shape_witness :
  let layer :=
    AffineTransformAdaIn_init 1 1 (Linear [[2]; [3]]%Z [0; 0]%Z) Return in
  exists out : list (list Z),
    AffineTransformAdaIn_forward layer [[4]; [6]]%Z [[5]; [7]]%Z = Return out
    /\ has_shape 2 1 out.
Proof.
  intros layer.
  apply (AffineTransformAdaIn_forward_shape layer [[4]; [6]]%Z [[5]; [7]]%Z
           [[4]; [6]]%Z 2 1); try reflexivity.
  split; [reflexivity | repeat constructor].
Defined.

(** *** The layer right after construction, on real numbers *)

Lemma dot_zero_style (srow w : list R) :
  Forall (fun x => x = 0%R) srow -> dot srow w = 0%R.
Proof.
  intros Hzero. revert w. induction Hzero as [|x srow -> _ IH]; intros w.
  - reflexivity.
  - destruct w as [|y w]; [reflexivity |].
    unfold dot in *. cbn [zip_with foldr]. rewrite IH. cbn. lra.
Qed.

(** X24. What the initialization of the bias is for: a layer as
    [__init__] builds it, whatever the weights of its affine transform,
    applied to a style that is zero, returns the batch normalization of
    the input unchanged, the scale being 1 and the bias 0. *)
Theorem fresh_layer_on_zero_style (in_features style_features batch : nat)
    (fresh : linear R)
    (batch_norm : list (list R) -> result (list (list R)))
    (input style normalized : list (list R)) :
  length (weight fresh) = 2 * in_features ->
  length (bias fresh) = 2 * in_features ->
  length style = batch ->
  Forall (Forall (fun x => x = 0%R)) style ->
  batch_norm input = Return normalized ->
  has_shape batch in_features normalized ->
  AffineTransformAdaIn_forward
    (AffineTransformAdaIn_init in_features style_features fresh batch_norm)
    input style = Return normalized.
Proof.
  intros Hw Hb Hstyle Hzero Hnorm Hshape.
  set (layer := AffineTransformAdaIn_init in_features style_features fresh
                  batch_norm).
  assert (Hbias : bias (affine_transform layer) =
                  replicate in_features 1%R ++ replicate in_features 0%R).
  { cbn. now apply (fill_bias in_features 1%R 0%R). }
  assert (Hweight : weight (affine_transform layer) = weight fresh)
    by reflexivity.
  assert (Hlen : length (bias (affine_transform layer)) = 2 * in_features).
  { rewrite Hbias, length_app, !length_replicate. lia. }
  pose proof (linear_forward_shape (affine_transform layer) style batch
                (2 * in_features) Hstyle Hw Hlen) as Henc.
  unfold AffineTransformAdaIn_forward. cbv zeta.
  unfold out_features. rewrite Hlen.
  destruct (chunk_halves in_features
              (linear_forward (affine_transform layer) style))
    as (scale & shift & Hchunk & Hscale & Hshift).
  destruct (chunk_shape in_features batch _ scale shift Henc Hchunk)
    as [Hs Hsh].
  rewrite Hchunk. cbn [mbind result_bind].
  unfold AdaIn_forward.
  replace (normalization (ada_in layer) input) with (Return normalized)
    by (symmetry; exact Hnorm).
  cbn [mbind result_bind]. f_equal.
  apply (shape_ext batch in_features).
  - apply pointwise_shape; [| exact Hsh]. now apply pointwise_shape.
  - exact Hshape.
  - intros i j out x Hout Hx.
    assert (Hi : i < batch /\ j < in_features).
    { destruct Hshape as [Hrows Hcols]. unfold cell in Hx.
      destruct (normalized !! i) as [row |] eqn:Hrow; [| discriminate].
      apply lookup_lt_Some in Hrow as Hi. cbn in Hx.
      apply lookup_lt_Some in Hx.
      rewrite (proj1 (Forall_lookup _ _) Hcols _ _ Hrow) in Hx. lia. }
    destruct Hi as [Hi Hj].
    destruct (lookup_lt_is_Some_2 style i ltac:(lia)) as [srow Hsrow].
    pose proof (proj1 (Forall_lookup _ _) Hzero _ _ Hsrow) as Hsz.
    destruct (lookup_lt_is_Some_2 (weight fresh) j ltac:(lia)) as [w1 Hw1].
    destruct (lookup_lt_is_Some_2 (weight fresh) (in_features + j) ltac:(lia))
      as [w2 Hw2].
    assert (Hb1 : bias (affine_transform layer) !! j = Some 1%R).
    { rewrite Hbias, lookup_app_l by (rewrite length_replicate; lia).
      now apply lookup_replicate_2. }
    assert (Hb2 : bias (affine_transform layer) !! (in_features + j) = Some 0%R).
    { rewrite Hbias, lookup_app_r by (rewrite length_replicate; lia).
      rewrite length_replicate. apply lookup_replicate_2. lia. }
    assert (Hcs : cell scale i j = Some 1%R).
    { rewrite (Hscale i j Hj).
      rewrite (cell_linear_forward (affine_transform layer) style i j srow w1
                 1%R Hsrow Hw1 Hb1).
      rewrite (dot_zero_style srow w1 Hsz). cbn. f_equal. lra. }
    assert (Hcb : cell shift i j = Some 0%R).
    { rewrite (Hshift i j Hj).
      rewrite (cell_linear_forward (affine_transform layer) style i
                 (in_features + j) srow w2 0%R Hsrow Hw2 Hb2).
      rewrite (dot_zero_style srow w2 Hsz). cbn. f_equal. lra. }
    rewrite (cell_pointwise s_add _ shift i j (s_mul x 1%R) 0%R) in Hout;
      [| now apply cell_pointwise | exact Hcb].
    injection Hout as <-. cbn. lra.
Qed.

Lemma fresh_layer_on_zero_style_witness :
  let layer :=
    AffineTransformAdaIn_init 1 1 (Linear [[2]; [3]]%R [7; 8]%R) Return in
  AffineTransformAdaIn_forward layer [[4]; [6]]%R [[0]; [0]]%R =
    Return [[4]; [6]]%R.
Proof.
  intros layer.
  apply (fresh_layer_on_zero_style 1 1 2 (Linear [[2]; [3]]%R [7; 8]%R) Return
           [[4]; [6]]%R [[0]; [0]]%R [[4]; [6]]%R); try reflexivity.
  - repeat constructor.
  - split; [reflexivity | repeat constructor].
Defined.

(** *** Batch statistics of the output *)

Lemma rsum_map_affine (g : R -> R) (a b : R) (l : list R) :
  rsum (map (fun v => (g v * a + b)%R) l) =
  (rsum (map g l) * a + INR (length l) * b)%R.
Proof.
  induction l as [|v l IH]; [cbn; lra |].
  cbn [map length]. unfold rsum in *. cbn [foldr].
  rewrite IH, S_INR. lra.
Qed.

(** A feature centred on its batch mean and rescaled sums to zero. *)
Lemma rsum_centered (d : R) (l : list R) :
  l <> [] -> rsum (map (fun v => ((v - mean l) / d)%R) l) = 0%R.
Proof.
  intros Hne.
  assert (Hsum : forall m : R,
            rsum (map (fun v => ((v - m) / d)%R) l) =
            ((rsum l - INR (length l) * m) / d)%R).
  { intros m. clear Hne. induction l as [|v l' IH]; [cbn; lra |].
    cbn [map length]. unfold rsum in *. cbn [foldr].
    rewrite IH, S_INR. lra. }
  rewrite Hsum. unfold mean.
  assert (Hn : INR (length l) <> 0%R).
  { apply not_0_INR. destruct l; [congruence | discriminate]. }
  replace (rsum l - INR (length l) * (rsum l / INR (length l)))%R with 0%R
    by (field; exact Hn).
  unfold Rdiv. lra.
Qed.

Lemma nth_cell (m : list (list R)) (i j : nat) (row : list R) (x : R) :
  m !! i = Some row -> cell m i j = Some x -> nth j row 0%R = x.
Proof.
  intros Hrow Hcell. unfold cell in Hcell. rewrite Hrow in Hcell.
  cbn in Hcell. now apply nth_lookup_Some.
Qed.

(** A column of [out] is a function of the same column of [x] when the
    entries are. *)
Lemma column_map (g : R -> R) (j : nat) (x out : list (list R)) :
  length out = length x ->
  (forall (i : nat) (v : R), cell x i j = Some v -> cell out i j = Some (g v)) ->
  (forall (i : nat) (row : list R), x !! i = Some row -> j < length row) ->
  column j out = map g (column j x).
Proof.
  intros Hlen Hcell Hcols. unfold column. rewrite map_map.
  apply (list_eq_same_length _ _ (length x)).
  - now rewrite length_map.
  - now rewrite length_map.
  - intros i a b Hi Ha Hb.
    rewrite list_lookup_fmap in Ha, Hb.
    destruct (out !! i) as [orow |] eqn:Horow; [| discriminate].
    destruct (x !! i) as [row |] eqn:Hrow; [| discriminate].
    cbn in Ha, Hb. injection Ha as <-. injection Hb as <-.
    destruct (lookup_lt_is_Some_2 row j (Hcols i row Hrow)) as [v Hv].
    assert (Hx : cell x i j = Some v) by (unfold cell; now rewrite Hrow).
    rewrite (nth_lookup_Some _ _ _ _ Hv).
    now apply (nth_cell out i j orow), Hcell.
Qed.

Lemma cell_batch_norm1d (x normalized : list (list R)) (i j : nat) (v : R) :
  batch_norm1d x = Return normalized ->
  cell x i j = Some v ->
  cell normalized i j =
    Some ((v - mean (column j x)) / sqrt (variance (column j x) + eps))%R.
Proof.
  unfold batch_norm1d. destruct (Nat.leb (length x) 1); [discriminate |].
  intros [= <-] Hcell. unfold cell in *.
  rewrite list_lookup_fmap.
  destruct (x !! i) as [row |]; [| discriminate]. cbn in Hcell |- *.
  now rewrite list_lookup_imap, Hcell.
Qed.

Lemma batch_norm1d_shape (x normalized : list (list R)) (batch f : nat) :
  batch_norm1d x = Return normalized ->
  has_shape batch f x -> has_shape batch f normalized /\ 2 <= batch.
Proof.
  unfold batch_norm1d. destruct (Nat.leb (length x) 1) eqn:Hle; [discriminate |].
  intros [= <-] [Hrows Hcols]. apply Nat.leb_gt in Hle. split; [| lia].
  split; [now rewrite length_map |].
  apply Forall_fmap. apply (Forall_impl _ _ _ Hcols). intros row Hrow. cbn.
  now rewrite length_imap.
Qed.

(** X25. With the [BatchNorm1d] the layer is built with, in training
    mode, and a batch whose samples all have the same style, the mean
    over the batch of every output feature is the bias the style gives
    for it, whatever the input is: the normalized activations have mean
    zero, so only the second half of the affine image of the style is
    left. *)
Theorem shared_style_feature_mean (self : AffineTransformAdaIn R)
    (input : list (list R)) (srow w : list R) (b : R) (batch f j : nat) :
  normalization (ada_in self) = batch_norm1d ->
  length (weight (affine_transform self)) = 2 * f ->
  length (bias (affine_transform self)) = 2 * f ->
  2 <= batch -> has_shape batch f input -> j < f ->
  weight (affine_transform self) !! (f + j) = Some w ->
  bias (affine_transform self) !! (f + j) = Some b ->
  exists out : list (list R),
    AffineTransformAdaIn_forward self input (replicate batch srow) = Return out
    /\ mean (column j out) = (dot srow w + b)%R.
Proof.
  intros Hbn Hw Hb Hbatch Hshape Hj Hwj Hbj.
  set (style := replicate batch srow).
  assert (Hstyle : length style = batch) by apply length_replicate.
  destruct (batch_norm1d input) as [normalized | e] eqn:Hnorm.
  2:{ unfold batch_norm1d in Hnorm. destruct Hshape as [Hrows _].
      replace (Nat.leb (length input) 1) with false in Hnorm
        by (symmetry; apply Nat.leb_gt; lia).
      discriminate. }
  destruct (batch_norm1d_shape input normalized batch f Hnorm Hshape)
    as [Hnshape _].
  pose proof (linear_forward_shape (affine_transform self) style batch (2 * f)
                Hstyle Hw Hb) as Henc.
  destruct (chunk_halves f (linear_forward (affine_transform self) style))
    as (scale & shift & Hchunk & Hscale & Hshift).
  destruct (chunk_shape f batch _ scale shift Henc Hchunk) as [Hs Hsh].
  set (out := pointwise s_add (pointwise s_mul normalized scale) shift).
  assert (Hout : has_shape batch f out).
  { apply pointwise_shape; [| exact Hsh]. now apply pointwise_shape. }
  exists out. split.
  - unfold AffineTransformAdaIn_forward. cbv zeta.
    unfold out_features. rewrite Hb, Hchunk. cbn [mbind result_bind].
    unfold AdaIn_forward. rewrite Hbn, Hnorm. reflexivity.
  - destruct (lookup_lt_is_Some_2 (weight (affine_transform self)) j
                ltac:(lia)) as [w1 Hw1].
    destruct (lookup_lt_is_Some_2 (bias (affine_transform self)) j
                ltac:(lia)) as [b1 Hb1].
    set (col := column j input).
    set (d := sqrt (variance col + eps)).
    set (s := (dot srow w1 + b1)%R).
    set (t := (dot srow w + b)%R).
    assert (Hcol : column j out =
                   map (fun v => ((v - mean col) / d * s + t)%R) col).
    { apply column_map.
      - destruct Hout as [-> _]. now destruct Hshape as [-> _].
      - intros i v Hv.
        assert (Hi : i < batch).
        { unfold cell in Hv. destruct (input !! i) as [row |] eqn:Hrow;
            [| discriminate].
          apply lookup_lt_Some in Hrow. destruct Hshape as [<- _]. exact Hrow. }
        assert (Hsrow : style !! i = Some srow)
          by now apply lookup_replicate_2.
        unfold out.
        change (cell (pointwise s_add (pointwise s_mul normalized scale) shift)
                  i j =
                Some (s_add (s_mul ((v - mean col) / d)%R s) t)).
        apply cell_pointwise; [apply cell_pointwise |].
        + now apply cell_batch_norm1d.
        + rewrite (Hscale i j Hj).
          exact (cell_linear_forward (affine_transform self) style i j
                   srow w1 b1 Hsrow Hw1 Hb1).
        + rewrite (Hshift i j Hj).
          exact (cell_linear_forward (affine_transform self) style i
                   (f + j) srow w b Hsrow Hwj Hbj).
      - intros i row Hrow. destruct Hshape as [_ Hcols].
        rewrite (proj1 (Forall_lookup _ _) Hcols _ _ Hrow). exact Hj. }
    assert (Hlen : length col = batch).
    { unfold col, column. rewrite length_map. now destruct Hshape. }
    assert (Hne : col <> []) by (intros E; rewrite E in Hlen; cbn in Hlen; lia).
    unfold mean at 1. rewrite Hcol.
    rewrite (rsum_map_affine (fun v => ((v - mean col) / d)%R) s t col).
    rewrite (rsum_centered d col Hne), length_map.
    assert (Hn : INR (length col) <> 0%R) by (apply not_0_INR; lia).
    field. exact Hn.
Qed.

Lemma shared_style_feature_mean_witness :
  let layer :=
    AffineTransformAdaIn_init 1 1 (Linear [[2]; [3]]%R [0; 0]%R) batch_norm1d in
  exists out : list (list R),
    AffineTransformAdaIn_forward layer [[1]; [3]]%R (replicate 2 [5]%R) =
      Return out
    /\ mean (column 0 out) = (dot [5] [3] + 0)%R.
Proof.
  intros layer.
  apply (shared_style_feature_mean layer [[1]; [3]]%R [5]%R [3]%R 0%R 2 1 0);
    try reflexivity; try lia.
  split; [reflexivity | repeat constructor].
Defined.

End AdaInMore.

